(** * Klondike solitaire: the rule engine of [solitare.py]

    The file embeds the game logic of the source and proves properties of
    it.  The definitions come in three groups.

    - The rule engine ([Card], [GameState], the legality predicates, the
      deal, the five move helpers, the win check and the auto-move sweep)
      over immutable values.  What Python raises is an outcome of the [res]
      type.
    - The session: the stored settings and the settings screen, the [Game]
      object with its settings, live state, undo stack, cursor and
      leaderboard, and the key handlers of [game_loop].  Clock readings are
      binary64 floats.
    - [Store]: the move helpers and [clone] once more, over a store of
      objects (cards, lists and game states named by references), for the
      properties that depend on which objects are shared.

    The predicates the theorems are stated with follow, then the proofs.
*)

From Stdlib Require Import ZArith QArith Lia String DecimalString.
From Stdlib Require SpecFloat.
From stdpp Require Import base tactics option numbers list.

Local Open Scope Z_scope.

(** ** Outcomes of a call *)

(** Exceptions the modelled code can raise: a list subscript out of range
    or [pop] from an empty list, a read of an attribute that the object does
    not have, [list.index] of a value that is not in the list or [int] of a
    float that is not a number, an operand of a type the operation does not
    take, and [int] of an infinite float.
    [Dangling] belongs to the model alone: a reference that names no object
    of the store, which no Python state contains. *)
Inductive exn : Type :=
| IndexError
| AttributeError
| ValueError
| TypeError
| OverflowError
| Dangling.

(** A call either returns, raises, or, for the one unbounded [while] loop
    of the engine, exhausts the iteration budget of the model. *)
Inductive res (A : Type) : Type :=
| Ok (a : A)
| Raise (e : exn)
| OutOfFuel.
Arguments Ok {A} a.
Arguments Raise {A} e.
Arguments OutOfFuel {A}.

Definition res_bind {A B : Type} (m : res A) (k : A -> res B) : res B :=
  match m with
  | Ok a => k a
  | Raise e => Raise e
  | OutOfFuel => OutOfFuel
  end.

Notation "'let!' p ':=' m 'in' k" := (res_bind m (fun p => k))
  (at level 10, p pattern, m at level 100, k at level 200,
   format "'[v' 'let!'  p  :=  m  'in' '/' k ']'").

(** ** Python list primitives *)

Section PyList.
Context {A : Type}.

(** Position addressed by the subscript [i] in a list of length [len]:
    negative subscripts count from the end. *)
Definition py_norm (len : nat) (i : Z) : option nat :=
  if 0 <=? i then
    if i <? Z.of_nat len then Some (Z.to_nat i) else None
  else
    if 0 <=? Z.of_nat len + i then Some (Z.to_nat (Z.of_nat len + i)) else None.

(** [l[i]] *)
Definition index (l : list A) (i : Z) : res (nat * A) :=
  match py_norm (length l) i with
  | Some n => match l !! n with
              | Some x => Ok (n, x)
              | None => Raise IndexError
              end
  | None => Raise IndexError
  end.

(** [l.pop()]: the list without its last element, and that element. *)
Fixpoint pop (l : list A) : option (list A * A) :=
  match l with
  | [] => None
  | x :: l' => match pop l' with
               | None => Some ([], x)
               | Some (r, y) => Some (x :: r, y)
               end
  end.

(** [l[-1] if l else None] *)
Definition top (l : list A) : option A := snd <$> pop l.

(** [l[a:]] and [l[:b]] for in-range non-negative bounds are [drop a l]
    and [take b l]; [del l[a:b]] for [a <= b] keeps the rest. *)
Definition del_slice (a b : nat) (l : list A) : list A :=
  take a l ++ drop b l.
End PyList.

(** ** Floats *)

(** A Python [float] is an IEEE 754 binary64 number: 53 bits of precision,
    exponents below 1024.  [S754_finite s m e] is [m * 2^e], negated when
    [s] is set. *)
Abbreviation float := SpecFloat.spec_float.

(** [x - y] on floats: the exact difference, rounded to the nearest float,
    ties to even. *)
Definition float_sub (x y : float) : float := SpecFloat.SFsub 53 1024 x y.

(** The float nearest to the integer [z]. *)
Definition float_of_Z (z : Z) : float := SpecFloat.binary_normalize 53 1024 z 0 false.

(** [int(x)] of a float: truncation toward zero. *)
Definition py_int (x : float) : res Z :=
  match x with
  | SpecFloat.S754_zero _ => Ok 0
  | SpecFloat.S754_finite s m e =>
      let a := if 0 <=? e then Zpos m * 2 ^ e else Zpos m / 2 ^ (- e) in
      Ok (if s then - a else a)
  | SpecFloat.S754_infinity _ => Raise OverflowError
  | SpecFloat.S754_nan => Raise ValueError
  end.

(** ** Cards and game model *)

Record Card : Type := mkCard {
  value : Z;        (* 1..13 *)
  suit : Z;         (* 0..3 index into SUITS *)
  face_up : bool
}.

Definition color_red (c : Card) : bool :=
  (suit c =? 1) || (suit c =? 2).

Definition set_face (b : bool) (c : Card) : Card :=
  {| value := value c; suit := suit c; face_up := b |}.

Record GameState : Type := mkGameState {
  stock : list Card;
  waste : list Card;
  foundations : list (list Card);     (* per suit *)
  tableaus : list (list Card);
  moves : Z;
  start_time : float;
  won : bool
}.

(** Field assignments. *)
Definition with_stock (s : list Card) (gs : GameState) : GameState :=
  mkGameState s (waste gs) (foundations gs) (tableaus gs) (moves gs) (start_time gs) (won gs).
Definition with_waste (w : list Card) (gs : GameState) : GameState :=
  mkGameState (stock gs) w (foundations gs) (tableaus gs) (moves gs) (start_time gs) (won gs).
Definition with_foundations (f : list (list Card)) (gs : GameState) : GameState :=
  mkGameState (stock gs) (waste gs) f (tableaus gs) (moves gs) (start_time gs) (won gs).
Definition with_tableaus (t : list (list Card)) (gs : GameState) : GameState :=
  mkGameState (stock gs) (waste gs) (foundations gs) t (moves gs) (start_time gs) (won gs).
Definition with_moves (m : Z) (gs : GameState) : GameState :=
  mkGameState (stock gs) (waste gs) (foundations gs) (tableaus gs) m (start_time gs) (won gs).
Definition with_won (b : bool) (gs : GameState) : GameState :=
  mkGameState (stock gs) (waste gs) (foundations gs) (tableaus gs) (moves gs) (start_time gs) b.

(** [GameState.clone], on values: every card is rebuilt field by field. *)
Definition clone_card (c : Card) : Card := mkCard (value c) (suit c) (face_up c).
Definition clone (gs : GameState) : GameState :=
  mkGameState (map clone_card (stock gs)) (map clone_card (waste gs))
    (map (map clone_card) (foundations gs))
    (map (map clone_card) (tableaus gs))
    (moves gs) (start_time gs) (won gs).

(** ** Game logic *)

Definition can_place_on_tableau (moving : Card) (target : option Card) : bool :=
  match target with
  | None => value moving =? 13
  | Some t =>
      if Bool.eqb (color_red moving) (color_red t) then false
      else value moving =? value t - 1
  end.

Definition can_place_on_foundation (moving : Card) (foundation_top : option Card) : bool :=
  match foundation_top with
  | None => value moving =? 1
  | Some t => (suit moving =? suit t) && (value moving =? value t + 1)
  end.

(** [flip_if_needed]: the last card of the pile is turned face up. *)
Definition flip_if_needed (pile : list Card) : list Card :=
  match pop pile with
  | Some (rest, c) => if face_up c then pile else rest ++ [set_face true c]
  | None => pile
  end.

(** The [for s in range(4)] loop of [move_waste_to_foundation]; [ss] holds
    the values of [s] still to be tried. *)
Fixpoint waste_to_foundation_from (gs : GameState) (card : Card) (rest : list Card)
    (ss : list Z) : res (GameState * bool) :=
  match ss with
  | [] => Ok (gs, false)
  | s :: ss' =>
      let! (n, pile) := index (foundations gs) s in
      let top_ := top pile in
      if can_place_on_foundation card top_
         && match top_ with None => true | Some t => suit t =? suit card end
      then
        Ok (with_moves (moves gs + 1)
              (with_waste rest
                 (with_foundations (<[n := pile ++ [card]]> (foundations gs)) gs)),
            true)
      else waste_to_foundation_from gs card rest ss'
  end.

Definition move_waste_to_foundation (gs : GameState) : res (GameState * bool) :=
  match pop (waste gs) with
  | None => Ok (gs, false)
  | Some (rest, card) => waste_to_foundation_from gs card rest [0; 1; 2; 3]
  end.

(** [pile[-1] if pile and pile[-1].face_up else None] *)
Definition target_of (pile : list Card) : option Card :=
  match top pile with
  | Some t => if face_up t then Some t else None
  | None => None
  end.

Definition move_waste_to_tableau (gs : GameState) (col : Z) : res (GameState * bool) :=
  match pop (waste gs) with
  | None => Ok (gs, false)
  | Some (rest, card) =>
      let! (n, pile) := index (tableaus gs) col in
      if can_place_on_tableau card (target_of pile) then
        Ok (with_moves (moves gs + 1)
              (with_waste rest
                 (with_tableaus (<[n := pile ++ [card]]> (tableaus gs)) gs)),
            true)
      else Ok (gs, false)
  end.

Definition move_tableau_to_foundation (gs : GameState) (col : Z) : res (GameState * bool) :=
  let! (n, pile) := index (tableaus gs) col in
  match pop pile with
  | None => Ok (gs, false)
  | Some (rest, card) =>
      if negb (face_up card) then Ok (gs, false)
      else
        let! (s, fpile) := index (foundations gs) (suit card) in
        if can_place_on_foundation card (top fpile) then
          Ok (with_moves (moves gs + 1)
                (with_tableaus (<[n := flip_if_needed rest]> (tableaus gs))
                   (with_foundations (<[s := fpile ++ [card]]> (foundations gs)) gs)),
              true)
        else Ok (gs, false)
  end.

(** The backward scan [while idx >= 0 and pile[idx].face_up: idx -= 1],
    with [n = idx + 1]; the result is [first_faceup]. *)
Fixpoint first_faceup_from (pile : list Card) (n : nat) : nat :=
  match n with
  | O => O
  | S i => match pile !! i with
           | Some c => if face_up c then first_faceup_from pile i else n
           | None => n
           end
  end.

Definition first_faceup (pile : list Card) : nat :=
  first_faceup_from pile (length pile).

Definition move_tableau_to_tableau (gs : GameState) (src dst depth : Z)
    : res (GameState * bool) :=
  (* depth counts from top of src face-up run *)
  if src =? dst then Ok (gs, false)
  else
    let! (ns, pile) := index (tableaus gs) src in
    match pile with
    | [] => Ok (gs, false)
    | _ =>
      let ff := first_faceup pile in
      if (length pile <=? ff)%nat then Ok (gs, false)
      else
        let run := drop ff pile in
        if (depth <? 1) || (Z.of_nat (length run) <? depth) then Ok (gs, false)
        else
          let d := Z.to_nat depth in
          let moving_stack := take d run in
          let! (nd, dpile) := index (tableaus gs) dst in
          match moving_stack with
          | [] => Raise IndexError
          | bottom :: _ =>
            if negb (can_place_on_tableau bottom (target_of dpile)) then Ok (gs, false)
            else
              (* perform move *)
              let t1 := <[nd := dpile ++ moving_stack]> (tableaus gs) in
              let t2 := alter (del_slice ff (ff + d)) ns t1 in
              let t3 := alter flip_if_needed ns t2 in
              Ok (with_moves (moves gs + 1) (with_tableaus t3 gs), true)
          end
    end.

(** The two loops of [draw_from_stock]. *)
Fixpoint draw_loop (k : nat) (stock_ waste_ : list Card) : res (list Card * list Card) :=
  match k with
  | O => Ok (stock_, waste_)
  | S k' =>
      match pop stock_ with
      | None => Raise IndexError
      | Some (rest, c) => draw_loop k' rest (waste_ ++ [set_face true c])
      end
  end.

(** [while gs.waste: ...]; the loop runs once per waste card, [n] counts the
    cards still in the waste. *)
Fixpoint recycle_loop (n : nat) (stock_ waste_ : list Card) : list Card * list Card :=
  match n with
  | O => (stock_, waste_)
  | S n' =>
      match pop waste_ with
      | None => (stock_, waste_)
      | Some (rest, c) => recycle_loop n' (stock_ ++ [set_face false c]) rest
      end
  end.

Definition draw_from_stock (gs : GameState) (draw_count : Z) : res (GameState * bool) :=
  match stock gs with
  | _ :: _ =>
      let k := Z.to_nat (Z.min draw_count (Z.of_nat (length (stock gs)))) in
      let! (s, w) := draw_loop k (stock gs) (waste gs) in
      Ok (with_moves (moves gs + 1) (with_waste w (with_stock s gs)), true)
  | [] =>
      match waste gs with
      | _ :: _ =>
          (* recycle waste back to stock (face down) *)
          let '(s, w) := recycle_loop (length (waste gs)) (stock gs) (waste gs) in
          Ok (with_moves (moves gs + 1) (with_waste w (with_stock s gs)), true)
      | [] => Ok (gs, false)
      end
  end.

Definition check_win (gs : GameState) : GameState * bool :=
  let total := sum_list (length <$> foundations gs) in
  if (total =? 52)%nat then (with_won true gs, true) else (gs, false).

(** The [for col in range(7)] loop of [auto_move_safe]. *)
Fixpoint sweep_columns (cols : list Z) (gs : GameState) (moved : bool) (count : Z)
    : res (GameState * bool * Z) :=
  match cols with
  | [] => Ok (gs, moved, count)
  | col :: cols' =>
      let! (gs1, b) := move_tableau_to_foundation gs col in
      if b then sweep_columns cols' gs1 true (count + 1)
      else sweep_columns cols' gs1 moved count
  end.

(** One iteration of the [while moved] loop. *)
Definition auto_move_pass (gs : GameState) (count : Z) : res (GameState * bool * Z) :=
  let! (gs1, b) := move_waste_to_foundation gs in
  if b then sweep_columns [0; 1; 2; 3; 4; 5; 6] gs1 true (count + 1)
  else sweep_columns [0; 1; 2; 3; 4; 5; 6] gs1 false count.

Fixpoint auto_move_loop (fuel : nat) (gs : GameState) (count : Z) : res (GameState * Z) :=
  match fuel with
  | O => OutOfFuel
  | S fuel' =>
      let! (gs1, moved, count1) := auto_move_pass gs count in
      if moved then auto_move_loop fuel' gs1 count1 else Ok (gs1, count1)
  end.

(** Cards that can still go to a foundation: every pass that moves
    something takes at least one of them, which bounds the iterations. *)
Definition movable (gs : GameState) : nat :=
  (length (waste gs) + sum_list (length <$> tableaus gs))%nat.

Definition auto_move_safe (gs : GameState) : res (GameState * Z) :=
  auto_move_loop (S (movable gs)) gs 0.

(** ** Deck and deal *)

(** [[Card(v, s, False) for s in range(4) for v in range(1, 14)]] *)
Definition ordered_deck : list Card :=
  s ← seqZ 0 4; (fun v => mkCard v s false) <$> seqZ 1 13.

(** The inner loop of [deal_new_game]: [is_] holds the values of [i] still
    to come. *)
Fixpoint deal_cards (is_ : list nat) (col : nat) (deck pile : list Card)
    : res (list Card * list Card) :=
  match is_ with
  | [] => Ok (deck, pile)
  | i :: is' =>
      match pop deck with
      | None => Raise IndexError
      | Some (deck', card) =>
          let card' := if (i =? col)%nat then set_face true card else card in
          deal_cards is' col deck' (pile ++ [card'])
      end
  end.

Fixpoint deal_columns (cols : list nat) (deck : list Card) (tabs : list (list Card))
    : res (list Card * list (list Card)) :=
  match cols with
  | [] => Ok (deck, tabs)
  | col :: cols' =>
      let! (_, pile) := index tabs (Z.of_nat col) in
      let! (deck1, pile1) := deal_cards (seq 0 (S col)) col deck pile in
      deal_columns cols' deck1 (<[col := pile1]> tabs)
  end.

(** [deal_new_game], given the shuffled deck and the clock reading. *)
Definition deal_from (deck : list Card) (now : float) : res GameState :=
  let! (deck1, tabs) := deal_columns (seq 0 7) deck (replicate 7 []) in
  Ok (mkGameState deck1 [] (replicate 4 []) tabs 0 now false).

Section Deal.
(** [random.shuffle] rearranges the deck in place; which arrangement it
    picks is left open. *)
Variable shuffle : list Card -> list Card.
Hypothesis shuffle_perm : forall l, shuffle l ≡ₚ l.

Definition new_deck : list Card := shuffle ordered_deck.

Definition deal_new_game (now : float) : res GameState :=
  deal_from new_deck now.
End Deal.


(** ** Stored settings *)

(** What [json.load] returns.  A number with a fraction or an exponent is a
    float, here a rational. *)
#[local] Unset Elimination Schemes.
Inductive JSON : Type :=
| JNull
| JBool (b : bool)
| JInt (n : Z)
| JFloat (q : Q)
| JString (s : string)
| JArray (l : list JSON)
| JObject (d : list (string * JSON)).
#[local] Set Elimination Schemes.

(** A [dict] with string keys, in insertion order. *)
Definition Dict : Type := list (string * JSON).

(** [d.get(k)] *)
Fixpoint dict_get (k : string) (d : Dict) : option JSON :=
  match d with
  | [] => None
  | (k', v) :: d' => if String.eqb k k' then Some v else dict_get k d'
  end.

(** [d.setdefault(k, v)]: a missing key is added at the end. *)
Definition setdefault (k : string) (v : JSON) (d : Dict) : Dict :=
  match dict_get k d with
  | Some _ => d
  | None => d ++ [(k, v)]
  end.

(** [for k, v in defaults.items(): data.setdefault(k, v)] *)
Definition merge_defaults (defaults data : Dict) : Dict :=
  foldl (fun d kv => setdefault kv.1 kv.2 d) data defaults.

Definition DEFAULT_SETTINGS : Dict :=
  [("draw_count", JInt 3); ("auto_move", JBool true); ("show_hints", JBool true);
   ("theme", JString "classic"); ("ascii_only", JBool false);
   ("animations", JBool false)]%string.

(** [load_settings], given what opening and parsing the file gave: the
    parsed value, or [None] for any exception.  A value that is not an
    object has no [setdefault]; that exception is caught like the others. *)
Definition load_settings (file : option JSON) : Dict :=
  match file with
  | Some (JObject data) => merge_defaults DEFAULT_SETTINGS data
  | _ => DEFAULT_SETTINGS
  end.

(** [load_leaderboard] *)
Definition load_leaderboard (file : option JSON) : Dict :=
  match file with
  | Some (JObject data) =>
      merge_defaults [("best_times", JArray []); ("fewest_moves", JArray [])]%string data
  | _ => [("best_times", JArray []); ("fewest_moves", JArray [])]%string
  end.

(** ** The settings screen *)

(** The six values [show_settings] reads and writes; [load_settings] has
    made sure the keys exist. *)
Record SettingsDict : Type := mkSettingsDict {
  sd_draw_count : JSON;
  sd_auto_move : JSON;
  sd_show_hints : JSON;
  sd_theme : JSON;
  sd_ascii_only : JSON;
  sd_animations : JSON
}.

(** [v == n] for an integer literal [n]: [True] is 1, and a float equals
    the integer of the same value. *)
Definition py_eq_int (v : JSON) (n : Z) : bool :=
  match v with
  | JInt m => m =? n
  | JBool b => (if b then 1 else 0) =? n
  | JFloat q => Qeq_bool q (inject_Z n)
  | _ => false
  end.

(** [bool(v)] *)
Definition py_truthy (v : JSON) : bool :=
  match v with
  | JNull => false
  | JBool b => b
  | JInt n => negb (n =? 0)
  | JFloat q => negb (Qeq_bool q 0)
  | JString s => negb (String.eqb s "")
  | JArray l => match l with [] => false | _ => true end
  | JObject d => match d with [] => false | _ => true end
  end.

Definition themes : list string := ["classic"; "high_contrast"; "green"; "blue"]%string.

(** [l.index(s)] *)
Fixpoint str_index (s : string) (l : list string) : res nat :=
  match l with
  | [] => Raise ValueError
  | t :: l' => if String.eqb t s then Ok O else let! i := str_index s l' in Ok (S i)
  end.

(** [themes.index(v)]: only a string equals a string. *)
Definition theme_index (v : JSON) : res nat :=
  match v with
  | JString s => str_index s themes
  | _ => Raise ValueError
  end.

(** [themes[(themes.index(v) + step) % len(themes)]] *)
Definition next_theme (v : JSON) (step : Z) : res JSON :=
  let! i := theme_index v in
  let! (_, t) := index themes ((Z.of_nat i + step) mod Z.of_nat (length themes)) in
  Ok (JString t).

Definition toggle (v : JSON) : JSON := JBool (negb (py_truthy v)).

(** The branch [elif ch in (curses.KEY_LEFT, ord('h'))] for the row [sel]. *)
Definition flip_left (sel : Z) (s : SettingsDict) : res SettingsDict :=
  if sel =? 0 then
    Ok (mkSettingsDict (if py_eq_int (sd_draw_count s) 3 then JInt 1 else JInt 3)
          (sd_auto_move s) (sd_show_hints s) (sd_theme s) (sd_ascii_only s) (sd_animations s))
  else if sel =? 1 then
    Ok (mkSettingsDict (sd_draw_count s) (toggle (sd_auto_move s)) (sd_show_hints s)
          (sd_theme s) (sd_ascii_only s) (sd_animations s))
  else if sel =? 2 then
    Ok (mkSettingsDict (sd_draw_count s) (sd_auto_move s) (toggle (sd_show_hints s))
          (sd_theme s) (sd_ascii_only s) (sd_animations s))
  else if sel =? 3 then
    let! t := next_theme (sd_theme s) (-1) in
    Ok (mkSettingsDict (sd_draw_count s) (sd_auto_move s) (sd_show_hints s) t
          (sd_ascii_only s) (sd_animations s))
  else if sel =? 4 then
    Ok (mkSettingsDict (sd_draw_count s) (sd_auto_move s) (sd_show_hints s) (sd_theme s)
          (toggle (sd_ascii_only s)) (sd_animations s))
  else if sel =? 5 then
    Ok (mkSettingsDict (sd_draw_count s) (sd_auto_move s) (sd_show_hints s) (sd_theme s)
          (sd_ascii_only s) (toggle (sd_animations s)))
  else Ok s.

(** The branch [elif ch in (curses.KEY_RIGHT, ord('l'), 10, 13)]. *)
Definition flip_right (sel : Z) (s : SettingsDict) : res SettingsDict :=
  if sel =? 0 then
    Ok (mkSettingsDict (if py_eq_int (sd_draw_count s) 1 then JInt 3 else JInt 1)
          (sd_auto_move s) (sd_show_hints s) (sd_theme s) (sd_ascii_only s) (sd_animations s))
  else if sel =? 1 then
    Ok (mkSettingsDict (sd_draw_count s) (toggle (sd_auto_move s)) (sd_show_hints s)
          (sd_theme s) (sd_ascii_only s) (sd_animations s))
  else if sel =? 2 then
    Ok (mkSettingsDict (sd_draw_count s) (sd_auto_move s) (toggle (sd_show_hints s))
          (sd_theme s) (sd_ascii_only s) (sd_animations s))
  else if sel =? 3 then
    let! t := next_theme (sd_theme s) 1 in
    Ok (mkSettingsDict (sd_draw_count s) (sd_auto_move s) (sd_show_hints s) t
          (sd_ascii_only s) (sd_animations s))
  else if sel =? 4 then
    Ok (mkSettingsDict (sd_draw_count s) (sd_auto_move s) (sd_show_hints s) (sd_theme s)
          (toggle (sd_ascii_only s)) (sd_animations s))
  else if sel =? 5 then
    Ok (mkSettingsDict (sd_draw_count s) (sd_auto_move s) (sd_show_hints s) (sd_theme s)
          (sd_ascii_only s) (toggle (sd_animations s)))
  else Ok s.

(** The keys the screen reacts to. *)
Inductive SKey : Type := SQuit | SUp | SDown | SLeft | SRight | SOther.

(** The [while True] loop of [show_settings] on the keys typed: the
    settings, and what the call returned, [None] while it waits for a
    key. *)
Fixpoint settings_loop (keys : list SKey) (sel : Z) (changed : bool) (s : SettingsDict)
    : res (SettingsDict * option bool) :=
  match keys with
  | [] => Ok (s, None)
  | SQuit :: _ => Ok (s, Some changed)
  | SUp :: keys' => settings_loop keys' ((sel - 1) mod 6) changed s
  | SDown :: keys' => settings_loop keys' ((sel + 1) mod 6) changed s
  | SLeft :: keys' => let! s1 := flip_left sel s in settings_loop keys' sel true s1
  | SRight :: keys' => let! s1 := flip_right sel s in settings_loop keys' sel true s1
  | SOther :: keys' => settings_loop keys' sel changed s
  end.

(** [show_settings]; building [idxs] looks the theme up before the first
    key is read. *)
Definition show_settings (keys : list SKey) (s : SettingsDict)
    : res (SettingsDict * option bool) :=
  let! _ := theme_index (sd_theme s) in
  settings_loop keys 0 false s.

(** Settings as the screen itself writes them. *)
Definition settings_valid (s : SettingsDict) : Prop :=
  (sd_draw_count s = JInt 1 \/ sd_draw_count s = JInt 3) /\
  (exists b, sd_auto_move s = JBool b) /\ (exists b, sd_show_hints s = JBool b) /\
  (exists t, sd_theme s = JString t /\ t ∈ themes) /\
  (exists b, sd_ascii_only s = JBool b) /\ (exists b, sd_animations s = JBool b).


(** ** The game session *)

(** A leaderboard entry and the leaderboard file, as the program writes
    them.  The draw count of an entry is the value the settings held. *)
Record Entry : Type := mkEntry {
  e_name : string;
  e_time_s : Z;
  e_moves : Z;
  e_draw : JSON;
  e_date : string
}.

Record Board : Type := mkBoard {
  best_times : list Entry;
  fewest_moves : list Entry
}.

(** The calls of [time.monotonic()] within one frame of the main loop: in
    [UI.draw], in [save_score_if_win] and in [deal_new_game]. *)
Inductive Reading : Type := AtDraw | AtSave | AtDeal.

(** What the process reads from outside: the monotonic clock at each of its
    readings in each frame of the main loop, the date in each frame, two
    environment variables, and the arrangement [random.shuffle] leaves the
    deck in when a game is dealt in a frame. *)
Record Env : Type := mkEnv {
  clock : nat -> Reading -> float;
  today : nat -> string;
  env_username : option string;
  env_user : option string;
  shuffled : nat -> list Card
}.

Inductive Zone : Type := ZStock | ZWaste | ZFoundation | ZTableau.

(** [self._sel] *)
Inductive Selection : Type :=
| SelWaste
| SelFoundation (idx : Z)
| SelTableau (col depth : Z).

(** ** Hints *)

(** What [hint] writes of the [UI] object. *)
Record Hints : Type := mkHints {
  status_msg : string;
  hint_targets : list (Zone * Z)
}.

(** [for col in range(7)] over the columns that take the waste card [w];
    [cols] holds the values of [col] still to come. *)
Fixpoint hint_waste_columns (gs : GameState) (w : Card) (cols : list Z)
    (tips : list (Zone * Z)) : res (list (Zone * Z)) :=
  match cols with
  | [] => Ok tips
  | col :: cols' =>
      let! (_, pile) := index (tableaus gs) col in
      hint_waste_columns gs w cols'
        (if can_place_on_tableau w (target_of pile) then tips ++ [(ZTableau, col)] else tips)
  end.

(** [for col in range(7)] over the columns whose top card goes to its
    foundation. *)
Fixpoint hint_tableau_columns (gs : GameState) (cols : list Z) (tips : list (Zone * Z))
    : res (list (Zone * Z)) :=
  match cols with
  | [] => Ok tips
  | col :: cols' =>
      let! (_, pile) := index (tableaus gs) col in
      match top pile with
      | Some ttop =>
          if face_up ttop then
            let! (_, fpile) := index (foundations gs) (suit ttop) in
            hint_tableau_columns gs cols'
              (if can_place_on_foundation ttop (top fpile)
               then tips ++ [(ZFoundation, suit ttop)] else tips)
          else hint_tableau_columns gs cols' tips
      | None => hint_tableau_columns gs cols' tips
      end
  end.

(** The list [tips] that [hint] builds. *)
Definition hint_tips (gs : GameState) : res (list (Zone * Z)) :=
  let! tips :=
    match top (waste gs) with
    | Some w =>
        let! (_, fpile) := index (foundations gs) (suit w) in
        hint_waste_columns gs w [0; 1; 2; 3; 4; 5; 6]
          (if can_place_on_foundation w (top fpile) then [(ZFoundation, suit w)] else [])
    | None => Ok []
    end in
  hint_tableau_columns gs [0; 1; 2; 3; 4; 5; 6] tips.

(** [str(n)] *)
Definition py_str_nat (n : nat) : string := NilEmpty.string_of_uint (Nat.to_uint n).

(** [Game.hint], given [settings.get('show_hints', True)]. *)
Definition hint (show_hints : bool) (gs : GameState) (ui : Hints) : res Hints :=
  if negb show_hints then Ok (mkHints "Hints are disabled in Settings." (hint_targets ui))
  else
    let! tips := hint_tips gs in
    Ok (mkHints
          (match tips with
           | [] => "No obvious moves. Try drawing (D)."
           | _ => "Hints: " ++ py_str_nat (length tips)
                  ++ " potential destinations highlighted (not shown in minimal UI)."
           end)%string
          tips).

(** ** The [Game] object *)

(** The [Game] object with the settings it shares with its [UI], the cursor
    and the hint fields of the [UI], and the leaderboard file it writes. *)
Record Game : Type := mkGame {
  settings : SettingsDict;
  state : GameState;
  undo_stack : list GameState;
  win_time : Z;
  sel : option Selection;
  cursor : Zone * Z;
  hints : Hints;
  board : Board
}.

Definition with_settings (s : SettingsDict) (g : Game) : Game :=
  mkGame s (state g) (undo_stack g) (win_time g) (sel g) (cursor g) (hints g) (board g).
Definition with_state (gs : GameState) (g : Game) : Game :=
  mkGame (settings g) gs (undo_stack g) (win_time g) (sel g) (cursor g) (hints g) (board g).
Definition with_undo_stack (u : list GameState) (g : Game) : Game :=
  mkGame (settings g) (state g) u (win_time g) (sel g) (cursor g) (hints g) (board g).
Definition with_sel (s : option Selection) (g : Game) : Game :=
  mkGame (settings g) (state g) (undo_stack g) (win_time g) s (cursor g) (hints g) (board g).
Definition with_cursor (c : Zone * Z) (g : Game) : Game :=
  mkGame (settings g) (state g) (undo_stack g) (win_time g) (sel g) c (hints g) (board g).
Definition with_hints (h : Hints) (g : Game) : Game :=
  mkGame (settings g) (state g) (undo_stack g) (win_time g) (sel g) (cursor g) h (board g).

Definition push_undo (g : Game) : Game :=
  let stack := undo_stack g ++ [clone (state g)] in
  with_undo_stack (if (200 <? length stack)%nat then drop 1 stack else stack) g.

Definition undo (g : Game) : Game :=
  match pop (undo_stack g) with
  | Some (rest, snapshot) => with_state snapshot (with_undo_stack rest g)
  | None => g
  end.

(** [a or b] on strings: the empty string counts as false. *)
Definition or_string (a : option string) (b : string) : string :=
  match a with
  | Some s => if String.eqb s EmptyString then b else s
  | None => b
  end.

(** [l.sort(key=...)]: a stable sort. *)
Fixpoint insert_by {A : Type} (key : A -> Z) (x : A) (l : list A) : list A :=
  match l with
  | [] => [x]
  | y :: l' => if key x <=? key y then x :: l else y :: insert_by key x l'
  end.

Definition sort_by {A : Type} (key : A -> Z) (l : list A) : list A :=
  foldr (insert_by key) [] l.

(** [int(end - self.state.start_time)] in [save_score_if_win] at frame
    [n]. *)
Definition elapsed (env : Env) (n : nat) (g : Game) : res Z :=
  py_int (float_sub (clock env n AtSave) (start_time (state g))).

(** The entry [save_score_if_win] builds at frame [n], [secs] being the
    elapsed seconds. *)
Definition score_entry (env : Env) (n : nat) (g : Game) (secs : Z) : Entry :=
  mkEntry (or_string (env_username env) (or_string (env_user env) "Player"))
    secs
    (moves (state g))
    (sd_draw_count (settings g))
    (today env n).

(** [save_score_if_win]; reading and writing the leaderboard file is taken
    to succeed. *)
Definition save_score_if_win (env : Env) (n : nat) (g : Game) : res Game :=
  if won (state g) then
    let! secs := elapsed env n g in
    let entry := score_entry env n g secs in
    let bt := take 20 (sort_by e_time_s (best_times (board g) ++ [entry])) in
    let fm := take 20 (sort_by e_moves (fewest_moves (board g) ++ [entry])) in
    Ok (mkGame (settings g) (state g) (undo_stack g) secs (sel g) (cursor g) (hints g)
          (mkBoard bt fm))
  else Ok g.

(** The win check at the head of each frame of [game_loop]. *)
Definition frame_check (env : Env) (n : nat) (g : Game) : res Game :=
  let '(gs, b) := check_win (state g) in
  if b then save_score_if_win env n (with_state gs g) else Ok (with_state gs g).

(** What [UI.draw] computes before it writes the table: the seconds played
    from the clock, or, for a won game, from [self._win_time], an attribute
    that only [Game] has.  Writing the table is left to curses; the labels
    it needs are those of [card_text] below. *)
Definition ui_draw (env : Env) (n : nat) (gs : GameState) : res unit :=
  if won gs then Raise AttributeError
  else
    let! _ := py_int (float_sub (clock env n AtDraw) (start_time gs)) in
    Ok tt.

(** [draw_from_stock(self.state, self.settings['draw_count'])].  The count
    is whatever the settings hold.  It is looked at when the stock is not
    empty: [min(draw_count, len(gs.stock))] is [draw_count] unless the
    length is below it, and [range] takes an integer or a bool. *)
Definition draw_with (gs : GameState) (count : JSON) : res (GameState * bool) :=
  match stock gs with
  | [] => draw_from_stock gs 0
  | _ :: _ =>
      match count with
      | JInt k => draw_from_stock gs k
      | JBool b => draw_from_stock gs (if b then 1 else 0)
      | JFloat q =>
          let len := Z.of_nat (length (stock gs)) in
          if Qle_bool q (inject_Z len) then Raise TypeError else draw_from_stock gs len
      | _ => Raise TypeError
      end
  end.

Definition order : list (Zone * Z) :=
  [(ZStock, 0); (ZWaste, 0);
   (ZFoundation, 0); (ZFoundation, 1); (ZFoundation, 2); (ZFoundation, 3);
   (ZTableau, 0); (ZTableau, 1); (ZTableau, 2); (ZTableau, 3);
   (ZTableau, 4); (ZTableau, 5); (ZTableau, 6)].

Definition zone_eqb (a b : Zone) : bool :=
  match a, b with
  | ZStock, ZStock | ZWaste, ZWaste | ZFoundation, ZFoundation | ZTableau, ZTableau => true
  | _, _ => false
  end.

(** [order.index(x)] *)
Fixpoint index_of (x : Zone * Z) (l : list (Zone * Z)) : res nat :=
  match l with
  | [] => Raise ValueError
  | y :: l' =>
      if zone_eqb (fst x) (fst y) && (snd x =? snd y) then Ok O
      else let! i := index_of x l' in Ok (S i)
  end.

Definition cycle_cursor (dy dx : Z) (g : Game) : res Game :=
  let! i := index_of (cursor g) order in
  let j := (Z.of_nat i + dx + dy * 0) mod Z.of_nat (length order) in
  let! (_, c) := index order j in
  Ok (with_cursor c g).

(** The foundation-to-tableau move written out in [select_or_move]. *)
Definition foundation_to_tableau (gs : GameState) (src idx : Z) : res (GameState * bool) :=
  let! (nf, fpile) := index (foundations gs) src in
  match pop fpile with
  | None => Raise IndexError
  | Some (rest, card) =>
      let! (nt, pile) := index (tableaus gs) idx in
      if can_place_on_tableau card (target_of pile) then
        Ok (with_moves (moves gs + 1)
              (with_foundations (<[nf := rest]> (foundations gs))
                 (with_tableaus (<[nt := pile ++ [card]]> (tableaus gs)) gs)),
            true)
      else Ok (gs, false)
  end.

(** The move attempted when [src] is selected and Enter is pressed on
    [(zone, idx)]. *)
Definition place (gs : GameState) (src : Selection) (zone : Zone) (idx : Z)
    : res (GameState * bool) :=
  match src, zone with
  | SelWaste, ZFoundation => move_waste_to_foundation gs
  | SelWaste, ZTableau => move_waste_to_tableau gs idx
  | SelFoundation i, ZTableau => foundation_to_tableau gs i idx
  | SelTableau s_col depth, ZFoundation => move_tableau_to_foundation gs s_col
  | SelTableau s_col depth, ZTableau => move_tableau_to_tableau gs s_col idx depth
  | _, _ => Ok (gs, false)
  end.

Definition select_or_move (g : Game) : res Game :=
  let '(zone, idx) := cursor g in
  match sel g with
  | None =>
      (* select origin *)
      match zone with
      | ZStock =>
          let g1 := push_undo g in
          let! (gs, _) := draw_with (state g1) (sd_draw_count (settings g1)) in
          Ok (with_state gs g1)
      | ZWaste =>
          match waste (state g) with
          | [] => Ok g
          | _ => Ok (with_sel (Some SelWaste) g)
          end
      | ZFoundation =>
          let! (_, pile) := index (foundations (state g)) idx in
          match pile with
          | [] => Ok g
          | _ => Ok (with_sel (Some (SelFoundation idx)) g)
          end
      | ZTableau =>
          let! (_, pile) := index (tableaus (state g)) idx in
          if existsb face_up pile then Ok (with_sel (Some (SelTableau idx 1)) g)
          else Ok g
      end
  | Some src =>
      (* place to destination *)
      let g1 := push_undo g in
      let! (gs, moved) := place (state g1) src zone idx in
      let g2 := with_state gs g1 in
      let g3 :=
        if moved then g2
        else
          (* rollback undo push if nothing happened *)
          match pop (undo_stack g2) with
          | Some (rest, snapshot) => with_state snapshot (with_undo_stack rest g2)
          | None => g2
          end in
      Ok (with_sel None g3)
  end.

Definition adjust_depth (delta : Z) (g : Game) : res Game :=
  match sel g with
  | Some (SelTableau col depth) =>
      let! (_, pile) := index (tableaus (state g)) col in
      let maxd := Z.of_nat (length pile - first_faceup pile) in
      Ok (with_sel (Some (SelTableau col (Z.max 1 (Z.min maxd (depth + delta))))) g)
  | _ => Ok g
  end.

(** [auto_move_safe(self.state)], the count dropped. *)
Definition run_auto_move (g : Game) : res Game :=
  let! (gs, _) := auto_move_safe (state g) in
  Ok (with_state gs g).

(** The keys [game_loop] reacts to.  [KeySettings typed] is the key that
    opens the settings screen, the keys [typed] there and the key that
    leaves it; [KeyLeaders] is the key that opens the leaderboard screen
    and the keys up to the one that leaves it; [KeyOther] is any key the
    loop ignores. *)
Inductive Key : Type :=
| KeyQuit | KeyLeft | KeyRight | KeyUp | KeyDown
| KeyEnter | KeyDraw | KeyUndo | KeyHint | KeyAuto
| KeySettings (typed : list SKey) | KeyNew | KeyLeaders | KeyOther.

Definition handle_key (env : Env) (n : nat) (g : Game) (k : Key) : res Game :=
  match k with
  | KeyQuit => Ok g
  | KeyLeft => cycle_cursor 0 (-1) g
  | KeyRight => cycle_cursor 0 1 g
  | KeyUp => adjust_depth 1 g
  | KeyDown => adjust_depth (-1) g
  | KeyEnter =>
      let! g1 := select_or_move g in
      if py_truthy (sd_auto_move (settings g1)) then run_auto_move g1 else Ok g1
  | KeyDraw =>
      let g1 := push_undo g in
      let! (gs, _) := draw_with (state g1) (sd_draw_count (settings g1)) in
      let g2 := with_state gs g1 in
      if py_truthy (sd_auto_move (settings g2)) then run_auto_move g2 else Ok g2
  | KeyUndo => Ok (undo g)
  | KeyHint =>
      let! h := hint (py_truthy (sd_show_hints (settings g))) (state g) (hints g) in
      Ok (with_hints h g)
  | KeyAuto => run_auto_move (push_undo g)
  | KeySettings typed =>
      let! (s, changed) := show_settings (typed ++ [SQuit]) (settings g) in
      match changed with
      | Some true =>
          (* refresh UI settings: a new [UI] object *)
          Ok (with_hints (mkHints "" []) (with_cursor (ZStock, 0) (with_settings s g)))
      | _ => Ok (with_settings s g)
      end
  | KeyNew =>
      let! gs := deal_from (shuffled env n) (clock env n AtDeal) in
      Ok (with_sel None (with_undo_stack [] (with_state gs g)))
  | KeyLeaders => Ok g
  | KeyOther => Ok g
  end.

(** [game_loop] on the keys typed; frame [n] draws the table, checks for a
    win, then takes the next key.  With no key left the loop waits in
    [getch]. *)
Fixpoint game_loop (env : Env) (n : nat) (g : Game) (keys : list Key) : res Game :=
  let! _ := ui_draw env n (state g) in
  let! g1 := frame_check env n g in
  match keys with
  | [] => Ok g1
  | KeyQuit :: _ => Ok g1
  | k :: keys' =>
      let! g2 := handle_key env n g1 k in
      game_loop env (S n) g2 keys'
  end.

(** ** The engine over a store of objects *)

(** Python passes cards, piles and game states by reference and the move
    helpers change them in place.  Here every [Card], every list and every
    [GameState] is an object of a store, named by its position there:
    [piles] are the [List[Card]] objects, [outers] the [List[List[Card]]]
    objects ([gs.foundations] and [gs.tableaus]). *)
Module Store.

Abbreviation ref := nat.

Record StateObj : Type := mkStateObj {
  o_stock : ref;
  o_waste : ref;
  o_foundations : ref;
  o_tableaus : ref;
  o_moves : Z;
  o_start_time : float;
  o_won : bool
}.

Record Heap : Type := mkHeap {
  cards : list Card;
  piles : list (list ref);
  outers : list (list ref);
  states : list StateObj
}.

(** Computations that read and write the store and may raise. *)
Definition M (A : Type) : Type := Heap -> res (A * Heap).

Definition ret {A : Type} (a : A) : M A := fun h => Ok (a, h).

Definition bind {A B : Type} (m : M A) (k : A -> M B) : M B :=
  fun h =>
    match m h with
    | Ok (a, h') => k a h'
    | Raise e => Raise e
    | OutOfFuel => OutOfFuel
    end.

Definition raise {A : Type} (e : exn) : M A := fun _ => Raise e.

Notation "'let*' p ':=' m 'in' k" := (bind m (fun p => k))
  (at level 10, p pattern, m at level 100, k at level 200,
   format "'[v' 'let*'  p  :=  m  'in' '/' k ']'").
Notation "m ';;' k" := (bind m (fun _ => k))
  (at level 100, k at level 200, right associativity).

(** Reads and writes of one object. *)
Definition get_card (c : ref) : M Card :=
  fun h => match cards h !! c with Some cd => Ok (cd, h) | None => Raise Dangling end.

(** [c.face_up = b] *)
Definition set_face_up (c : ref) (b : bool) : M unit :=
  fun h =>
    match cards h !! c with
    | Some cd => Ok (tt, mkHeap (<[c := set_face b cd]> (cards h)) (piles h) (outers h) (states h))
    | None => Raise Dangling
    end.

Definition get_pile (p : ref) : M (list ref) :=
  fun h => match piles h !! p with Some l => Ok (l, h) | None => Raise Dangling end.

Definition set_pile (p : ref) (l : list ref) : M unit :=
  fun h =>
    match piles h !! p with
    | Some _ => Ok (tt, mkHeap (cards h) (<[p := l]> (piles h)) (outers h) (states h))
    | None => Raise Dangling
    end.

Definition get_outer (f : ref) : M (list ref) :=
  fun h => match outers h !! f with Some l => Ok (l, h) | None => Raise Dangling end.

Definition get_state (gs : ref) : M StateObj :=
  fun h => match states h !! gs with Some o => Ok (o, h) | None => Raise Dangling end.

Definition with_o_moves (m : Z) (o : StateObj) : StateObj :=
  mkStateObj (o_stock o) (o_waste o) (o_foundations o) (o_tableaus o) m
    (o_start_time o) (o_won o).

(** [gs.moves += 1] *)
Definition incr_moves (gs : ref) : M unit :=
  fun h =>
    match states h !! gs with
    | Some o =>
        Ok (tt, mkHeap (cards h) (piles h) (outers h)
                  (<[gs := with_o_moves (o_moves o + 1) o]> (states h)))
    | None => Raise Dangling
    end.

(** New objects take the next free position. *)
Definition new_card (cd : Card) : M ref :=
  fun h => Ok (length (cards h), mkHeap (cards h ++ [cd]) (piles h) (outers h) (states h)).
Definition new_pile (l : list ref) : M ref :=
  fun h => Ok (length (piles h), mkHeap (cards h) (piles h ++ [l]) (outers h) (states h)).
Definition new_outer (l : list ref) : M ref :=
  fun h => Ok (length (outers h), mkHeap (cards h) (piles h) (outers h ++ [l]) (states h)).
Definition new_state (o : StateObj) : M ref :=
  fun h => Ok (length (states h), mkHeap (cards h) (piles h) (outers h) (states h ++ [o])).

(** List methods on a pile. *)
Definition pile_top (p : ref) : M (option ref) :=
  let* l := get_pile p in ret (top l).

Definition pile_pop (p : ref) : M ref :=
  let* l := get_pile p in
  match pop l with
  | Some (rest, c) => set_pile p rest ;; ret c
  | None => raise IndexError
  end.

Definition pile_append (p : ref) (c : ref) : M unit :=
  let* l := get_pile p in set_pile p (l ++ [c]).

Definition pile_extend (p : ref) (cs : list ref) : M unit :=
  let* l := get_pile p in set_pile p (l ++ cs).

Definition pile_del (p : ref) (a b : nat) : M unit :=
  let* l := get_pile p in set_pile p (del_slice a b l).

(** [outer[i]] *)
Definition outer_index (f : ref) (i : Z) : M ref :=
  let* l := get_outer f in
  match index l i with
  | Ok (_, p) => ret p
  | Raise e => raise e
  | OutOfFuel => raise Dangling
  end.

(** The card object a reference names, for an optional reference. *)
Definition get_card_opt (c : option ref) : M (option Card) :=
  match c with
  | Some r => let* cd := get_card r in ret (Some cd)
  | None => ret None
  end.

(** [mapM] *)
Fixpoint for_each {A B : Type} (f : A -> M B) (l : list A) : M (list B) :=
  match l with
  | [] => ret []
  | x :: l' => let* y := f x in let* ys := for_each f l' in ret (y :: ys)
  end.

(** [[Card(c.value, c.suit, c.face_up) for c in pile]] *)
Definition copy_pile (p : ref) : M ref :=
  let* l := get_pile p in
  let* l' := for_each (fun c => let* cd := get_card c in
                                new_card (mkCard (value cd) (suit cd) (face_up cd))) l in
  new_pile l'.

(** [[[Card(...) for c in pile] for pile in outer]] *)
Definition copy_outer (f : ref) : M ref :=
  let* l := get_outer f in
  let* l' := for_each copy_pile l in
  new_outer l'.

(** [GameState.clone]; the lists that [GameState()] creates and the
    assignments replace at once are left out. *)
Definition clone (self : ref) : M ref :=
  let* o := get_state self in
  let* s := copy_pile (o_stock o) in
  let* w := copy_pile (o_waste o) in
  let* f := copy_outer (o_foundations o) in
  let* t := copy_outer (o_tableaus o) in
  new_state (mkStateObj s w f t (o_moves o) (o_start_time o) (o_won o)).

Definition flip_if_needed (p : ref) : M unit :=
  let* t := pile_top p in
  match t with
  | Some c =>
      let* cd := get_card c in
      if face_up cd then ret tt else set_face_up c true
  | None => ret tt
  end.

Fixpoint waste_to_foundation_from (gs : ref) (card : ref) (ss : list Z) : M bool :=
  match ss with
  | [] => ret false
  | s :: ss' =>
      let* o := get_state gs in
      let* p := outer_index (o_foundations o) s in
      let* t := pile_top p in
      let* cd := get_card card in
      let* td := get_card_opt t in
      if can_place_on_foundation cd td
         && match td with None => true | Some t' => suit t' =? suit cd end
      then
        let* c := pile_pop (o_waste o) in
        pile_append p c ;;
        incr_moves gs ;;
        ret true
      else waste_to_foundation_from gs card ss'
  end.

Definition move_waste_to_foundation (gs : ref) : M bool :=
  let* o := get_state gs in
  let* t := pile_top (o_waste o) in
  match t with
  | None => ret false
  | Some card => waste_to_foundation_from gs card [0; 1; 2; 3]
  end.

(** [pile[-1] if pile and pile[-1].face_up else None] *)
Definition target_of (p : ref) : M (option Card) :=
  let* t := pile_top p in
  let* td := get_card_opt t in
  match td with
  | Some cd => if face_up cd then ret (Some cd) else ret None
  | None => ret None
  end.

Definition move_waste_to_tableau (gs : ref) (col : Z) : M bool :=
  let* o := get_state gs in
  let* t := pile_top (o_waste o) in
  match t with
  | None => ret false
  | Some card =>
      let* p := outer_index (o_tableaus o) col in
      let* target := target_of p in
      let* cd := get_card card in
      if can_place_on_tableau cd target then
        let* c := pile_pop (o_waste o) in
        pile_append p c ;;
        incr_moves gs ;;
        ret true
      else ret false
  end.

Definition move_tableau_to_foundation (gs : ref) (col : Z) : M bool :=
  let* o := get_state gs in
  let* p := outer_index (o_tableaus o) col in
  let* t := pile_top p in
  match t with
  | None => ret false
  | Some card =>
      let* cd := get_card card in
      if negb (face_up cd) then ret false
      else
        let* fp := outer_index (o_foundations o) (suit cd) in
        let* ft := pile_top fp in
        let* ftd := get_card_opt ft in
        if can_place_on_foundation cd ftd then
          let* c := pile_pop p in
          pile_append fp c ;;
          flip_if_needed p ;;
          incr_moves gs ;;
          ret true
        else ret false
  end.

(** The backward scan over the face-up cards, on the card objects the pile
    holds; [n = idx + 1]. *)
Fixpoint first_faceup_from (l : list ref) (n : nat) : M nat :=
  match n with
  | O => ret O
  | S i =>
      match l !! i with
      | Some c =>
          let* cd := get_card c in
          if face_up cd then first_faceup_from l i else ret n
      | None => ret n
      end
  end.

Definition move_tableau_to_tableau (gs : ref) (src dst depth : Z) : M bool :=
  if src =? dst then ret false
  else
    let* o := get_state gs in
    let* p := outer_index (o_tableaus o) src in
    let* pile := get_pile p in
    match pile with
    | [] => ret false
    | _ =>
      let* ff := first_faceup_from pile (length pile) in
      if (length pile <=? ff)%nat then ret false
      else
        let run := drop ff pile in
        if (depth <? 1) || (Z.of_nat (length run) <? depth) then ret false
        else
          let d := Z.to_nat depth in
          let moving_stack := take d run in
          let* dp := outer_index (o_tableaus o) dst in
          let* target := target_of dp in
          match moving_stack with
          | [] => raise IndexError
          | bottom :: _ =>
            let* bd := get_card bottom in
            if negb (can_place_on_tableau bd target) then ret false
            else
              pile_extend dp moving_stack ;;
              pile_del p ff (ff + d) ;;
              let* p' := outer_index (o_tableaus o) src in
              flip_if_needed p' ;;
              incr_moves gs ;;
              ret true
          end
    end.

Fixpoint draw_loop (k : nat) (stock_ waste_ : ref) : M unit :=
  match k with
  | O => ret tt
  | S k' =>
      let* c := pile_pop stock_ in
      set_face_up c true ;;
      pile_append waste_ c ;;
      draw_loop k' stock_ waste_
  end.

(** [while gs.waste: ...]; the budget [n] is the size of the waste, which
    suffices unless stock and waste are one list. *)
Fixpoint recycle_loop (n : nat) (stock_ waste_ : ref) : M unit :=
  let* w := get_pile waste_ in
  match w with
  | [] => ret tt
  | _ :: _ =>
      match n with
      | O => fun _ => OutOfFuel
      | S n' =>
          let* c := pile_pop waste_ in
          set_face_up c false ;;
          pile_append stock_ c ;;
          recycle_loop n' stock_ waste_
      end
  end.

Definition draw_from_stock (gs : ref) (draw_count : Z) : M bool :=
  let* o := get_state gs in
  let* s := get_pile (o_stock o) in
  match s with
  | _ :: _ =>
      let k := Z.to_nat (Z.min draw_count (Z.of_nat (length s))) in
      draw_loop k (o_stock o) (o_waste o) ;;
      incr_moves gs ;;
      ret true
  | [] =>
      let* w := get_pile (o_waste o) in
      match w with
      | _ :: _ =>
          recycle_loop (length w) (o_stock o) (o_waste o) ;;
          incr_moves gs ;;
          ret true
      | [] => ret false
      end
  end.

(** The [Game] object: the live state and the stack of snapshots. *)
Record GameObj : Type := mkGameObj {
  g_state : ref;
  g_undo_stack : list ref
}.

Definition push_undo (g : GameObj) : M GameObj :=
  let* snapshot := clone (g_state g) in
  let stack := g_undo_stack g ++ [snapshot] in
  ret (mkGameObj (g_state g) (if (200 <? length stack)%nat then drop 1 stack else stack)).

Definition undo (g : GameObj) : GameObj :=
  match pop (g_undo_stack g) with
  | Some (rest, snapshot) => mkGameObj snapshot rest
  | None => g
  end.

(** The five move operations, by name. *)
Inductive Move : Type :=
| Draw (draw_count : Z)
| WasteToFoundation
| WasteToTableau (col : Z)
| TableauToFoundation (col : Z)
| TableauToTableau (src dst depth : Z).

Definition run_move (m : Move) (gs : ref) : M bool :=
  match m with
  | Draw dc => draw_from_stock gs dc
  | WasteToFoundation => move_waste_to_foundation gs
  | WasteToTableau col => move_waste_to_tableau gs col
  | TableauToFoundation col => move_tableau_to_foundation gs col
  | TableauToTableau src dst depth => move_tableau_to_tableau gs src dst depth
  end.

(** *** What a reference stands for *)

Fixpoint all_some {A : Type} (l : list (option A)) : option (list A) :=
  match l with
  | [] => Some []
  | x :: l' =>
      match x, all_some l' with
      | Some a, Some r => Some (a :: r)
      | _, _ => None
      end
  end.

(** The cards of a pile, the piles of an outer list, the value of a state. *)
Definition read_pile (h : Heap) (p : ref) : option (list Card) :=
  match piles h !! p with
  | Some l => all_some ((fun c => cards h !! c) <$> l)
  | None => None
  end.

Definition read_outer (h : Heap) (f : ref) : option (list (list Card)) :=
  match outers h !! f with
  | Some l => all_some (read_pile h <$> l)
  | None => None
  end.

Definition read_state (h : Heap) (gs : ref) : option GameState :=
  match states h !! gs with
  | Some o =>
      match read_pile h (o_stock o), read_pile h (o_waste o),
            read_outer h (o_foundations o), read_outer h (o_tableaus o) with
      | Some s, Some w, Some f, Some t =>
          Some (mkGameState s w f t (o_moves o) (o_start_time o) (o_won o))
      | _, _, _, _ => None
      end
  | None => None
  end.

(** The list objects and the card objects a state is made of. *)
Definition pile_refs (h : Heap) (o : StateObj) : list ref :=
  o_stock o :: o_waste o ::
    default [] (outers h !! o_foundations o) ++ default [] (outers h !! o_tableaus o).

Definition card_refs (h : Heap) (o : StateObj) : list ref :=
  p ← pile_refs h o; default [] (piles h !! p).

Definition outer_refs (o : StateObj) : list ref :=
  [o_foundations o; o_tableaus o].

(** Two states share no object. *)
Definition separate (h : Heap) (gs1 gs2 : ref) : Prop :=
  gs1 <> gs2 /\
  exists o1 o2,
    states h !! gs1 = Some o1 /\ states h !! gs2 = Some o2 /\
    (forall r, r ∈ pile_refs h o1 -> r ∉ pile_refs h o2) /\
    (forall r, r ∈ card_refs h o1 -> r ∉ card_refs h o2) /\
    (forall r, r ∈ outer_refs o1 -> r ∉ outer_refs o2).

(** *** Building a store from a value *)

Definition empty_heap : Heap := mkHeap [] [] [] [].

(** New objects for the cards of a pile, for the piles of an outer list,
    and for a whole state. *)
Definition load_pile (l : list Card) : M ref :=
  let* cs := for_each new_card l in new_pile cs.

Definition load_outer (piles_ : list (list Card)) : M ref :=
  let* ps := for_each load_pile piles_ in new_outer ps.

Definition load (v : GameState) : M ref :=
  let* s := load_pile (stock v) in
  let* w := load_pile (waste v) in
  let* f := load_outer (foundations v) in
  let* t := load_outer (tableaus v) in
  new_state (mkStateObj s w f t (moves v) (start_time v) (won v)).

End Store.

(** The value-level move that goes by the same name. *)
Definition move_on_value (m : Store.Move) (v : GameState) : res (GameState * bool) :=
  match m with
  | Store.Draw dc => draw_from_stock v dc
  | Store.WasteToFoundation => move_waste_to_foundation v
  | Store.WasteToTableau col => move_waste_to_tableau v col
  | Store.TableauToFoundation col => move_tableau_to_foundation v col
  | Store.TableauToTableau src dst depth => move_tableau_to_tableau v src dst depth
  end.

(** A move run on a store built from [v], read back. *)
Definition run_on_loaded (m : Store.Move) (v : GameState) : res (GameState * bool) :=
  match Store.load v Store.empty_heap with
  | Ok (gs, h) =>
      match Store.run_move m gs h with
      | Ok (b, h') =>
          match Store.read_state h' gs with
          | Some v' => Ok (v', b)
          | None => Raise Dangling
          end
      | Raise e => Raise e
      | OutOfFuel => OutOfFuel
      end
  | Raise e => Raise e
  | OutOfFuel => OutOfFuel
  end.

(** * Specification predicates *)

(** What the documented domain of [GameState] fixes: four foundations,
    seven tableau columns, and suits that index the foundations. *)
Definition well_formed (gs : GameState) : Prop :=
  length (foundations gs) = 4%nat /\
  length (tableaus gs) = 7%nat /\
  Forall (Forall (fun c => 0 <= suit c < 4)) (tableaus gs).

(** The call returned; [True] was returned with the counter one higher, or
    [False] with the state as it was. *)
Definition counted_or_noop (gs : GameState) (r : res (GameState * bool)) : Prop :=
  match r with
  | Ok (gs', true) => moves gs' = moves gs + 1
  | Ok (gs', false) => gs' = gs
  | _ => False
  end.


(** A card's identity is its rank and suit; the face flag is state. *)
Definition ident (c : Card) : Z * Z := (value c, suit c).

(** Every card of the table, pile after pile. *)
Definition all_cards (gs : GameState) : list Card :=
  stock gs ++ waste gs ++ concat (foundations gs) ++ concat (tableaus gs).

(** Drawing until the stock is empty: the driver of the draw-then-recycle
    round trip.  Every draw of a positive count takes a card, so [fuel]
    need not exceed the size of the stock. *)
Fixpoint draw_all (fuel : nat) (gs : GameState) (draw_count : Z) : res GameState :=
  match stock gs with
  | [] => Ok gs
  | _ :: _ =>
      match fuel with
      | O => OutOfFuel
      | S fuel' =>
          let! (gs1, _) := draw_from_stock gs draw_count in
          draw_all fuel' gs1 draw_count
      end
  end.

(** The reading of the draw order given in the specification: the card on
    top of the stock ends up on top of the waste. *)
Definition stock_top_becomes_waste_top (gs : GameState) (draw_count : Z) : Prop :=
  forall gs' b c,
    draw_from_stock gs draw_count = Ok (gs', b) ->
    top (stock gs) = Some c ->
    top (waste gs') = Some (set_face true c).

(** The round trip as the specification words it, for any state: draw the
    whole stock, recycle, and find the stock at its former size with the
    same cards, face down. *)
Definition round_trip_restores_stock (gs : GameState) (draw_count : Z) : Prop :=
  forall gs1 gs2 b,
    draw_all (length (stock gs)) gs draw_count = Ok gs1 ->
    draw_from_stock gs1 draw_count = Ok (gs2, b) ->
    length (stock gs2) = length (stock gs) /\
    ident <$> stock gs2 ≡ₚ ident <$> stock gs /\
    Forall (fun c => face_up c = false) (stock gs2).

(** ** Pile invariants *)

(** A run that alternates in colour and goes down by one rank from each
    card to the one lying on it. *)
Fixpoint run_ok (l : list Card) : Prop :=
  match l with
  | [] => True
  | a :: l' =>
      match l' with
      | [] => True
      | b :: _ => color_red a <> color_red b /\ value b = value a - 1
      end /\ run_ok l'
  end.

(** The maximal face-up run at the tail of a column, found by the scan of
    [move_tableau_to_tableau]. *)
Definition face_up_run (pile : list Card) : list Card :=
  drop (first_faceup pile) pile.

Definition tableau_invariant (gs : GameState) : Prop :=
  Forall (fun pile => run_ok (face_up_run pile)) (tableaus gs).

(** Ranks 1..k, bottom to top, of one suit. *)
Definition foundation_pile_ok (pile : list Card) : Prop :=
  (exists u, Forall (fun c => suit c = u) pile) /\
  value <$> pile = seqZ 1 (Z.of_nat (length pile)).

(** No suit lies in two piles. *)
Definition one_pile_per_suit (fs : list (list Card)) : Prop :=
  forall i j p q c d,
    i <> j -> fs !! i = Some p -> fs !! j = Some q ->
    c ∈ p -> d ∈ q -> suit c <> suit d.

Definition foundation_invariant (gs : GameState) : Prop :=
  length (foundations gs) = 4%nat /\
  Forall foundation_pile_ok (foundations gs) /\
  one_pile_per_suit (foundations gs).

(** A column is face-down cards below a face-up run. *)
Definition tableau_shape (pile : list Card) : Prop :=
  exists fd fu,
    pile = fd ++ fu /\
    Forall (fun c => face_up c = false) fd /\
    Forall (fun c => face_up c = true) fu /\
    run_ok fu.

(** The 52 cards of the deck, each once, lie in the piles. *)
Definition full_deck (gs : GameState) : Prop :=
  ident <$> all_cards gs ≡ₚ ident <$> ordered_deck.

(** The invariant carried through the moves. *)
Record table_ok (gs : GameState) : Prop := mk_table_ok {
  ok_deck : full_deck gs;
  ok_waste : Forall (fun c => face_up c = true) (waste gs);
  ok_tableaus : Forall tableau_shape (tableaus gs);
  ok_foundations : Forall foundation_pile_ok (foundations gs);
  ok_four : length (foundations gs) = 4%nat;
  ok_seven : length (tableaus gs) = 7%nat
}.

(** One call of a move operation that returned. *)
Inductive move_step (gs gs' : GameState) : Prop :=
| step_draw (draw_count : Z) (b : bool) :
    draw_from_stock gs draw_count = Ok (gs', b) -> move_step gs gs'
| step_waste_to_foundation (b : bool) :
    move_waste_to_foundation gs = Ok (gs', b) -> move_step gs gs'
| step_waste_to_tableau (col : Z) (b : bool) :
    move_waste_to_tableau gs col = Ok (gs', b) -> move_step gs gs'
| step_tableau_to_foundation (col : Z) (b : bool) :
    move_tableau_to_foundation gs col = Ok (gs', b) -> move_step gs gs'
| step_tableau_to_tableau (src dst depth : Z) (b : bool) :
    move_tableau_to_tableau gs src dst depth = Ok (gs', b) -> move_step gs gs'.

(** States reached from [gs0] by move operations. *)
Inductive reachable_from (gs0 : GameState) : GameState -> Prop :=
| reach_start : reachable_from gs0 gs0
| reach_step gs gs' :
    reachable_from gs0 gs -> move_step gs gs' -> reachable_from gs0 gs'.

(** Occurrences of the identity [x] among the cards of [l]. *)
Definition cnt (x : Z * Z) (l : list Card) : nat :=
  count_occ (fun a b : Z * Z => decide (a = b)) (ident <$> l) x.


(** ** The deal, as a function of the cards dealt *)

(** The cards of one column: [taken] in the order they were popped, the one
    popped at [i = col] turned face up. *)
Definition mark (col : nat) (is_ : list nat) (taken : list Card) : list Card :=
  zip_with (fun (i : nat) c => if (i =? col)%nat then set_face true c else c) is_ taken.

(** The columns after dealing [dealt], the cards in the order they leave the
    deck. *)
Fixpoint fill (cols : list nat) (dealt : list Card) (tabs : list (list Card))
    : list (list Card) :=
  match cols with
  | [] => tabs
  | col :: cols' =>
      fill cols' (drop (S col) dealt)
        (<[col := default [] (tabs !! col) ++ mark col (seq 0 (S col)) (take (S col) dealt)]> tabs)
  end.

(** ** The auto-move sweep *)

(** Cards lying on the foundations. *)
Definition on_foundations (gs : GameState) : nat :=
  sum_list (length <$> foundations gs).

(** What one attempt of the sweep does to the state. *)
Definition attempt_ok (gs : GameState) (r : res (GameState * bool)) : Prop :=
  exists gs' b,
    r = Ok (gs', b) /\ well_formed gs' /\
    (b = false -> gs' = gs) /\
    (b = true ->
       moves gs' = moves gs + 1 /\ S (movable gs') = movable gs /\
       on_foundations gs' = S (on_foundations gs)).

(** The outcome of a sequence of attempts: [n] of them succeeded. *)
Definition sweep_ok (gs gs' : GameState) (n : Z) : Prop :=
  well_formed gs' /\ 0 <= n /\
  moves gs' = moves gs + n /\
  Z.of_nat (movable gs') + n = Z.of_nat (movable gs) /\
  Z.of_nat (on_foundations gs') = Z.of_nat (on_foundations gs) + n /\
  (n = 0 -> gs' = gs).

Definition at_rest (gs : GameState) : Prop :=
  move_waste_to_foundation gs = Ok (gs, false) /\
  Forall (fun col => move_tableau_to_foundation gs col = Ok (gs, false))
    [0; 1; 2; 3; 4; 5; 6].


(** ** Session properties as the specification words them *)

(** Within one game (no new deal among the keys typed) the leaderboard
    gains at most one entry. *)
Definition summary_recorded_once (env : Env) (g0 : Game) (keys : list Key) : Prop :=
  KeyNew ∉ keys ->
  forall g, game_loop env 0 g0 keys = Ok g ->
    (length (best_times (board g)) <= S (length (best_times (board g0))))%nat.

(** ** The store: what a move on a state may touch *)

Section FrameDefs.
Variable gs : Store.ref.
Variable h0 : Store.Heap.
Variable o0 : Store.StateObj.

(** The store [h] differs from [h0] only inside the objects of the state
    [gs], which still is made of the same lists, holding cards it held. *)
Record kept_in (h : Store.Heap) : Prop := mk_kept {
  kept_outers : Store.outers h = Store.outers h0;
  kept_piles : forall r, r ∉ Store.pile_refs h0 o0 -> Store.piles h !! r = Store.piles h0 !! r;
  kept_cards : forall r, r ∉ Store.card_refs h0 o0 -> Store.cards h !! r = Store.cards h0 !! r;
  kept_states : forall r, r <> gs -> Store.states h !! r = Store.states h0 !! r;
  kept_live : exists o,
    Store.states h !! gs = Some o /\
    Store.o_stock o = Store.o_stock o0 /\ Store.o_waste o = Store.o_waste o0 /\
    Store.o_foundations o = Store.o_foundations o0 /\
    Store.o_tableaus o = Store.o_tableaus o0;
  kept_own : forall r l c,
    r ∈ Store.pile_refs h0 o0 -> Store.piles h !! r = Some l -> c ∈ l ->
    c ∈ Store.card_refs h0 o0
}.


(** A computation keeps the frame and returns a value with property [φ]. *)
Definition framed {A : Type} (m : Store.M A) (φ : A -> Prop) : Prop :=
  forall h a h', kept_in h -> m h = Ok (a, h') -> kept_in h' /\ φ a.


(** The list and card objects of the state, and the state object with the
    same lists. *)
Definition owns_pile (p : Store.ref) : Prop := p ∈ Store.pile_refs h0 o0.
Definition owns_card (c : Store.ref) : Prop := c ∈ Store.card_refs h0 o0.
Definition same_lists (o : Store.StateObj) : Prop :=
  Store.o_stock o = Store.o_stock o0 /\ Store.o_waste o = Store.o_waste o0 /\
  Store.o_foundations o = Store.o_foundations o0 /\
  Store.o_tableaus o = Store.o_tableaus o0.


End FrameDefs.

(** [h'] is [h] with objects added. *)
Definition ext (h h' : Store.Heap) : Prop :=
  (exists x, Store.cards h' = Store.cards h ++ x) /\
  (exists x, Store.piles h' = Store.piles h ++ x) /\
  (exists x, Store.outers h' = Store.outers h ++ x) /\
  (exists x, Store.states h' = Store.states h ++ x).


(** A pile of new cards: neither the list nor its cards exist in [h]. *)
Definition fresh_pile (h h' : Store.Heap) (p : Store.ref) : Prop :=
  (length (Store.piles h) <= p)%nat /\
  exists l, Store.piles h' !! p = Some l /\
            Forall (fun c => (length (Store.cards h) <= c)%nat) l.


(** ** Sample tables *)

Module Examples.

Definition c (v s : Z) (up : bool) : Card := mkCard v s up.

Definition empty_state : GameState :=
  mkGameState [] [] (replicate 4 []) (replicate 7 []) 0 (float_of_Z 0) false.

(** The deal of the unshuffled deck. *)
Definition plain_deal : GameState :=
  match deal_from ordered_deck (float_of_Z 0) with
  | Ok gs => gs
  | _ => empty_state
  end.

(** [plain_deal] after one draw of three. *)
Definition plain_deal_drawn : GameState :=
  match draw_from_stock plain_deal 3 with
  | Ok (gs, _) => gs
  | _ => empty_state
  end.

(** The four aces on top of columns 0..3, a card beneath each, and nothing
    else that could go to a foundation. *)
Definition four_aces : GameState :=
  mkGameState [] [] (replicate 4 [])
    [[c 9 0 false; c 1 0 true]; [c 7 1 false; c 1 1 true];
     [c 5 2 false; c 1 2 true]; [c 12 3 false; c 1 3 true];
     []; []; []]
    0 (float_of_Z 0) false.

(** A column with a two-card face-up run on a face-down card, next to a
    column that takes the lower card of the run. *)
Definition buried_run : GameState :=
  mkGameState [] [] (replicate 4 [])
    [[c 9 0 false; c 5 1 true; c 4 0 true]; [c 6 3 true]; []; []; []; []; []]
    0 (float_of_Z 0) false.

(** Every card on its foundation but the king of suit 3, which lies face up
    in column 0. *)
Definition almost_won : GameState :=
  mkGameState [] []
    [(fun v => c v 0 true) <$> seqZ 1 13; (fun v => c v 1 true) <$> seqZ 1 13;
     (fun v => c v 2 true) <$> seqZ 1 13; (fun v => c v 3 true) <$> seqZ 1 12]
    [[c 13 3 true]; []; []; []; []; []; []]
    151 (float_of_Z 0) false.

(** A clock that ticks once a frame for a thousand frames, and the deck
    left as it is by every shuffle. *)
Definition env0 : Env :=
  mkEnv (fun n _ => float_of_Z (Z.of_nat (n `min` 1000))) (fun _ => "2024-05-01"%string)
    None None (fun _ => ordered_deck).

(** [DEFAULT_SETTINGS] *)
Definition default_settings : SettingsDict :=
  mkSettingsDict (JInt 3) (JBool true) (JBool true) (JString "classic") (JBool false)
    (JBool false).

Definition new_game (gs : GameState) : Game :=
  mkGame default_settings gs [] 0 None (ZStock, 0) (mkHints "" []) (mkBoard [] []).

(** A table with an ace of hearts on the waste and a king under it. *)
Definition ace_on_waste : GameState :=
  with_waste [c 13 0 true; c 1 1 true] (with_stock [c 7 2 false] empty_state).

(** Nothing left to draw: the waste is to be recycled. *)
Definition recycle_me : GameState :=
  with_waste [c 5 0 true; c 9 1 true] empty_state.

(** [plain_deal] as objects of a store; the state is object 0. *)
Definition loaded_deal : Store.Heap :=
  match Store.load plain_deal Store.empty_heap with
  | Ok (_, h) => h
  | _ => Store.empty_heap
  end.

(** Moves and tables on which the two versions of the engine are run side
    by side. *)
Definition trials : list (Store.Move * GameState) :=
  [(Store.Draw 3, plain_deal); (Store.Draw 1, plain_deal_drawn);
   (Store.Draw 3, four_aces); (Store.Draw 3, recycle_me);
   (Store.WasteToFoundation, ace_on_waste); (Store.WasteToFoundation, plain_deal_drawn);
   (Store.WasteToFoundation, empty_state);
   (Store.WasteToTableau 0, ace_on_waste); (Store.WasteToTableau 6, plain_deal_drawn);
   (Store.WasteToTableau 7, plain_deal_drawn); (Store.WasteToTableau (-1), plain_deal_drawn);
   (Store.TableauToFoundation 0, four_aces); (Store.TableauToFoundation 3, four_aces);
   (Store.TableauToFoundation 4, four_aces); (Store.TableauToFoundation 0, almost_won);
   (Store.TableauToFoundation 0, buried_run);
   (Store.TableauToTableau 0 1 1, buried_run); (Store.TableauToTableau 0 1 2, buried_run);
   (Store.TableauToTableau 0 1 3, buried_run); (Store.TableauToTableau 0 0 1, buried_run);
   (Store.TableauToTableau 1 0 1, buried_run); (Store.TableauToTableau 0 2 1, almost_won);
   (Store.TableauToTableau 0 (-7) 1, buried_run); (Store.TableauToTableau 0 9 1, buried_run);
   (Store.TableauToTableau 2 3 1, plain_deal)].

End Examples.

(** ** What the key handlers rely on *)

(** Every card that lies on a foundation is face up. *)
Definition foundations_face_up (gs : GameState) : Prop :=
  Forall (Forall (fun c => face_up c = true)) (foundations gs).

(** The invariant of the table as the session keeps it. *)
Definition play_ok (gs : GameState) : Prop :=
  table_ok gs /\ foundations_face_up gs.

(** A selection names an existing pile. *)
Definition sel_ok (s : option Selection) : Prop :=
  match s with
  | Some (SelFoundation i) => 0 <= i < 4
  | Some (SelTableau col depth) => 0 <= col < 7
  | _ => True
  end.

(** A float that is a number: neither an infinity nor nan. *)
Definition finite (x : float) : Prop :=
  match x with
  | SpecFloat.S754_zero _ | SpecFloat.S754_finite _ _ _ => True
  | _ => False
  end.

(** The game between two keys: the live state and every snapshot are in
    order and were started at a time that is a number, at most 200
    snapshots are kept, the cursor is on one of the 13 places, the selection
    names a pile, and the settings are as the settings screen writes
    them. *)
Record session_ok (g : Game) : Prop := mk_session_ok {
  so_state : play_ok (state g);
  so_stack : Forall play_ok (undo_stack g);
  so_bound : (length (undo_stack g) <= 200)%nat;
  so_cursor : cursor g ∈ order;
  so_sel : sel_ok (sel g);
  so_settings : settings_valid (settings g);
  so_time : finite (start_time (state g));
  so_times : Forall (fun gs => finite (start_time gs)) (undo_stack g)
}.

(** A foundation pile was selected while it held a card, is empty now, and
    the cursor is on a column. *)
Definition stale_selection (g : Game) : Prop :=
  exists i, sel g = Some (SelFoundation i) /\ fst (cursor g) = ZTableau /\
            foundations (state g) !! Z.to_nat i = Some [].

(** ** Rankings *)

(** The keys go up along the list. *)
Fixpoint sorted_by {A : Type} (key : A -> Z) (l : list A) : Prop :=
  match l with
  | [] => True
  | x :: l' => Forall (fun y => key x <= key y) l' /\ sorted_by key l'
  end.

(** [new] is the ranking that comes of [old] and [entry]: sorted by [key];
    of the entries of [old] and [entry], the 20 best, or all when there
    are fewer, every entry left out being no better than any entry kept;
    entries of equal key in the order they had in [old], [entry] after
    them; and unchanged when [old] was full and sorted with no entry worse
    than [entry]. *)
Definition ranked (key : Entry -> Z) (old : list Entry) (entry : Entry) (new : list Entry)
    : Prop :=
  sorted_by key new /\
  length new = (20 `min` S (length old))%nat /\
  (exists out, new ++ out ≡ₚ old ++ [entry] /\
               forall x y, x ∈ new -> y ∈ out -> key x <= key y) /\
  (forall k, filter (fun x => key x = k) new `prefix_of`
             filter (fun x => key x = k) (old ++ [entry])) /\
  (length old = 20%nat -> sorted_by key old ->
   Forall (fun x => key x <= key entry) old -> new = old).

(** ** Several moves in a row *)

(** The moves [ms], one after the other, on the state [gs]; what they
    return is dropped, as [auto_move_safe] and the key handlers do. *)
Fixpoint run_moves (ms : list Store.Move) (gs : Store.ref) : Store.M unit :=
  match ms with
  | [] => Store.ret tt
  | m :: ms' => Store.bind (Store.run_move m gs) (fun _ => run_moves ms' gs)
  end.


(** ** What a hint promises *)

(** The call made the move. *)
Definition succeeds (r : res (GameState * bool)) : Prop :=
  exists gs', r = Ok (gs', true).

Definition no_moves_msg : string := "No obvious moves. Try drawing (D).".

(** ** Card labels *)

(** A Python string, as its code points. *)
Definition PyStr : Type := list Z.

Definition codes (s : string) : PyStr :=
  (fun a => Z.of_N (Ascii.N_of_ascii a)) <$> list_ascii_of_string s.

(** '♠', '♥', '♦', '♣' *)
Definition SUITS_UNICODE : list PyStr := [[9824]; [9829]; [9830]; [9827]].
Definition SUITS_ASCII : list PyStr := codes <$> ["S"; "H"; "D"; "C"]%string.
Definition VALUES : list (option PyStr) :=
  None :: (Some ∘ codes <$> ["A"; "2"; "3"; "4"; "5"; "6"; "7"; "8"; "9"; "10";
                             "J"; "Q"; "K"]%string).

Definition suit_char (c : Card) (ascii_only : bool) : res PyStr :=
  let! (_, s) := index (if ascii_only then SUITS_ASCII else SUITS_UNICODE) (suit c) in
  Ok s.

(** [f"{VALUES[self.value]}{self.suit_char(ascii_only)}"]; [None] is
    formatted as its name. *)
Definition label (c : Card) (ascii_only : bool) : res PyStr :=
  let! (_, v) := index VALUES (value c) in
  let! s := suit_char c ascii_only in
  Ok (default (codes "None") v ++ s).

(** [s.rjust(2)] *)
Definition rjust2 (s : PyStr) : PyStr := replicate (2 - length s) 32 ++ s.

(** The text [_draw_card] writes for a card. *)
Definition card_text (c : Card) (ascii_only : bool) : res PyStr :=
  let! s := label c ascii_only in
  let s' := if (length s <=? 2)%nat then take 2 (rjust2 s) else s in
  Ok (codes "[" ++ s' ++ codes "]").

(** * Properties *)

(** ** Small runs of the definitions *)

Example deal_shape :
  (length (stock Examples.plain_deal), map length (tableaus Examples.plain_deal),
   map (map face_up) (take 3 (tableaus Examples.plain_deal)))
  = (24%nat, [1; 2; 3; 4; 5; 6; 7]%nat,
     [[true]; [false; true]; [false; false; true]]).
Proof. reflexivity. Qed.

Example draw3 :
  draw_from_stock
    (with_stock [mkCard 5 0 false; mkCard 6 1 false; mkCard 7 2 false; mkCard 8 3 false]
       Examples.empty_state) 3
  = Ok (with_moves 1
          (with_waste [mkCard 8 3 true; mkCard 7 2 true; mkCard 6 1 true]
             (with_stock [mkCard 5 0 false] Examples.empty_state)), true).
Proof. reflexivity. Qed.
(** ** List primitives *)

Section PyListFacts.
Context {A : Type}.
Implicit Types (l : list A) (x : A).

Lemma pop_snoc l x : pop (l ++ [x]) = Some (l, x).
Proof. induction l as [|y l IH]; simpl; [done|]. by rewrite IH. Qed.

Lemma pop_Some l r x : pop l = Some (r, x) -> l = r ++ [x].
Proof.
  revert r. induction l as [|y l IH]; intros r; simpl; [done|].
  destruct (pop l) as [[r' z]|] eqn:E.
  - intros [= <- <-]. by rewrite (IH r' eq_refl).
  - intros [= <- <-]. destruct l as [|z l]; [done|].
    simpl in E. by destruct (pop l) as [[??]|].
Qed.

Lemma pop_None l : pop l = None -> l = [].
Proof.
  destruct l as [|y l]; [done|]. simpl. by destruct (pop l) as [[??]|].
Qed.

Lemma pop_nil_iff l : pop l = None <-> l = [].
Proof. split; [apply pop_None|]. by intros ->. Qed.

Lemma top_snoc l x : top (l ++ [x]) = Some x.
Proof. unfold top. by rewrite pop_snoc. Qed.

Lemma top_nil : top (@nil A) = None.
Proof. done. Qed.

Lemma top_Some l x : top l = Some x -> exists r, l = r ++ [x].
Proof.
  unfold top. destruct (pop l) as [[r y]|] eqn:E; [|done].
  intros [= <-]. exists r. by apply pop_Some.
Qed.

Lemma top_None l : top l = None -> l = [].
Proof.
  unfold top. destruct (pop l) as [[r y]|] eqn:E; [done|].
  intros _. by apply pop_None.
Qed.

Lemma py_norm_Some len i n : py_norm len i = Some n -> (n < len)%nat.
Proof.
  unfold py_norm. repeat case_match; intros [= <-]; lia.
Qed.

Lemma py_norm_in_range len i :
  0 <= i < Z.of_nat len -> py_norm len i = Some (Z.to_nat i).
Proof.
  intros [H1 H2]. unfold py_norm.
  destruct (Z.leb_spec 0 i); [|lia]. destruct (Z.ltb_spec i (Z.of_nat len)); [done|lia].
Qed.

Lemma index_Ok l i n x :
  index l i = Ok (n, x) -> py_norm (length l) i = Some n /\ l !! n = Some x.
Proof.
  unfold index. destruct (py_norm (length l) i) as [m|]; [|done].
  destruct (l !! m) as [y|] eqn:E; [|done]. by intros [= <- <-].
Qed.

Lemma index_lookup l i n x : index l i = Ok (n, x) -> l !! n = Some x.
Proof. intros H. by apply index_Ok in H as [_ ?]. Qed.

Lemma index_in_range l i :
  0 <= i < Z.of_nat (length l) ->
  exists x, l !! Z.to_nat i = Some x /\ index l i = Ok (Z.to_nat i, x).
Proof.
  intros Hi. unfold index. rewrite py_norm_in_range by done.
  destruct (lookup_lt_is_Some_2 l (Z.to_nat i)) as [x Hx]; [lia|].
  exists x. by rewrite Hx.
Qed.

Lemma index_not_fuel l i : index l i <> OutOfFuel.
Proof. unfold index. by repeat case_match. Qed.
End PyListFacts.

(** Case analysis on the outcome of a call in the goal or a hypothesis. *)
Ltac res_cases :=
  repeat match goal with
  | H : res_bind ?m _ = _ |- _ =>
      let E := fresh "E" in destruct m as [[? ?]| |] eqn:E; simpl in H; try discriminate
  | |- context [res_bind ?m _] =>
      let E := fresh "E" in destruct m as [[? ?]| |] eqn:E; simpl
  end.

(** ** Success is counted once, failure changes nothing *)

Lemma waste_to_foundation_from_noop gs card rest ss :
  Forall (fun s => 0 <= s < Z.of_nat (length (foundations gs))) ss ->
  counted_or_noop gs (waste_to_foundation_from gs card rest ss).
Proof.
  induction 1 as [|s ss Hs _ IH]; simpl; [done|].
  destruct (index_in_range (foundations gs) s Hs) as (pile & _ & ->). simpl.
  case_match; [done|apply IH].
Qed.

Lemma draw_loop_Ok k s w :
  (k <= length s)%nat ->
  draw_loop k s w =
    Ok (take (length s - k) s, w ++ (set_face true <$> reverse (drop (length s - k) s))).
Proof.
  revert s w. induction k as [|k IH]; intros s w Hk; simpl.
  - rewrite Nat.sub_0_r, take_ge, drop_ge by lia. by rewrite app_nil_r.
  - destruct (pop s) as [[r c]|] eqn:E.
    + apply pop_Some in E as ->. rewrite length_app in *. simpl in *.
      rewrite IH by lia. f_equal. f_equal.
      * rewrite take_app_le by lia. f_equal. lia.
      * rewrite <- app_assoc. f_equal.
        replace (length r + 1 - S k)%nat with (length r - k)%nat by lia.
        rewrite drop_app_le by lia. rewrite reverse_app. simpl.
        done.
    + apply pop_None in E as ->. simpl in Hk. lia.
Qed.

Lemma draw_from_stock_noop gs dc : counted_or_noop gs (draw_from_stock gs dc).
Proof.
  unfold draw_from_stock. destruct (stock gs) as [|c s] eqn:Hs.
  - destruct (waste gs) as [|c w]; [done|].
    by destruct (recycle_loop _ _ _).
  - rewrite draw_loop_Ok by lia. done.
Qed.

Lemma move_waste_to_foundation_noop gs :
  length (foundations gs) = 4%nat ->
  counted_or_noop gs (move_waste_to_foundation gs).
Proof.
  intros H4. unfold move_waste_to_foundation.
  destruct (pop (waste gs)) as [[rest card]|]; [|done].
  apply waste_to_foundation_from_noop. rewrite H4.
  repeat constructor; lia.
Qed.

Lemma move_waste_to_tableau_noop gs col :
  0 <= col < Z.of_nat (length (tableaus gs)) ->
  counted_or_noop gs (move_waste_to_tableau gs col).
Proof.
  intros Hc. unfold move_waste_to_tableau.
  destruct (pop (waste gs)) as [[rest card]|]; [|done].
  destruct (index_in_range _ _ Hc) as (pile & _ & ->). simpl.
  by case_match.
Qed.

Lemma move_tableau_to_foundation_noop gs col :
  well_formed gs -> 0 <= col < 7 ->
  counted_or_noop gs (move_tableau_to_foundation gs col).
Proof.
  intros (H4 & H7 & Hs) Hc. unfold move_tableau_to_foundation.
  destruct (index_in_range (tableaus gs) col) as (pile & Hp & ->); [lia|]. simpl.
  destruct (pop pile) as [[rest card]|] eqn:E; [|done].
  destruct (face_up card); [|done]. simpl.
  apply pop_Some in E as ->.
  assert (0 <= suit card < 4) as Hsc.
  { rewrite Forall_forall in Hs. specialize (Hs _ (list_elem_of_lookup_2 _ _ _ Hp)).
    rewrite Forall_app, Forall_singleton in Hs. tauto. }
  destruct (index_in_range (foundations gs) (suit card)) as (fp & _ & ->); [lia|]. simpl.
  by case_match.
Qed.

Lemma move_tableau_to_tableau_noop gs src dst depth :
  0 <= src < Z.of_nat (length (tableaus gs)) ->
  0 <= dst < Z.of_nat (length (tableaus gs)) ->
  counted_or_noop gs (move_tableau_to_tableau gs src dst depth).
Proof.
  intros Hs Hd. unfold move_tableau_to_tableau.
  destruct (src =? dst); [done|].
  destruct (index_in_range _ _ Hs) as (pile & _ & ->). simpl.
  destruct pile as [|c0 pile]; [done|].
  destruct (_ <=? _)%nat eqn:Hff; [done|]. apply Nat.leb_gt in Hff.
  destruct (_ || _) eqn:Hdepth; [done|].
  apply orb_false_iff in Hdepth as [H1 H2].
  apply Z.ltb_ge in H1, H2.
  destruct (index_in_range _ _ Hd) as (dpile & _ & ->). simpl.
  rewrite length_drop in H2.
  destruct (take _ _) as [|b ms] eqn:Ht.
  - apply (f_equal length) in Ht. rewrite length_take, length_drop in Ht.
    simpl in Ht, H2, Hff. lia.
  - by destruct (can_place_on_tableau _ _).
Qed.

(** C5.  On a well-formed state, with column indices in range and any depth
    and draw count, each of the five move operations returns without
    raising; it returns [True] with [moves] incremented by exactly one, or
    [False] with the whole state unchanged. *)
Theorem move_operations_counted_or_noop (gs : GameState) (draw_count col dst depth : Z) :
  well_formed gs -> 0 <= col < 7 -> 0 <= dst < 7 ->
  counted_or_noop gs (draw_from_stock gs draw_count) /\
  counted_or_noop gs (move_waste_to_foundation gs) /\
  counted_or_noop gs (move_waste_to_tableau gs col) /\
  counted_or_noop gs (move_tableau_to_foundation gs col) /\
  counted_or_noop gs (move_tableau_to_tableau gs col dst depth).
Proof.
  intros Hwf Hc Hd. pose proof Hwf as (H4 & H7 & _).
  split; [apply draw_from_stock_noop|].
  split; [by apply move_waste_to_foundation_noop|].
  split; [apply move_waste_to_tableau_noop; lia|].
  split; [by apply move_tableau_to_foundation_noop|].
  apply move_tableau_to_tableau_noop; lia.
Qed.

Lemma move_operations_counted_or_noop_witness :
  counted_or_noop Examples.plain_deal (draw_from_stock Examples.plain_deal 3) /\
  counted_or_noop Examples.plain_deal (move_waste_to_foundation Examples.plain_deal) /\
  counted_or_noop Examples.plain_deal (move_waste_to_tableau Examples.plain_deal 2) /\
  counted_or_noop Examples.plain_deal (move_tableau_to_foundation Examples.plain_deal 2) /\
  counted_or_noop Examples.plain_deal (move_tableau_to_tableau Examples.plain_deal 2 5 1).
Proof.
  apply (move_operations_counted_or_noop Examples.plain_deal 3 2 5 1).
  - split; [reflexivity|]. split; [reflexivity|].
    refine (bool_decide_unpack _ _). vm_compute. exact I.
  - lia.
  - lia.
Defined.

(** ** Drawing and recycling *)

Lemma recycle_loop_all n s w :
  n = length w ->
  recycle_loop n s w = (s ++ (set_face false <$> reverse w), []).
Proof.
  revert s w. induction n as [|n IH]; intros s w Hn.
  - destruct w; [|done]. simpl. by rewrite app_nil_r.
  - destruct (pop w) as [[r c]|] eqn:E.
    + simpl. rewrite E. apply pop_Some in E as ->.
      rewrite length_app in Hn. simpl in Hn.
      rewrite IH by lia. rewrite reverse_app, <- app_assoc. done.
    + apply pop_None in E as ->. done.
Qed.

Lemma draw_from_stock_nonempty gs dc :
  stock gs <> [] ->
  let n := length (stock gs) in
  let k := Z.to_nat (Z.min dc (Z.of_nat n)) in
  draw_from_stock gs dc =
    Ok (with_moves (moves gs + 1)
          (with_waste (waste gs ++ (set_face true <$> reverse (drop (n - k) (stock gs))))
             (with_stock (take (n - k) (stock gs)) gs)), true).
Proof.
  intros Hs n k. unfold draw_from_stock.
  destruct (stock gs) as [|c s] eqn:E; [done|].
  fold n k. rewrite draw_loop_Ok by (subst n k; lia). done.
Qed.

Lemma draw_from_stock_recycle gs dc :
  stock gs = [] -> waste gs <> [] ->
  draw_from_stock gs dc =
    Ok (with_moves (moves gs + 1)
          (with_waste [] (with_stock (set_face false <$> reverse (waste gs)) gs)), true).
Proof.
  intros Hs Hw. unfold draw_from_stock. rewrite Hs.
  destruct (waste gs) as [|c w] eqn:E; [done|].
  rewrite recycle_loop_all by done. done.
Qed.

Lemma draw_from_stock_empty gs dc :
  stock gs = [] -> waste gs = [] -> draw_from_stock gs dc = Ok (gs, false).
Proof. intros Hs Hw. unfold draw_from_stock. by rewrite Hs, Hw. Qed.

Lemma set_face_face b c : face_up (set_face b c) = b.
Proof. done. Qed.

Lemma ident_set_face b c : ident (set_face b c) = ident c.
Proof. done. Qed.

Lemma ident_set_face_fmap b (l : list Card) : ident <$> (set_face b <$> l) = ident <$> l.
Proof. rewrite <- list_fmap_compose. by apply list_fmap_ext. Qed.

(** C4, as amended.  With a non-empty stock and a non-negative draw count,
    [draw_from_stock] takes [k = min(draw_count, |stock|)] cards off the
    stock tail one at a time and appends each, face up, to the waste; it
    returns [True] with [moves] one higher and nothing else changed.  The
    drawn group therefore lies on the waste in reverse stock order: the
    stock's top card is the lowest card of the group, and the deepest card
    drawn is the new waste top.  With stock and waste both empty the call
    returns [False] and the state is unchanged. *)
Theorem draw_from_stock_spec (gs : GameState) (draw_count : Z) :
  (stock gs <> [] -> 0 <= draw_count ->
   let n := length (stock gs) in
   let k := Z.to_nat (Z.min draw_count (Z.of_nat n)) in
   let drawn := set_face true <$> reverse (drop (n - k) (stock gs)) in
   Z.of_nat k = Z.min draw_count (Z.of_nat n) /\
   length drawn = k /\
   Forall (fun c => face_up c = true) drawn /\
   draw_from_stock gs draw_count =
     Ok (with_moves (moves gs + 1)
           (with_waste (waste gs ++ drawn)
              (with_stock (take (n - k) (stock gs)) gs)), true) /\
   (1 <= draw_count ->
    set_face true <$> top (stock gs) = head drawn /\
    set_face true <$> (stock gs !! (n - k)%nat) = top (waste gs ++ drawn))) /\
  (stock gs = [] -> waste gs = [] -> draw_from_stock gs draw_count = Ok (gs, false)).
Proof.
  split; [|apply draw_from_stock_empty].
  intros Hs Hdc n k drawn.
  assert (k <= n)%nat as Hkn by (subst k; lia).
  split; [subst k; lia|].
  split; [subst drawn; rewrite length_fmap, length_reverse, length_drop; lia|].
  split; [subst drawn; apply Forall_fmap, Forall_true; done|].
  split; [by apply draw_from_stock_nonempty|].
  intros Hdc1.
  assert (0 < n)%nat as Hn by (subst n; destruct (stock gs); [done|simpl; lia]).
  assert (1 <= k)%nat as Hk by (subst k; lia).
  destruct (top (stock gs)) as [c|] eqn:Ht; [|by apply top_None in Ht].
  apply top_Some in Ht as [r Hr].
  destruct (lookup_lt_is_Some_2 (stock gs) (n - k)%nat) as [d Hd']; [subst n; lia|].
  rewrite Hd'. simpl. split.
  - subst drawn. rewrite Hr. subst n. rewrite Hr, length_app. simpl.
    rewrite drop_app_le by lia. rewrite reverse_app. done.
  - subst drawn. rewrite (drop_S _ _ _ Hd'), reverse_cons, fmap_app, app_assoc.
    simpl. by rewrite top_snoc.
Qed.

Lemma draw_from_stock_spec_witness :
  let gs := mkGameState [mkCard 5 0 false; mkCard 9 1 false] [] [] [] 0 (float_of_Z 0) false in
  top (waste gs ++ (set_face true <$> reverse (drop 0 (stock gs)))) = Some (mkCard 5 0 true) /\
  draw_from_stock Examples.empty_state 3 = Ok (Examples.empty_state, false).
Proof.
  intros gs. split.
  - destruct (draw_from_stock_spec gs 3) as [H _].
    destruct H as (_ & _ & _ & _ & H); [done|lia|].
    destruct H as [_ H]; [lia|]. simpl in H. symmetry. exact H.
  - destruct (draw_from_stock_spec Examples.empty_state 3) as [_ H].
    apply H; reflexivity.
Defined.

(** C4, as the specification states it, fails for a draw of more than one
    card: with two cards in the stock and draw count 3, the card that was on
    top of the stock ends up below the other one in the waste. *)
Lemma draw_order_counterexample :
  ~ stock_top_becomes_waste_top
      (mkGameState [mkCard 5 0 false; mkCard 9 1 false] [] [] [] 0 (float_of_Z 0) false) 3.
Proof.
  intros H. specialize (H _ _ (mkCard 9 1 false) eq_refl eq_refl). discriminate H.
Qed.

Lemma draw_all_Ok fuel gs dc :
  1 <= dc -> (length (stock gs) <= fuel)%nat ->
  exists gs1,
    draw_all fuel gs dc = Ok gs1 /\
    stock gs1 = [] /\
    waste gs1 = waste gs ++ (set_face true <$> reverse (stock gs)) /\
    foundations gs1 = foundations gs /\
    tableaus gs1 = tableaus gs.
Proof.
  intros Hdc. revert gs. induction fuel as [|fuel IH]; intros gs Hf.
  - destruct (stock gs) eqn:E; [|simpl in Hf; lia].
    exists gs. simpl. rewrite E. simpl. by rewrite app_nil_r.
  - destruct (stock gs) as [|c0 s0] eqn:E.
    { exists gs. simpl. rewrite E. simpl. by rewrite app_nil_r. }
    simpl. rewrite E. rewrite <- E.
    rewrite draw_from_stock_nonempty by (rewrite E; done). simpl.
    set (n := length (stock gs)) in *.
    set (k := Z.to_nat (Z.min dc (Z.of_nat n))).
    assert (0 < n)%nat by (subst n; rewrite E; simpl; lia).
    assert (1 <= k <= n)%nat by (clearbody n; subst k; lia).
    match goal with |- context [draw_all fuel ?g dc] =>
      destruct (IH g) as (gs1 & Hr & H1 & H2 & H3 & H4)
    end.
    { simpl. rewrite length_take. fold n. 
      assert (n <= S fuel)%nat by (subst n; by rewrite E). lia. }
    rewrite Hr. exists gs1. split; [done|]. split; [done|]. simpl in *.
    split; [|done]. rewrite H2, <- app_assoc. f_equal.
    rewrite <- fmap_app, <- reverse_app, take_drop. done.
Qed.

(** C9, as amended.  With an empty stock and a non-empty waste,
    [draw_from_stock] recycles: the stock becomes the waste reversed with
    every card face down, the waste becomes empty, [moves] goes up by one
    and nothing else changes.  Consequently, starting from a state whose
    waste is empty, drawing the whole stock and then recycling gives back
    the former stock, card for card, with every card face down: the same
    size and the same cards. *)
Theorem recycle_and_round_trip (gs : GameState) (draw_count : Z) :
  (stock gs = [] -> waste gs <> [] ->
   draw_from_stock gs draw_count =
     Ok (with_moves (moves gs + 1)
           (with_waste [] (with_stock (set_face false <$> reverse (waste gs)) gs)), true)) /\
  (1 <= draw_count -> stock gs <> [] -> waste gs = [] ->
   exists gs1 gs2,
     draw_all (length (stock gs)) gs draw_count = Ok gs1 /\
     stock gs1 = [] /\
     draw_from_stock gs1 draw_count = Ok (gs2, true) /\
     waste gs2 = [] /\
     moves gs2 = moves gs1 + 1 /\
     stock gs2 = set_face false <$> stock gs /\
     length (stock gs2) = length (stock gs) /\
     ident <$> stock gs2 ≡ₚ ident <$> stock gs /\
     Forall (fun c => face_up c = false) (stock gs2)).
Proof.
  split; [apply draw_from_stock_recycle|].
  intros Hdc Hs Hw.
  destruct (draw_all_Ok (length (stock gs)) gs draw_count) as (gs1 & H1 & H2 & H3 & _);
    [done|done|].
  rewrite Hw in H3. simpl in H3.
  assert (waste gs1 <> []) as Hw1.
  { rewrite H3. destruct (stock gs) as [|c s] using rev_ind; [done|].
    rewrite reverse_app. done. }
  eexists gs1, _. split; [done|]. split; [done|].
  split; [by apply draw_from_stock_recycle|]. simpl.
  split; [done|]. split; [done|].
  assert (set_face false <$> reverse (waste gs1) = set_face false <$> stock gs) as ->.
  { rewrite H3, <- fmap_reverse, reverse_involutive, <- list_fmap_compose.
    by apply list_fmap_ext. }
  split; [done|]. split; [by rewrite length_fmap|].
  split; [by rewrite ident_set_face_fmap|].
  apply Forall_fmap, Forall_true. done.
Qed.

Lemma recycle_and_round_trip_witness :
  let gs := mkGameState [mkCard 5 0 false; mkCard 9 1 false; mkCard 2 3 false;
                         mkCard 13 2 false] [] [] [] 0 (float_of_Z 0) false in
  (exists gs1 gs2,
     draw_all 4 gs 3 = Ok gs1 /\
     draw_from_stock gs1 3 = Ok (gs2, true) /\
     stock gs2 = stock gs) /\
  draw_from_stock Examples.recycle_me 3 =
    Ok (with_moves 1
          (with_stock [mkCard 9 1 false; mkCard 5 0 false] Examples.empty_state), true).
Proof.
  intros gs. split.
  - destruct (recycle_and_round_trip gs 3) as [_ H].
    destruct H as (gs1 & gs2 & H1 & _ & H2 & _ & _ & H3 & _); [lia|done|done|].
    exists gs1, gs2. split; [exact H1|]. split; [exact H2|]. exact H3.
  - destruct (recycle_and_round_trip Examples.recycle_me 3) as [H _].
    rewrite H; [reflexivity|reflexivity|discriminate].
Defined.

(** C9, as the specification states it, fails when the waste already holds
    a card: after drawing the one-card stock and recycling, the stock holds
    two cards. *)
Lemma round_trip_counterexample :
  ~ round_trip_restores_stock
      (mkGameState [mkCard 5 0 false] [mkCard 9 1 true] [] [] 0 (float_of_Z 0) false) 1.
Proof.
  intros H. destruct (H _ _ _ eq_refl eq_refl) as [Hlen _]. discriminate Hlen.
Qed.

(** ** What each successful move does *)

Lemma alter_as_insert {A} (f : A -> A) (l : list A) n x :
  l !! n = Some x -> alter f n l = <[n := f x]> l.
Proof.
  revert n. induction l as [|y l IH]; intros [|n] H; simplify_eq/=; [done|].
  f_equal. by apply IH.
Qed.

Lemma first_faceup_from_le pile n : (first_faceup_from pile n <= n)%nat.
Proof.
  induction n as [|n IH]; simpl; [done|].
  destruct (pile !! n) as [c|]; [|done]. destruct (face_up c); lia.
Qed.

Lemma first_faceup_le pile : (first_faceup pile <= length pile)%nat.
Proof. apply first_faceup_from_le. Qed.

Lemma move_waste_to_foundation_inv gs gs' b :
  move_waste_to_foundation gs = Ok (gs', b) ->
  (b = false /\ gs' = gs) \/
  (b = true /\ exists rest card n pile,
     waste gs = rest ++ [card] /\
     foundations gs !! n = Some pile /\
     can_place_on_foundation card (top pile) = true /\
     gs' = with_moves (moves gs + 1)
             (with_waste rest
                (with_foundations (<[n := pile ++ [card]]> (foundations gs)) gs))).
Proof.
  unfold move_waste_to_foundation.
  destruct (pop (waste gs)) as [[rest card]|] eqn:E; [|intros [= <- <-]; by left].
  apply pop_Some in E. generalize [0; 1; 2; 3]. intros ss.
  induction ss as [|s ss IH]; simpl; [intros [= <- <-]; by left|].
  destruct (index (foundations gs) s) as [[n pile]| |] eqn:Ei; simpl; [|done..].
  apply index_lookup in Ei.
  destruct (can_place_on_foundation card (top pile)) eqn:Hc; simpl; [|done].
  case_match; [|done]. intros [= <- <-]. right. split; [done|].
  by exists rest, card, n, pile.
Qed.

Lemma move_waste_to_tableau_inv gs col gs' b :
  move_waste_to_tableau gs col = Ok (gs', b) ->
  (b = false /\ gs' = gs) \/
  (b = true /\ exists rest card n pile,
     waste gs = rest ++ [card] /\
     tableaus gs !! n = Some pile /\
     can_place_on_tableau card (target_of pile) = true /\
     gs' = with_moves (moves gs + 1)
             (with_waste rest
                (with_tableaus (<[n := pile ++ [card]]> (tableaus gs)) gs))).
Proof.
  unfold move_waste_to_tableau.
  destruct (pop (waste gs)) as [[rest card]|] eqn:E; [|intros [= <- <-]; by left].
  apply pop_Some in E.
  destruct (index (tableaus gs) col) as [[n pile]| |] eqn:Ei; simpl; [|done..].
  apply index_lookup in Ei.
  destruct (can_place_on_tableau card (target_of pile)) eqn:Hc;
    intros [= <- <-]; [right|by left].
  split; [done|]. by exists rest, card, n, pile.
Qed.

Lemma move_tableau_to_foundation_inv gs col gs' b :
  move_tableau_to_foundation gs col = Ok (gs', b) ->
  (b = false /\ gs' = gs) \/
  (b = true /\ exists n rest card s fpile,
     tableaus gs !! n = Some (rest ++ [card]) /\
     face_up card = true /\
     py_norm (length (foundations gs)) (suit card) = Some s /\
     foundations gs !! s = Some fpile /\
     can_place_on_foundation card (top fpile) = true /\
     gs' = with_moves (moves gs + 1)
             (with_tableaus (<[n := flip_if_needed rest]> (tableaus gs))
                (with_foundations (<[s := fpile ++ [card]]> (foundations gs)) gs))).
Proof.
  unfold move_tableau_to_foundation.
  destruct (index (tableaus gs) col) as [[n pile]| |] eqn:Ei; simpl; [|done..].
  apply index_lookup in Ei.
  destruct (pop pile) as [[rest card]|] eqn:E; [|intros [= <- <-]; by left].
  apply pop_Some in E as ->.
  destruct (face_up card) eqn:Hf; simpl; [|intros [= <- <-]; by left].
  destruct (index (foundations gs) (suit card)) as [[s fpile]| |] eqn:Es; simpl; [|done..].
  apply index_Ok in Es as [Hn Es].
  destruct (can_place_on_foundation card (top fpile)) eqn:Hc;
    intros [= <- <-]; [right|by left].
  split; [done|]. by exists n, rest, card, s, fpile.
Qed.

Lemma move_tableau_to_tableau_inv gs src dst depth gs' b :
  move_tableau_to_tableau gs src dst depth = Ok (gs', b) ->
  (b = false /\ gs' = gs) \/
  (b = true /\ exists ns nd pile dpile bottom others,
     src <> dst /\
     py_norm (length (tableaus gs)) src = Some ns /\
     py_norm (length (tableaus gs)) dst = Some nd /\
     tableaus gs !! ns = Some pile /\
     tableaus gs !! nd = Some dpile /\
     let ff := first_faceup pile in
     let d := Z.to_nat depth in
     (ff < length pile)%nat /\ (1 <= d)%nat /\ (ff + d <= length pile)%nat /\
     take d (drop ff pile) = bottom :: others /\
     can_place_on_tableau bottom (target_of dpile) = true /\
     gs' = with_moves (moves gs + 1)
             (with_tableaus
                (alter flip_if_needed ns
                   (alter (del_slice ff (ff + d)) ns
                      (<[nd := dpile ++ bottom :: others]> (tableaus gs)))) gs)).
Proof.
  unfold move_tableau_to_tableau.
  destruct (Z.eqb_spec src dst) as [|Hne]; [intros [= <- <-]; by left|].
  destruct (index (tableaus gs) src) as [[ns pile]| |] eqn:Es; simpl; [|done..].
  apply index_Ok in Es as [Hns Es].
  destruct pile as [|c0 pile0] eqn:Hpile; [intros [= <- <-]; by left|].
  rewrite <- Hpile in *. clear Hpile.
  destruct (_ <=? _)%nat eqn:Hff; [intros [= <- <-]; by left|]. apply Nat.leb_gt in Hff.
  destruct (_ || _) eqn:Hdepth; [intros [= <- <-]; by left|].
  apply orb_false_iff in Hdepth as [H1 H2].
  apply Z.ltb_ge in H1, H2. rewrite length_drop in H2.
  destruct (index (tableaus gs) dst) as [[nd dpile]| |] eqn:Ed; simpl; [|done..].
  apply index_Ok in Ed as [Hnd Ed].
  destruct (take _ _) as [|bottom others] eqn:Ht; [done|].
  destruct (can_place_on_tableau bottom (target_of dpile)) eqn:Hc;
    simpl; intros [= <- <-]; [right|by left].
  split; [done|]. exists ns, nd, pile, dpile, bottom, others.
  repeat split; try done; lia.
Qed.

(** ** Runs and column shape *)

Lemma can_place_on_tableau_Some c t :
  can_place_on_tableau c (Some t) = true ->
  color_red t <> color_red c /\ value c = value t - 1.
Proof.
  unfold can_place_on_tableau.
  destruct (color_red c), (color_red t); simpl; try done; intros H; split; try done; lia.
Qed.

Lemma run_ok_app_inv a b : run_ok (a ++ b) -> run_ok a /\ run_ok b.
Proof.
  induction a as [|x a IH]; simpl; [done|].
  intros [H1 H2]. destruct (IH H2) as [Ha Hb]. split; [|done].
  split; [|done]. destruct a; [done|]. done.
Qed.

Lemma run_ok_app a b :
  run_ok a -> run_ok b ->
  (forall t h, top a = Some t -> head b = Some h ->
     color_red t <> color_red h /\ value h = value t - 1) ->
  run_ok (a ++ b).
Proof.
  intros Ha Hb Hl. induction a as [|x a IH]; simpl; [done|].
  destruct Ha as [H1 H2]. split.
  - destruct a as [|y a]; simpl; [|done].
    destruct b as [|h b]; [done|]. by apply Hl.
  - destruct a as [|y a]; [done|]. apply IH; [done|].
    intros t h Ht Hh. apply Hl; [|done].
    change (x :: y :: a) with ([x] ++ (y :: a)).
    apply top_Some in Ht as [r ->]. by rewrite app_assoc, top_snoc.
Qed.

Lemma run_ok_values l i k a b :
  run_ok l -> l !! i = Some a -> l !! (i + k)%nat = Some b ->
  value b = value a - Z.of_nat k.
Proof.
  revert i a. induction k as [|k IH]; intros i a Hr Ha Hb.
  - rewrite Nat.add_0_r in Hb. simplify_eq. lia.
  - destruct (l !! S i) as [c|] eqn:Hc.
    2:{ apply lookup_ge_None in Hc. apply lookup_lt_Some in Hb. lia. }
    replace (i + S k)%nat with (S i + k)%nat in Hb by lia.
    rewrite (IH (S i) c Hr Hc Hb).
    enough (value c = value a - 1) by lia.
    clear -Hr Ha Hc. revert i Ha Hc. induction l as [|x l IHl]; intros i Ha Hc; [done|].
    destruct i as [|i]; simpl in *.
    + simplify_eq. destruct l as [|y l]; simplify_eq/=. tauto.
    + destruct Hr as [_ Hr]. by apply (IHl Hr i).
Qed.

Lemma first_faceup_from_run fd fu k :
  Forall (fun c => face_up c = true) fu -> (k <= length fu)%nat ->
  first_faceup_from (fd ++ fu) (length fd + k) = first_faceup_from (fd ++ fu) (length fd).
Proof.
  intros Hfu. induction k as [|k IH]; intros Hk; [by rewrite Nat.add_0_r|].
  rewrite Nat.add_succ_r. simpl.
  destruct (lookup_lt_is_Some_2 fu k) as [c Hc]; [lia|].
  rewrite lookup_app_r, Nat.add_comm, Nat.add_sub by lia. rewrite Hc.
  rewrite Forall_forall in Hfu. rewrite (Hfu c) by (by eapply list_elem_of_lookup_2).
  rewrite Nat.add_comm. apply IH. lia.
Qed.

Lemma first_faceup_from_down fd rest :
  Forall (fun c => face_up c = false) fd ->
  first_faceup_from (fd ++ rest) (length fd) = length fd.
Proof.
  intros Hfd. destruct fd as [|x fd _] using rev_ind; [done|].
  rewrite length_app. simpl. rewrite Nat.add_1_r. simpl.
  rewrite <- app_assoc. rewrite lookup_app_r, Nat.sub_diag by done. simpl.
  rewrite Forall_app, Forall_singleton in Hfd. destruct Hfd as [_ ->]. done.
Qed.

Lemma first_faceup_shape fd fu :
  Forall (fun c => face_up c = false) fd ->
  Forall (fun c => face_up c = true) fu ->
  first_faceup (fd ++ fu) = length fd.
Proof.
  intros Hfd Hfu. unfold first_faceup. rewrite length_app.
  rewrite first_faceup_from_run by done. by apply first_faceup_from_down.
Qed.

Lemma face_up_run_shape fd fu :
  Forall (fun c => face_up c = false) fd ->
  Forall (fun c => face_up c = true) fu ->
  face_up_run (fd ++ fu) = fu.
Proof.
  intros Hfd Hfu. unfold face_up_run. rewrite first_faceup_shape by done.
  by rewrite drop_app_length.
Qed.

Lemma tableau_shape_run pile : tableau_shape pile -> run_ok (face_up_run pile).
Proof. intros (fd & fu & -> & Hfd & Hfu & Hr). by rewrite face_up_run_shape. Qed.

Lemma target_of_snoc l c :
  target_of (l ++ [c]) = if face_up c then Some c else None.
Proof. unfold target_of. by rewrite top_snoc. Qed.

Lemma target_of_Some l t :
  target_of l = Some t -> top l = Some t /\ face_up t = true.
Proof.
  unfold target_of. destruct (top l) as [x|]; [|done].
  destruct (face_up x) eqn:E; [|done]. by intros [= <-].
Qed.

Lemma tableau_shape_nil : tableau_shape [].
Proof. exists [], []. by repeat split. Qed.

(** Cards placed on a column by a legal move keep its shape. *)
Lemma tableau_shape_place pile m h :
  tableau_shape pile ->
  Forall (fun c => face_up c = true) m -> run_ok m -> head m = Some h ->
  can_place_on_tableau h (target_of pile) = true ->
  tableau_shape (pile ++ m).
Proof.
  intros (fd & fu & -> & Hfd & Hfu & Hr) Hm Hrm Hh Hc.
  destruct fu as [|x fu _] using rev_ind.
  - exists fd, m. rewrite app_nil_r. by repeat split.
  - exists fd, ((fu ++ [x]) ++ m). rewrite <- app_assoc. split; [done|].
    split; [done|]. split; [by apply Forall_app|].
    apply run_ok_app; [done..|]. intros t h' Ht Hh'.
    rewrite top_snoc in Ht. simplify_eq.
    rewrite app_assoc, target_of_snoc in Hc.
    rewrite Forall_app, Forall_singleton in Hfu. destruct Hfu as [_ Hx].
    rewrite Hx in Hc. by apply can_place_on_tableau_Some.
Qed.

Lemma tableau_shape_flip pile : tableau_shape pile -> tableau_shape (flip_if_needed pile).
Proof.
  intros (fd & fu & -> & Hfd & Hfu & Hr). unfold flip_if_needed.
  destruct fu as [|x fu _] using rev_ind.
  - rewrite app_nil_r. destruct fd as [|y fd _] using rev_ind; [apply tableau_shape_nil|].
    rewrite pop_snoc. rewrite Forall_app, Forall_singleton in Hfd.
    destruct Hfd as [Hfd ->]. exists fd, [set_face true y]. by repeat split; try constructor.
  - rewrite app_assoc, pop_snoc. rewrite <- app_assoc.
    rewrite Forall_app, Forall_singleton in Hfu. destruct (Hfu) as [_ ->].
    exists fd, (fu ++ [x]). by rewrite Forall_app, Forall_singleton.
Qed.

(** Taking cards off the top or the bottom of the face-up run leaves a
    column of the same shape. *)
Lemma tableau_shape_sub fd fu' :
  Forall (fun c => face_up c = false) fd ->
  Forall (fun c => face_up c = true) fu' -> run_ok fu' ->
  tableau_shape (fd ++ fu').
Proof. intros. by exists fd, fu'. Qed.

Lemma ident_flip_if_needed pile : ident <$> flip_if_needed pile = ident <$> pile.
Proof.
  unfold flip_if_needed. destruct (pop pile) as [[r c]|] eqn:E; [|done].
  apply pop_Some in E as ->. destruct (face_up c); [done|].
  by rewrite !fmap_app.
Qed.

(** ** Counting cards *)

Lemma cnt_app x l1 l2 : cnt x (l1 ++ l2) = (cnt x l1 + cnt x l2)%nat.
Proof. unfold cnt. by rewrite fmap_app, count_occ_app. Qed.

Lemma cnt_nil x : cnt x [] = 0%nat.
Proof. done. Qed.

Lemma cnt_perm x l1 l2 : ident <$> l1 ≡ₚ ident <$> l2 -> cnt x l1 = cnt x l2.
Proof. intros H. unfold cnt. by apply Permutation_count_occ. Qed.

Lemma cnt_all l1 l2 : (forall x, cnt x l1 = cnt x l2) -> ident <$> l1 ≡ₚ ident <$> l2.
Proof.
  intros H. by apply (Permutation_count_occ (fun a b : Z * Z => decide (a = b))).
Qed.

Lemma cnt_reverse x l : cnt x (reverse l) = cnt x l.
Proof. apply cnt_perm. by rewrite reverse_Permutation. Qed.

Lemma cnt_set_face x b l : cnt x (set_face b <$> l) = cnt x l.
Proof. unfold cnt. by rewrite ident_set_face_fmap. Qed.

Lemma cnt_take_drop x n l : (cnt x (take n l) + cnt x (drop n l))%nat = cnt x l.
Proof. by rewrite <- cnt_app, take_drop. Qed.

Lemma cnt_flip x pile : cnt x (flip_if_needed pile) = cnt x pile.
Proof. unfold cnt. by rewrite ident_flip_if_needed. Qed.

Lemma cnt_concat_insert x (L : list (list Card)) n p q :
  L !! n = Some p ->
  (cnt x (concat (<[n := q]> L)) + cnt x p)%nat = (cnt x q + cnt x (concat L))%nat.
Proof.
  revert n. induction L as [|y L IH]; intros [|n] H; simplify_eq/=.
  - rewrite !cnt_app. lia.
  - rewrite !cnt_app. specialize (IH n H). lia.
Qed.

Lemma cnt_all_cards x gs :
  cnt x (all_cards gs) =
  (cnt x (stock gs) + cnt x (waste gs) + cnt x (concat (foundations gs))
   + cnt x (concat (tableaus gs)))%nat.
Proof. unfold all_cards. rewrite !cnt_app. lia. Qed.

(** ** No move creates or loses a card *)

Lemma draw_from_stock_cards gs dc gs' b :
  draw_from_stock gs dc = Ok (gs', b) ->
  ident <$> all_cards gs' ≡ₚ ident <$> all_cards gs.
Proof.
  intros H. apply cnt_all. intros x. rewrite !cnt_all_cards.
  destruct (decide (stock gs = [])) as [Es|Es].
  - destruct (decide (waste gs = [])) as [Ew|Ew].
    + rewrite draw_from_stock_empty in H by done. by simplify_eq.
    + rewrite draw_from_stock_recycle in H by done. simplify_eq/=.
      rewrite cnt_set_face, cnt_reverse, Es. rewrite !cnt_nil. lia.
  - rewrite draw_from_stock_nonempty in H by done. simplify_eq/=.
    rewrite cnt_app, cnt_set_face, cnt_reverse.
    pose proof (cnt_take_drop x
      (length (stock gs) - Z.to_nat (Z.min dc (Z.of_nat (length (stock gs))))) (stock gs)).
    lia.
Qed.

Lemma move_waste_to_foundation_cards gs gs' b :
  move_waste_to_foundation gs = Ok (gs', b) ->
  ident <$> all_cards gs' ≡ₚ ident <$> all_cards gs.
Proof.
  intros [[_ ->]|[_ (rest & card & n & pile & Hw & Hn & _ & ->)]]%move_waste_to_foundation_inv;
    [done|].
  apply cnt_all. intros x. rewrite !cnt_all_cards. simpl. rewrite Hw.
  pose proof (cnt_concat_insert x _ _ _ (pile ++ [card]) Hn).
  rewrite !cnt_app in *. lia.
Qed.

Lemma move_waste_to_tableau_cards gs col gs' b :
  move_waste_to_tableau gs col = Ok (gs', b) ->
  ident <$> all_cards gs' ≡ₚ ident <$> all_cards gs.
Proof.
  intros [[_ ->]|[_ (rest & card & n & pile & Hw & Hn & _ & ->)]]%move_waste_to_tableau_inv;
    [done|].
  apply cnt_all. intros x. rewrite !cnt_all_cards. simpl. rewrite Hw.
  pose proof (cnt_concat_insert x _ _ _ (pile ++ [card]) Hn).
  rewrite !cnt_app in *. lia.
Qed.

Lemma move_tableau_to_foundation_cards gs col gs' b :
  move_tableau_to_foundation gs col = Ok (gs', b) ->
  ident <$> all_cards gs' ≡ₚ ident <$> all_cards gs.
Proof.
  intros [[_ ->]|[_ (n & rest & card & s & fpile & Hn & _ & _ & Hs & _ & ->)]]
    %move_tableau_to_foundation_inv; [done|].
  apply cnt_all. intros x. rewrite !cnt_all_cards. simpl.
  pose proof (cnt_concat_insert x _ _ _ (fpile ++ [card]) Hs).
  pose proof (cnt_concat_insert x _ _ _ (flip_if_needed rest) Hn).
  rewrite cnt_flip in *. rewrite !cnt_app in *. lia.
Qed.

Lemma move_tableau_to_tableau_cards gs src dst depth gs' b :
  move_tableau_to_tableau gs src dst depth = Ok (gs', b) ->
  ident <$> all_cards gs' ≡ₚ ident <$> all_cards gs.
Proof.
  intros [[_ ->]|[_ H]]%move_tableau_to_tableau_inv; [done|].
  destruct H as (ns & nd & pile & dpile & bottom & others & _ & _ & _ & Hs & Hd & H).
  simpl in H. destruct H as (Hff & Hd1 & Hd2 & Ht & _ & ->).
  set (ff := first_faceup pile) in *. set (d := Z.to_nat depth) in *.
  set (T1 := <[nd := dpile ++ bottom :: others]> (tableaus gs)).
  assert (exists p1, T1 !! ns = Some p1 /\
            forall x, cnt x (del_slice ff (ff + d) p1) =
                      (cnt x (take ff pile) + cnt x (drop (ff + d) pile)
                       + (cnt x p1 - cnt x pile))%nat /\ (cnt x pile <= cnt x p1)%nat)
    as (p1 & Hp1 & Hcnt).
  { destruct (decide (ns = nd)) as [->|Hne].
    - exists (dpile ++ bottom :: others). split.
      + subst T1. apply list_lookup_insert_eq. by eapply lookup_lt_Some.
      + intros x. simplify_eq. unfold del_slice.
        rewrite take_app_le, drop_app_le by lia. rewrite !cnt_app. split; lia.
    - exists pile. split; [subst T1; by rewrite list_lookup_insert_ne|].
      intros x. unfold del_slice. rewrite cnt_app. split; lia. }
  apply cnt_all. intros x. rewrite !cnt_all_cards. simpl.
  rewrite (alter_as_insert _ T1 ns p1 Hp1).
  erewrite alter_as_insert; [|apply list_lookup_insert_eq; by eapply lookup_lt_Some].
  rewrite list_insert_insert_eq.
  pose proof (cnt_concat_insert x T1 ns p1 (flip_if_needed (del_slice ff (ff + d) p1)) Hp1).
  pose proof (cnt_concat_insert x _ nd dpile (dpile ++ bottom :: others) Hd).
  fold T1 in H0. rewrite cnt_flip in H. destruct (Hcnt x) as [Hc1 Hc2]. rewrite Hc1 in H.
  pose proof (cnt_take_drop x ff pile).
  pose proof (cnt_take_drop x d (drop ff pile)).
  rewrite drop_drop in H2. rewrite Ht in H2.
  rewrite !cnt_app in *. lia.
Qed.

Lemma move_step_cards gs gs' :
  move_step gs gs' -> ident <$> all_cards gs' ≡ₚ ident <$> all_cards gs.
Proof.
  intros [dc b H|b H|col b H|col b H|src dst depth b H].
  - by eapply draw_from_stock_cards.
  - by eapply move_waste_to_foundation_cards.
  - by eapply move_waste_to_tableau_cards.
  - by eapply move_tableau_to_foundation_cards.
  - by eapply move_tableau_to_tableau_cards.
Qed.

(** ** Foundation piles *)

Lemma foundation_pile_ok_nil : foundation_pile_ok [].
Proof. split; [by exists 0|done]. Qed.

Lemma foundation_pile_ok_snoc pile card :
  foundation_pile_ok pile ->
  can_place_on_foundation card (top pile) = true ->
  foundation_pile_ok (pile ++ [card]).
Proof.
  intros [[u Hu] Hv] Hc. destruct pile as [|t r _] using rev_ind.
  - simpl in Hc. apply Z.eqb_eq in Hc. split.
    + exists (suit card). by constructor.
    + simpl. by rewrite Hc.
  - rewrite top_snoc in Hc. simpl in Hc.
    apply andb_true_iff in Hc as [Hs Hr]. apply Z.eqb_eq in Hs, Hr.
    rewrite Forall_app, Forall_singleton in Hu. destruct Hu as [Hu Ht].
    split.
    + exists u. rewrite !Forall_app, !Forall_singleton. repeat split; [done..|congruence].
    + rewrite fmap_app, Hv. rewrite (length_app (r ++ [t])). simpl.
      rewrite Nat.add_1_r, seqZ_S. f_equal. simpl. f_equal. rewrite Hr.
      rewrite fmap_app, length_app in Hv. simpl in Hv.
      rewrite Nat.add_1_r, seqZ_S in Hv. apply app_inj_tail in Hv as [_ ->].
      rewrite length_app. simpl. lia.
Qed.

Lemma foundation_pile_first pile c :
  foundation_pile_ok pile -> c ∈ pile -> (1, suit c) ∈ ident <$> pile.
Proof.
  intros [[u Hu] Hv] Hc. destruct pile as [|a pile]; [by apply elem_of_nil in Hc|].
  rewrite Forall_forall in Hu. rewrite (Hu c Hc), <- (Hu a) by left.
  simpl. replace (1, suit a) with (ident a); [left|].
  simpl in Hv. rewrite Nat2Z.inj_succ, seqZ_cons in Hv by lia.
  injection Hv as Hv _. unfold ident. by rewrite Hv.
Qed.

Lemma elem_of_concat {A} (x : A) (L : list (list A)) p :
  p ∈ L -> x ∈ p -> x ∈ concat L.
Proof.
  intros Hp Hx. apply list_elem_of_In, in_concat. exists p.
  split; by apply list_elem_of_In.
Qed.

Lemma NoDup_concat_disjoint {A} (L : list (list A)) i j p q x :
  NoDup (concat L) -> i <> j -> L !! i = Some p -> L !! j = Some q ->
  x ∈ p -> x ∈ q -> False.
Proof.
  revert i j. induction L as [|y L IH]; intros i j Hnd Hij Hi Hj Hp Hq; [done|].
  simpl in Hnd. apply NoDup_app in Hnd as (_ & Hdis & Hnd).
  destruct i as [|i], j as [|j]; simplify_eq/=.
  - apply (Hdis x Hp). apply (elem_of_concat _ _ q); [|done].
    by eapply list_elem_of_lookup_2.
  - apply (Hdis x Hq). apply (elem_of_concat _ _ p); [|done].
    by eapply list_elem_of_lookup_2.
  - eapply (IH i j); eauto.
Qed.

Lemma fmap_concat {A B} (f : A -> B) (L : list (list A)) :
  f <$> concat L = concat (fmap (M:=list) f <$> L).
Proof.
  induction L as [|y L IH]; [done|]. simpl. rewrite fmap_app. f_equal. exact IH.
Qed.

Lemma NoDup_ordered_deck : NoDup (ident <$> ordered_deck).
Proof. refine (bool_decide_unpack _ _). vm_compute. exact I. Qed.

Lemma full_deck_NoDup gs : full_deck gs -> NoDup (ident <$> all_cards gs).
Proof. intros H. unfold full_deck in H. rewrite H. apply NoDup_ordered_deck. Qed.

Lemma table_ok_one_pile_per_suit gs : table_ok gs -> one_pile_per_suit (foundations gs).
Proof.
  intros [Hdeck _ _ Hf _ _] i j p q c d Hij Hi Hj Hc Hd Heq.
  apply full_deck_NoDup in Hdeck. unfold all_cards in Hdeck.
  rewrite !fmap_app in Hdeck.
  apply NoDup_app in Hdeck as (_ & _ & Hdeck).
  apply NoDup_app in Hdeck as (_ & _ & Hdeck).
  apply NoDup_app in Hdeck as (Hdeck & _ & _).
  rewrite fmap_concat in Hdeck.
  eapply (NoDup_concat_disjoint _ i j (ident <$> p) (ident <$> q) (1, suit c) Hdeck Hij).
  - by rewrite list_lookup_fmap, Hi.
  - by rewrite list_lookup_fmap, Hj.
  - apply foundation_pile_first; [|done]. by eapply (Forall_lookup_1 _ _ _ _ Hf).
  - rewrite Heq. apply foundation_pile_first; [|done]. by eapply (Forall_lookup_1 _ _ _ _ Hf).
Qed.

Lemma table_ok_invariants gs :
  table_ok gs -> foundation_invariant gs /\ tableau_invariant gs.
Proof.
  intros H. split.
  - split; [apply H|]. split; [apply H|]. by apply table_ok_one_pile_per_suit.
  - unfold tableau_invariant. eapply Forall_impl; [apply H|].
    intros pile. apply tableau_shape_run.
Qed.

(** ** Every move keeps the table in order *)

Lemma full_deck_step gs gs' :
  ident <$> all_cards gs' ≡ₚ ident <$> all_cards gs -> full_deck gs -> full_deck gs'.
Proof. unfold full_deck. by intros ->. Qed.

Lemma draw_from_stock_ok gs dc gs' b :
  draw_from_stock gs dc = Ok (gs', b) -> table_ok gs -> table_ok gs'.
Proof.
  intros H Hok. pose proof (draw_from_stock_cards _ _ _ _ H) as Hc.
  destruct Hok as [Hdeck Hw Ht Hf H4 H7].
  destruct (decide (stock gs = [])) as [Es|Es].
  - destruct (decide (waste gs = [])) as [Ew|Ew].
    + rewrite draw_from_stock_empty in H by done. by simplify_eq.
    + rewrite draw_from_stock_recycle in H by done. simplify_eq.
      split; simpl; try done. by eapply full_deck_step.
  - rewrite draw_from_stock_nonempty in H by done. simplify_eq.
    split; simpl; try done; [by eapply full_deck_step|].
    apply Forall_app. split; [done|]. by apply Forall_fmap, Forall_true.
Qed.

Lemma move_waste_to_foundation_ok gs gs' b :
  move_waste_to_foundation gs = Ok (gs', b) -> table_ok gs -> table_ok gs'.
Proof.
  intros H Hok. pose proof (move_waste_to_foundation_cards _ _ _ H) as Hc.
  destruct Hok as [Hdeck Hw Ht Hf H4 H7].
  apply move_waste_to_foundation_inv in H
    as [[_ ->]|[_ (rest & card & n & pile & Ew & Hn & Hp & ->)]]; [done|].
  rewrite Ew, Forall_app in Hw. destruct Hw as [Hw _].
  split; simpl; try done.
  - by eapply full_deck_step.
  - apply Forall_insert; [done|]. apply foundation_pile_ok_snoc; [|done].
    by eapply (Forall_lookup_1 _ _ _ _ Hf).
  - by rewrite length_insert.
Qed.

Lemma move_waste_to_tableau_ok gs col gs' b :
  move_waste_to_tableau gs col = Ok (gs', b) -> table_ok gs -> table_ok gs'.
Proof.
  intros H Hok. pose proof (move_waste_to_tableau_cards _ _ _ _ H) as Hc.
  destruct Hok as [Hdeck Hw Ht Hf H4 H7].
  apply move_waste_to_tableau_inv in H
    as [[_ ->]|[_ (rest & card & n & pile & Ew & Hn & Hp & ->)]]; [done|].
  rewrite Ew, Forall_app, Forall_singleton in Hw. destruct Hw as [Hw Hcard].
  split; simpl; try done.
  - by eapply full_deck_step.
  - apply Forall_insert; [done|].
    apply (tableau_shape_place pile [card] card); try done.
    + by eapply (Forall_lookup_1 _ _ _ _ Ht).
    + by constructor.
  - by rewrite length_insert.
Qed.

(** The face-up run of a column whose top card is face up ends in that
    card. *)
Lemma tableau_shape_top rest card :
  tableau_shape (rest ++ [card]) -> face_up card = true ->
  exists fd fu,
    rest = fd ++ fu /\
    Forall (fun c => face_up c = false) fd /\
    Forall (fun c => face_up c = true) (fu ++ [card]) /\
    run_ok (fu ++ [card]).
Proof.
  intros (fd & fu & E & Hfd & Hfu & Hr) Hc.
  destruct fu as [|x fu _] using rev_ind.
  - rewrite app_nil_r in E. subst fd.
    rewrite Forall_app, Forall_singleton in Hfd. destruct Hfd as [_ Hfd]. congruence.
  - rewrite app_assoc in E. apply app_inj_tail in E as [-> ->].
    by exists fd, fu.
Qed.

Lemma move_tableau_to_foundation_ok gs col gs' b :
  move_tableau_to_foundation gs col = Ok (gs', b) -> table_ok gs -> table_ok gs'.
Proof.
  intros H Hok. pose proof (move_tableau_to_foundation_cards _ _ _ _ H) as Hc.
  destruct Hok as [Hdeck Hw Ht Hf H4 H7].
  apply move_tableau_to_foundation_inv in H
    as [[_ ->]|[_ (n & rest & card & s & fpile & Hn & Hup & _ & Hs & Hp & ->)]]; [done|].
  split; simpl; try done.
  - by eapply full_deck_step.
  - apply Forall_insert; [done|]. apply tableau_shape_flip.
    destruct (tableau_shape_top rest card) as (fd & fu & -> & Hfd & Hfu & Hr);
      [by eapply (Forall_lookup_1 _ _ _ _ Ht)|done|].
    apply Forall_app in Hfu as [Hfu _]. apply run_ok_app_inv in Hr as [Hr _].
    by exists fd, fu.
  - apply Forall_insert; [done|]. apply foundation_pile_ok_snoc; [|done].
    by eapply (Forall_lookup_1 _ _ _ _ Hf).
  - by rewrite length_insert.
  - by rewrite length_insert.
Qed.

Lemma move_tableau_to_tableau_ok gs src dst depth gs' b :
  move_tableau_to_tableau gs src dst depth = Ok (gs', b) -> table_ok gs -> table_ok gs'.
Proof.
  intros H Hok. pose proof (move_tableau_to_tableau_cards _ _ _ _ _ _ H) as Hc.
  destruct Hok as [Hdeck Hw Ht Hf H4 H7].
  apply move_tableau_to_tableau_inv in H as [[_ ->]|[_ H]]; [done|].
  destruct H as (ns & nd & pile & dpile & bottom & others & _ & _ & _ & Hs & Hd & H).
  simpl in H. destruct H as (Hff & Hd1 & Hd2 & Htk & Hp & ->).
  split; simpl; try done; [by eapply full_deck_step| |by rewrite !length_alter, length_insert].
  destruct (Forall_lookup_1 _ _ _ _ Ht Hs) as (fd & fu & -> & Hfd & Hfu & Hr).
  rewrite first_faceup_shape in * by done.
  set (d := Z.to_nat depth) in *. rewrite length_app in *.
  rewrite drop_app_length in Htk.
  assert (fu = (bottom :: others) ++ drop d fu) as Hsplit by (by rewrite <- Htk, take_drop).
  assert (Forall (fun c => face_up c = true) (bottom :: others) /\
          Forall (fun c => face_up c = true) (drop d fu)) as [Hm Hrest].
  { apply Forall_app. by rewrite <- Hsplit. }
  assert (run_ok (bottom :: others) /\ run_ok (drop d fu)) as [Hrm Hrrest].
  { apply run_ok_app_inv. by rewrite <- Hsplit. }
  assert (ns <> nd) as Hne.
  { intros <-. simplify_eq.
    destruct fu as [|x fu' _] using rev_ind; [done|].
    rewrite app_assoc, target_of_snoc in Hp.
    rewrite Forall_app, Forall_singleton in Hfu. destruct Hfu as [_ Hx].
    rewrite Hx in Hp. apply can_place_on_tableau_Some in Hp as [_ Hp].
    assert ((fu' ++ [x]) !! 0%nat = Some bottom) as H0 by (by rewrite Hsplit).
    assert ((fu' ++ [x]) !! (0 + length fu')%nat = Some x) as H1.
    { simpl. by rewrite lookup_app_r, Nat.sub_diag. }
    pose proof (run_ok_values _ _ _ _ _ Hr H0 H1). lia. }
  apply Forall_alter; [apply Forall_alter|].
  - apply Forall_insert; [done|].
    apply (tableau_shape_place _ _ bottom); try done.
    by eapply (Forall_lookup_1 _ _ _ _ Ht).
  - intros p1. rewrite list_lookup_insert_ne by done. rewrite Hs. intros [= <-] _.
    unfold del_slice. rewrite take_app_length, drop_app_add'. 2: done.
    by exists fd, (drop d fu).
  - intros p _. apply tableau_shape_flip.
Qed.

Lemma move_step_ok gs gs' : move_step gs gs' -> table_ok gs -> table_ok gs'.
Proof.
  intros [dc b H|b H|col b H|col b H|src dst depth b H].
  - by eapply draw_from_stock_ok.
  - by eapply move_waste_to_foundation_ok.
  - by eapply move_waste_to_tableau_ok.
  - by eapply move_tableau_to_foundation_ok.
  - by eapply move_tableau_to_tableau_ok.
Qed.

Lemma reachable_ok gs0 gs : table_ok gs0 -> reachable_from gs0 gs -> table_ok gs.
Proof. intros H0. induction 1; [done|]. by eapply move_step_ok. Qed.

(** ** The deal *)

Lemma deal_cards_Ok is_ col deck pile :
  (length is_ <= length deck)%nat ->
  exists taken deck',
    deck = deck' ++ reverse taken /\ length taken = length is_ /\
    deal_cards is_ col deck pile = Ok (deck', pile ++ mark col is_ taken).
Proof.
  revert deck pile. induction is_ as [|i is_ IH]; intros deck pile Hlen.
  - exists [], deck. simpl. by rewrite !app_nil_r.
  - simpl in *. destruct (pop deck) as [[r c]|] eqn:E.
    2:{ apply pop_None in E as ->. simpl in Hlen. lia. }
    apply pop_Some in E as ->. rewrite length_app in Hlen. simpl in Hlen.
    destruct (IH r (pile ++ [if (i =? col)%nat then set_face true c else c]))
      as (taken & deck' & -> & Ht & ->); [lia|].
    exists (c :: taken), deck'. rewrite reverse_cons, <- !app_assoc. simpl.
    by rewrite Ht.
Qed.

Lemma deal_columns_Ok cols deck tabs :
  Forall (fun col => (col < length tabs)%nat) cols ->
  (sum_list (S <$> cols) <= length deck)%nat ->
  exists deck' dealt,
    deck = deck' ++ reverse dealt /\ length dealt = sum_list (S <$> cols) /\
    deal_columns cols deck tabs = Ok (deck', fill cols dealt tabs).
Proof.
  revert deck tabs. induction cols as [|col cols IH]; intros deck tabs Hc Hlen.
  - exists deck, []. simpl. by rewrite app_nil_r.
  - apply Forall_cons in Hc as [Hcol Hc]. rewrite fmap_cons in Hlen. simpl in Hlen.
    destruct (index_in_range tabs (Z.of_nat col)) as (pile & Hp & Hi); [lia|].
    rewrite Nat2Z.id in Hp, Hi.
    destruct (deal_cards_Ok (seq 0 (S col)) col deck pile) as (taken & deck1 & -> & Ht & Hd).
    { rewrite length_seq. lia. }
    rewrite length_seq in Ht. rewrite length_app, length_reverse in Hlen.
    destruct (IH deck1 (<[col := pile ++ mark col (seq 0 (S col)) taken]> tabs))
      as (deck' & dealt & -> & Hdl & Hr).
    { rewrite length_insert. done. }
    { lia. }
    exists deck', (taken ++ dealt). split; [by rewrite reverse_app, app_assoc|].
    split; [rewrite length_app, fmap_cons; simpl; lia|].
    cbn [deal_columns]. rewrite Hi. cbn [res_bind]. rewrite Hd. cbn [res_bind].
    rewrite Hr. cbn [fill]. rewrite Hp. cbn [default].
    by rewrite take_app_length', drop_app_length' by done.
Qed.

Lemma deal_from_Ok deck now :
  length deck = 52%nat ->
  exists deck' dealt,
    deck = deck' ++ reverse dealt /\ length dealt = 28%nat /\
    deal_from deck now =
      Ok (mkGameState deck' [] (replicate 4 []) (fill (seq 0 7) dealt (replicate 7 []))
            0 now false).
Proof.
  intros Hlen.
  destruct (deal_columns_Ok (seq 0 7) deck (replicate 7 [])) as (deck' & dealt & Hd & Hl & Hr).
  { repeat constructor. }
  { rewrite Hlen. simpl. lia. }
  exists deck', dealt. split; [done|]. split; [done|].
  unfold deal_from. by rewrite Hr.
Qed.

Lemma tableau_shape_dealt fd c :
  Forall (fun c => face_up c = false) fd -> tableau_shape (fd ++ [set_face true c]).
Proof. intros H. exists fd, [set_face true c]. repeat split; try done. by constructor. Qed.

Lemma mark_below col a n t :
  (a + n <= col)%nat -> length t = n -> mark col (seq a n) t = t.
Proof.
  revert a t. induction n as [|n IH]; intros a [|c t] Ha Ht; simplify_eq/=; [done|].
  unfold mark in *. simpl. destruct (Nat.eqb_spec a col) as [->|_]; [lia|].
  f_equal. apply IH; lia.
Qed.

Lemma mark_column col t x :
  length t = col -> mark col (seq 0 (S col)) (t ++ [x]) = t ++ [set_face true x].
Proof.
  intros Ht. rewrite seq_S. unfold mark.
  rewrite zip_with_app by (by rewrite length_seq).
  fold (mark col (seq 0 col) t). rewrite mark_below by (done || lia).
  simpl. by rewrite Nat.eqb_refl.
Qed.

Lemma fill_spec cols dealt tabs :
  NoDup cols -> Forall (fun col => tabs !! col = Some []) cols ->
  length dealt = sum_list (S <$> cols) ->
  length (fill cols dealt tabs) = length tabs /\
  (forall x, cnt x (concat (fill cols dealt tabs))
             = (cnt x (concat tabs) + cnt x dealt)%nat) /\
  (forall i pile, fill cols dealt tabs !! i = Some pile ->
     ((i ∉ cols) /\ tabs !! i = Some pile) \/
     (i ∈ cols /\ exists t x,
        length t = i /\ pile = t ++ [set_face true x] /\
        forall c, c ∈ t ++ [x] -> c ∈ dealt)).
Proof.
  revert dealt tabs. induction cols as [|col cols IH]; intros dealt tabs Hnd Hc Hlen.
  - simpl in *. destruct dealt; [|done]. split; [done|]. split.
    + intros x. rewrite cnt_nil. lia.
    + intros i pile Hi. left. split; [apply not_elem_of_nil|done].
  - apply NoDup_cons in Hnd as [Hcol Hnd]. apply Forall_cons in Hc as [Hcl Hc].
    rewrite fmap_cons in Hlen. simpl in Hlen. cbn [fill]. rewrite Hcl. cbn [default from_option id app].
    assert (length (take (S col) dealt) = S col) as Htk by (rewrite length_take; lia).
    destruct (take (S col) dealt) as [|x t _] eqn:Etk using rev_ind; [done|].
    rewrite length_app in Htk. simpl in Htk.
    rewrite mark_column by lia.
    set (tabs1 := <[col := t ++ [set_face true x]]> tabs).
    destruct (IH (drop (S col) dealt) tabs1) as (IH1 & IH2 & IH3); [done| |rewrite length_drop; lia|].
    { rewrite Forall_forall in Hc |- *. intros c Hin. subst tabs1.
      rewrite list_lookup_insert_ne; [by apply Hc|]. by intros ->. }
    split; [by rewrite IH1; subst tabs1; rewrite length_insert|]. split.
    + intros y. rewrite IH2. subst tabs1.
      pose proof (cnt_concat_insert y tabs col [] (t ++ [set_face true x]) Hcl) as H.
      pose proof (cnt_take_drop y (S col) dealt) as H'. rewrite Etk in H'.
      pose proof (cnt_set_face y true [x]) as Hx. simpl in Hx.
      rewrite !cnt_app, ?cnt_nil in *. lia.
    + intros i pile Hi. destruct (IH3 i pile Hi) as [[Hni Hl]|[Hin (t' & x' & Ht' & -> & Hsub)]].
      * subst tabs1. destruct (decide (i = col)) as [->|Hne].
        -- right. split; [left|].
           rewrite list_lookup_insert_eq in Hl by (by eapply lookup_lt_Some).
           simplify_eq. exists t, x. split; [lia|]. split; [done|].
           intros c Hcin. rewrite <- Etk in Hcin. by eapply subseteq_take.
        -- left. rewrite list_lookup_insert_ne in Hl by done.
           split; [|done]. rewrite not_elem_of_cons. done.
      * right. split; [by right|]. exists t', x'. split; [done|]. split; [done|].
        intros c Hcin. eapply subseteq_drop. by apply Hsub.
Qed.

(** What a deal of any 52 face-down cards looks like. *)
Lemma deal_from_shape deck now :
  length deck = 52%nat -> Forall (fun c => face_up c = false) deck ->
  exists gs,
    deal_from deck now = Ok gs /\
    ident <$> all_cards gs ≡ₚ ident <$> deck /\
    waste gs = [] /\ foundations gs = replicate 4 [] /\
    length (tableaus gs) = 7%nat /\
    (forall i pile, tableaus gs !! i = Some pile ->
       length pile = S i /\
       forall j c, pile !! j = Some c -> face_up c = bool_decide (j = i)) /\
    Forall tableau_shape (tableaus gs) /\
    length (stock gs) = 24%nat /\
    Forall (fun c => face_up c = false) (stock gs) /\
    moves gs = 0 /\ start_time gs = now /\ won gs = false.
Proof.
  intros Hlen Hdown.
  destruct (deal_from_Ok deck now Hlen) as (deck' & dealt & -> & Hl & ->).
  eexists. split; [done|].
  rewrite length_app, length_reverse, Hl in Hlen.
  apply Forall_app in Hdown as [Hdown' Hdealt]. rewrite Forall_reverse in Hdealt.
  destruct (fill_spec (seq 0 7) dealt (replicate 7 [])) as (F1 & F2 & F3).
  { apply NoDup_seq. }
  { repeat constructor. }
  { by rewrite Hl. }
  assert (forall i pile, fill (seq 0 7) dealt (replicate 7 []) !! i = Some pile ->
            exists t x, length t = i /\ pile = t ++ [set_face true x] /\
                        Forall (fun c => face_up c = false) t) as F4.
  { intros i pile Hi. destruct (F3 i pile Hi) as [[Hni Hr]|[_ (t & x & Ht & -> & Hsub)]].
    - exfalso. apply Hni. apply elem_of_seq. apply lookup_lt_Some in Hr.
      rewrite length_replicate in Hr. lia.
    - exists t, x. split; [done|]. split; [done|].
      rewrite Forall_forall in Hdealt |- *. intros c Hc. apply Hdealt, Hsub.
      apply elem_of_app. by left. }
  cbn [stock waste foundations tableaus moves start_time won].
  split.
  { apply cnt_all. intros x. rewrite cnt_all_cards. simpl.
    rewrite F2, !cnt_app, cnt_reverse. simpl. rewrite !cnt_nil. lia. }
  split; [done|]. split; [done|]. split; [by rewrite F1|].
  split.
  { intros i pile Hi. destruct (F4 i pile Hi) as (t & x & Ht & -> & Hfd).
    split; [rewrite length_app; simpl; lia|].
    intros j c Hj. destruct (decide (j = i)) as [->|Hne].
    - rewrite bool_decide_eq_true_2 by done.
      rewrite lookup_app_r, Ht, Nat.sub_diag in Hj by lia. by simplify_eq/=.
    - rewrite bool_decide_eq_false_2 by done.
      assert (j < i)%nat.
      { apply lookup_lt_Some in Hj. rewrite length_app in Hj. simpl in Hj. lia. }
      rewrite lookup_app_l in Hj by lia.
      rewrite Forall_forall in Hfd. apply Hfd. by eapply list_elem_of_lookup_2. }
  split.
  { apply Forall_lookup. intros i pile Hi.
    destruct (F4 i pile Hi) as (t & x & Ht & -> & Hfd). by apply tableau_shape_dealt. }
  split; [lia|]. done.
Qed.

Lemma ordered_deck_face_down : Forall (fun c => face_up c = false) ordered_deck.
Proof. refine (bool_decide_unpack _ _). vm_compute. exact I. Qed.

Lemma deck_face_down deck :
  deck ≡ₚ ordered_deck -> Forall (fun c => face_up c = false) deck.
Proof. intros ->. apply ordered_deck_face_down. Qed.

Lemma deal_from_ok deck now :
  deck ≡ₚ ordered_deck ->
  exists gs, deal_from deck now = Ok gs /\ table_ok gs.
Proof.
  intros Hp.
  destruct (deal_from_shape deck now) as (gs & Hgs & Hc & Hw & Hf & H7 & _ & Hsh & _).
  { by rewrite Hp. }
  { by apply deck_face_down. }
  exists gs. split; [done|]. split.
  - unfold full_deck. by rewrite Hc, Hp.
  - by rewrite Hw.
  - done.
  - rewrite Hf. repeat constructor; apply foundation_pile_ok_nil.
  - by rewrite Hf.
  - done.
Qed.

(** ** The invariants of the table *)

(** C1.  In every state reached from a fresh deal by the move operations
    (draw, waste to foundation, waste to tableau, tableau to foundation,
    tableau to tableau, called with any arguments), each of the four
    foundation piles holds ranks 1..k of a single suit, bottom to top, no
    suit lies in two piles, and the face-up run at the tail of every tableau
    column alternates in colour and goes down by one rank toward the top.
    Every further move operation leads to a state with the same two
    properties. *)
Theorem reachable_invariants (shuffle : list Card -> list Card) (now : float)
    (gs0 gs : GameState) :
  (forall l, shuffle l ≡ₚ l) ->
  deal_new_game shuffle now = Ok gs0 ->
  reachable_from gs0 gs ->
  (foundation_invariant gs /\ tableau_invariant gs) /\
  (forall gs', move_step gs gs' -> foundation_invariant gs' /\ tableau_invariant gs').
Proof.
  intros Hsh Hdeal Hreach.
  destruct (deal_from_ok (shuffle ordered_deck) now (Hsh _)) as (gs1 & H1 & Hok).
  unfold deal_new_game, new_deck in Hdeal. rewrite H1 in Hdeal. simplify_eq.
  pose proof (reachable_ok _ _ Hok Hreach) as Hgs.
  split; [by apply table_ok_invariants|].
  intros gs' Hstep. apply table_ok_invariants. by eapply move_step_ok.
Qed.

Lemma reachable_invariants_witness :
  foundation_invariant Examples.plain_deal_drawn /\
  tableau_invariant Examples.plain_deal_drawn.
Proof.
  refine (proj1 (reachable_invariants (fun l => l) (float_of_Z 0) Examples.plain_deal
                   Examples.plain_deal_drawn _ _ _)).
  - intros l. reflexivity.
  - reflexivity.
  - apply (reach_step _ Examples.plain_deal); [apply reach_start|].
    apply (step_draw _ _ 3 true). reflexivity.
Defined.

(** ** The deal and the conservation of cards *)

(** C8.  A fresh deal holds the 52 cards of the deck, each (rank, suit)
    once: tableau column [i] (from 0) holds [i + 1] cards of which only the
    last dealt is face up, the stock holds the other 24 cards, all face
    down, the waste and the foundations are empty, [moves = 0] and
    [won = False].  Every move operation leaves the cards of the table, as a
    multiset of (rank, suit), unchanged. *)
Theorem fresh_deal_and_conservation (shuffle : list Card -> list Card) (now : float) :
  (forall l, shuffle l ≡ₚ l) ->
  (exists gs,
     deal_new_game shuffle now = Ok gs /\
     ident <$> all_cards gs ≡ₚ ident <$> ordered_deck /\
     length (all_cards gs) = 52%nat /\
     NoDup (ident <$> all_cards gs) /\
     length (tableaus gs) = 7%nat /\
     (forall i pile, tableaus gs !! i = Some pile ->
        length pile = S i /\
        forall j c, pile !! j = Some c -> face_up c = bool_decide (j = i)) /\
     length (stock gs) = 24%nat /\
     Forall (fun c => face_up c = false) (stock gs) /\
     waste gs = [] /\ foundations gs = [[]; []; []; []] /\
     moves gs = 0 /\ won gs = false) /\
  (forall gs gs', move_step gs gs' ->
     ident <$> all_cards gs' ≡ₚ ident <$> all_cards gs).
Proof.
  intros Hsh. split; [|apply move_step_cards].
  destruct (deal_from_shape (shuffle ordered_deck) now)
    as (gs & Hgs & Hc & Hw & Hf & H7 & Hcols & _ & Hst & Hdown & Hm & _ & Hwon).
  { by rewrite Hsh. }
  { by apply deck_face_down. }
  assert (ident <$> all_cards gs ≡ₚ ident <$> ordered_deck) as Hdeck by (by rewrite Hc, Hsh).
  exists gs. repeat split; try done.
  - apply Permutation_length in Hdeck. by rewrite !length_fmap in Hdeck.
  - rewrite Hdeck. apply NoDup_ordered_deck.
  - by apply Hcols.
  - by apply Hcols.
Qed.

Lemma fresh_deal_and_conservation_witness :
  (exists gs, deal_new_game (fun l => l) (float_of_Z 0) = Ok gs /\ length (stock gs) = 24%nat) /\
  ident <$> all_cards Examples.plain_deal_drawn ≡ₚ ident <$> all_cards Examples.plain_deal.
Proof.
  destruct (fresh_deal_and_conservation (fun l => l) (float_of_Z 0)) as [H1 H2].
  - intros l. reflexivity.
  - split.
    + destruct H1 as (gs & Hgs & _ & _ & _ & _ & _ & H24 & _). by exists gs.
    + apply H2. apply (step_draw _ _ 3 true). reflexivity.
Defined.

(** ** The auto-move sweep *)

Lemma sum_length_insert (L : list (list Card)) n p q :
  L !! n = Some p ->
  (sum_list (length <$> <[n := q]> L) + length p)%nat
  = (length q + sum_list (length <$> L))%nat.
Proof.
  revert n. induction L as [|y L IH]; intros [|n] H; simplify_eq/=; [lia|].
  specialize (IH n H). lia.
Qed.

Lemma length_flip_if_needed pile : length (flip_if_needed pile) = length pile.
Proof.
  unfold flip_if_needed. destruct (pop pile) as [[r c]|] eqn:E; [|done].
  apply pop_Some in E as ->. destruct (face_up c); [done|]. by rewrite !length_app.
Qed.

Lemma suits_flip_if_needed pile :
  Forall (fun c => 0 <= suit c < 4) pile ->
  Forall (fun c => 0 <= suit c < 4) (flip_if_needed pile).
Proof.
  unfold flip_if_needed. destruct (pop pile) as [[r c]|] eqn:E; [|done].
  apply pop_Some in E as ->. destruct (face_up c); [done|].
  rewrite !Forall_app, !Forall_singleton. done.
Qed.

Lemma move_waste_to_foundation_attempt gs :
  well_formed gs -> attempt_ok gs (move_waste_to_foundation gs).
Proof.
  intros Hwf. pose proof Hwf as (H4 & H7 & Hs).
  pose proof (move_waste_to_foundation_noop gs H4) as Hn.
  destruct (move_waste_to_foundation gs) as [[gs' b]| |] eqn:E; [|done..].
  exists gs', b. split; [done|].
  apply move_waste_to_foundation_inv in E
    as [[-> ->]|[-> (rest & card & n & pile & Ew & Hl & _ & ->)]].
  - split; [done|]. split; [done|]. done.
  - split; [split; simpl; [by rewrite length_insert|done]|].
    split; [done|]. intros _. split; [done|].
    unfold movable, on_foundations. simpl. rewrite Ew, length_app. simpl.
    pose proof (sum_length_insert _ _ _ (pile ++ [card]) Hl) as Hsum.
    rewrite length_app in Hsum. simpl in Hsum. lia.
Qed.

Lemma move_tableau_to_foundation_attempt gs col :
  well_formed gs -> 0 <= col < 7 -> attempt_ok gs (move_tableau_to_foundation gs col).
Proof.
  intros Hwf Hcol. pose proof Hwf as (H4 & H7 & Hs).
  pose proof (move_tableau_to_foundation_noop gs col Hwf Hcol) as Hn.
  destruct (move_tableau_to_foundation gs col) as [[gs' b]| |] eqn:E; [|done..].
  exists gs', b. split; [done|].
  apply move_tableau_to_foundation_inv in E
    as [[-> ->]|[-> (n & rest & card & s & fpile & Hl & _ & _ & Hf & _ & ->)]].
  - split; [done|]. split; [done|]. done.
  - split.
    { split; simpl; [by rewrite length_insert|]. split; [by rewrite length_insert|].
      apply Forall_insert; [done|]. apply suits_flip_if_needed.
      pose proof (Forall_lookup_1 _ _ _ _ Hs Hl) as Hp.
      by apply Forall_app in Hp as [Hp _]. }
    split; [done|]. intros _. split; [done|].
    unfold movable, on_foundations. simpl.
    pose proof (sum_length_insert _ _ _ (fpile ++ [card]) Hf) as Hsum.
    pose proof (sum_length_insert _ _ _ (flip_if_needed rest) Hl) as Hsum'.
    rewrite length_flip_if_needed in Hsum'.
    rewrite !length_app in *. simpl in *. lia.
Qed.

Lemma sweep_ok_refl gs : well_formed gs -> sweep_ok gs gs 0.
Proof. intros H. split; [done|]. repeat split; lia. Qed.

Lemma sweep_ok_trans gs1 gs2 gs3 n m :
  sweep_ok gs1 gs2 n -> sweep_ok gs2 gs3 m -> sweep_ok gs1 gs3 (n + m).
Proof.
  intros (_ & Hn & Hm1 & Hv1 & Hf1 & He1) (Hwf & Hm & Hm2 & Hv2 & Hf2 & He2).
  split; [done|]. repeat split; try lia.
  intros H. rewrite He2 by lia. apply He1. lia.
Qed.

Lemma attempt_sweep_ok gs gs' b :
  well_formed gs' ->
  (b = false -> gs' = gs) ->
  (b = true -> moves gs' = moves gs + 1 /\ S (movable gs') = movable gs /\
               on_foundations gs' = S (on_foundations gs)) ->
  sweep_ok gs gs' (if b then 1 else 0).
Proof.
  intros Hwf Hf Ht. destruct b.
  - destruct (Ht eq_refl) as (H1 & H2 & H3). split; [done|]. repeat split; lia.
  - rewrite (Hf eq_refl) in *. by apply sweep_ok_refl.
Qed.

Lemma sweep_columns_spec cols gs moved count :
  well_formed gs -> Forall (fun col => 0 <= col < 7) cols ->
  exists gs' n,
    sweep_columns cols gs moved count = Ok (gs', moved || (0 <? n), count + n) /\
    sweep_ok gs gs' n /\
    (n = 0 -> Forall (fun col => move_tableau_to_foundation gs col = Ok (gs, false)) cols).
Proof.
  intros Hwf Hcols. revert gs moved count Hwf.
  induction Hcols as [|col cols Hcol _ IH]; intros gs moved count Hwf.
  - exists gs, 0. simpl. rewrite orb_false_r, Z.add_0_r.
    split; [done|]. split; [by apply sweep_ok_refl|]. done.
  - destruct (move_tableau_to_foundation_attempt gs col Hwf Hcol)
      as (gs1 & b & E & Hwf1 & Hf & Ht).
    pose proof (attempt_sweep_ok gs gs1 b Hwf1 Hf Ht) as H1.
    simpl. rewrite E. simpl.
    destruct b.
    + destruct (IH gs1 true (count + 1) Hwf1) as (gs' & n & -> & H2 & _).
      exists gs', (1 + n). pose proof (sweep_ok_trans _ _ _ _ _ H1 H2) as H3.
      destruct H2 as (_ & Hn & _).
      replace (0 <? 1 + n) with true by (symmetry; apply Z.ltb_lt; lia).
      rewrite orb_true_r. simpl. split; [do 2 f_equal; lia|].
      split; [done|]. intros; lia.
    + rewrite (Hf eq_refl) in *.
      destruct (IH gs moved count Hwf) as (gs' & n & -> & H2 & Hall).
      exists gs', n. split; [done|]. split; [done|].
      intros Hn. constructor; [done|]. by apply Hall.
Qed.

Lemma auto_move_pass_spec gs count :
  well_formed gs ->
  exists gs' n,
    auto_move_pass gs count = Ok (gs', 0 <? n, count + n) /\
    sweep_ok gs gs' n /\
    (n = 0 ->
       move_waste_to_foundation gs = Ok (gs, false) /\
       Forall (fun col => move_tableau_to_foundation gs col = Ok (gs, false))
         [0; 1; 2; 3; 4; 5; 6]).
Proof.
  intros Hwf.
  destruct (move_waste_to_foundation_attempt gs Hwf) as (gs1 & b & E & Hwf1 & Hf & Ht).
  pose proof (attempt_sweep_ok gs gs1 b Hwf1 Hf Ht) as H1.
  unfold auto_move_pass. rewrite E. cbn [res_bind].
  assert (Forall (fun col => 0 <= col < 7) [0; 1; 2; 3; 4; 5; 6]) as Hcols
    by (repeat constructor; lia).
  destruct b.
  - destruct (sweep_columns_spec _ gs1 true (count + 1) Hwf1 Hcols) as (gs' & n & -> & H2 & _).
    exists gs', (1 + n). pose proof (sweep_ok_trans _ _ _ _ _ H1 H2) as H3.
    destruct H2 as (_ & Hn & _).
    replace (0 <? 1 + n) with true by (symmetry; apply Z.ltb_lt; lia).
    cbn [orb]. split; [do 2 f_equal; lia|]. split; [done|]. intros; lia.
  - rewrite (Hf eq_refl) in *.
    destruct (sweep_columns_spec _ gs false count Hwf Hcols) as (gs' & n & -> & H2 & Hall).
    exists gs', n. split; [done|]. split; [done|]. intros Hn. split; [done|]. by apply Hall.
Qed.

Lemma auto_move_loop_spec fuel gs count :
  well_formed gs -> (movable gs < fuel)%nat ->
  exists gs' n,
    auto_move_loop fuel gs count = Ok (gs', count + n) /\
    sweep_ok gs gs' n /\ at_rest gs'.
Proof.
  revert gs count. induction fuel as [|fuel IH]; intros gs count Hwf Hfuel; [lia|].
  destruct (auto_move_pass_spec gs count Hwf) as (gs1 & n1 & E & H1 & Hrest).
  simpl. rewrite E. simpl.
  destruct (Z.ltb_spec 0 n1) as [Hpos|Hzero].
  - pose proof H1 as (Hwf1 & _ & _ & Hmv & _).
    destruct (IH gs1 (count + n1) Hwf1) as (gs' & n & -> & H2 & Hr); [lia|].
    exists gs', (n1 + n). split; [do 2 f_equal; lia|].
    split; [by eapply sweep_ok_trans|done].
  - pose proof H1 as (_ & Hn & _ & _ & _ & Heq).
    assert (n1 = 0) as -> by lia. rewrite (Heq eq_refl) in *.
    exists gs, 0. split; [done|]. split; [done|]. by apply Hrest.
Qed.

Lemma sweep_columns_at_rest cols gs moved count :
  Forall (fun col => move_tableau_to_foundation gs col = Ok (gs, false)) cols ->
  sweep_columns cols gs moved count = Ok (gs, moved, count).
Proof.
  induction 1 as [|col cols Hx _ IH]; [done|].
  cbn [sweep_columns]. rewrite Hx. cbn [res_bind]. exact IH.
Qed.

Lemma auto_move_loop_at_rest fuel gs count :
  at_rest gs -> auto_move_loop (S fuel) gs count = Ok (gs, count).
Proof.
  intros [Hw Hc]. cbn [auto_move_loop]. unfold auto_move_pass.
  rewrite Hw. cbn [res_bind]. by rewrite sweep_columns_at_rest.
Qed.

Lemma auto_move_loop_fuel fuel1 fuel2 gs count :
  well_formed gs -> (movable gs < fuel1)%nat -> (movable gs < fuel2)%nat ->
  auto_move_loop fuel1 gs count = auto_move_loop fuel2 gs count.
Proof.
  revert fuel2 gs count. induction fuel1 as [|fuel1 IH]; intros fuel2 gs count Hwf H1 H2; [lia|].
  destruct fuel2 as [|fuel2]; [lia|].
  destruct (auto_move_pass_spec gs count Hwf) as (gs1 & n1 & E & Hs & _).
  cbn [auto_move_loop]. rewrite E. cbn [res_bind].
  destruct (Z.ltb_spec 0 n1) as [Hpos|Hzero]; [|done].
  destruct Hs as (Hwf1 & _ & _ & Hmv & _). apply IH; [done|lia..].
Qed.

(** C10.  On a well-formed state [auto_move_safe] returns: it repeats the
    pass (waste to foundation, then tableau to foundation for columns 0..6)
    until a pass moves nothing, so that in the state it leaves every one of
    these eight attempts fails; the count it returns is the number of
    successful moves, each of which raised [moves] by one and put one card
    on a foundation.  The result does not depend on the iteration budget of
    the model.  A second call right after the first moves nothing and
    returns 0. *)
Theorem auto_move_safe_spec (gs : GameState) :
  well_formed gs ->
  exists gs' n,
    auto_move_safe gs = Ok (gs', n) /\
    (forall fuel, (movable gs < fuel)%nat -> auto_move_loop fuel gs 0 = Ok (gs', n)) /\
    0 <= n /\
    moves gs' = moves gs + n /\
    Z.of_nat (on_foundations gs') = Z.of_nat (on_foundations gs) + n /\
    move_waste_to_foundation gs' = Ok (gs', false) /\
    (forall col, 0 <= col < 7 -> move_tableau_to_foundation gs' col = Ok (gs', false)) /\
    auto_move_safe gs' = Ok (gs', 0).
Proof.
  intros Hwf. unfold auto_move_safe.
  destruct (auto_move_loop_spec (S (movable gs)) gs 0 Hwf) as (gs' & n & E & Hs & Hr); [lia|].
  exists gs', n. rewrite Z.add_0_l in E. split; [done|].
  split.
  { intros fuel Hfuel. rewrite <- E. apply auto_move_loop_fuel; [done|lia..]. }
  destruct Hs as (_ & Hn & Hm & _ & Hf & _).
  split; [done|]. split; [done|]. split; [done|].
  destruct Hr as [Hw Hc]. split; [done|]. split.
  - intros col Hcol. rewrite Forall_forall in Hc. apply Hc.
    assert (col = 0 \/ col = 1 \/ col = 2 \/ col = 3 \/ col = 4 \/ col = 5 \/ col = 6)
      as Hcases by lia.
    destruct Hcases as [->|[->|[->|[->|[->|[->| ->]]]]]]; repeat constructor.
  - by apply auto_move_loop_at_rest.
Qed.

Lemma auto_move_safe_spec_witness :
  exists gs' n,
    auto_move_safe Examples.four_aces = Ok (gs', n) /\ n = 4 /\
    auto_move_safe gs' = Ok (gs', 0).
Proof.
  destruct (auto_move_safe_spec Examples.four_aces) as (gs' & n & H1 & _ & _ & _ & _ & _ & _ & H2).
  - split; [reflexivity|]. split; [reflexivity|].
    repeat constructor; simpl; lia.
  - exists gs', n. split; [exact H1|]. split; [|exact H2].
    vm_compute in H1. by injection H1 as _ <-.
Defined.

(** ** Moving a run between columns *)

(** C2, at the input where the code departs from it.  Column 0 holds a
    face-down card under the face-up run 5 of hearts, 4 of spades; column 1
    ends in the 6 of clubs.  With depth 1 the code moves the 5 of hearts,
    the lowest card of the run, out from under the 4 of spades, which stays
    on column 0 on top of the face-down card; that card is not flipped. *)
Theorem tableau_move_takes_run_bottom :
  move_tableau_to_tableau Examples.buried_run 0 1 1 =
    Ok (with_moves 1
          (with_tableaus
             [[mkCard 9 0 false; mkCard 4 0 true];
              [mkCard 6 3 true; mkCard 5 1 true]; []; []; []; []; []]
             Examples.buried_run), true).
Proof. reflexivity. Qed.

(** The parts of C2 that the code meets: equal columns and depths outside
    the run are refused, and a successful move takes [depth] cards of the
    run in their order, starting at the lowest face-up card. *)
Lemma move_tableau_to_tableau_same gs src depth :
  move_tableau_to_tableau gs src src depth = Ok (gs, false).
Proof. unfold move_tableau_to_tableau. by rewrite Z.eqb_refl. Qed.

Lemma move_tableau_to_tableau_depth gs src dst depth n pile :
  tableaus gs !! n = Some pile -> py_norm (length (tableaus gs)) src = Some n ->
  depth < 1 \/ Z.of_nat (length (face_up_run pile)) < depth ->
  move_tableau_to_tableau gs src dst depth = Ok (gs, false).
Proof.
  intros Hn Hs Hd. unfold move_tableau_to_tableau.
  destruct (src =? dst); [done|]. unfold index. rewrite Hs, Hn. cbn [res_bind].
  destruct pile as [|c0 p0] eqn:E; [done|]. rewrite <- E in *.
  destruct (_ <=? _)%nat; [done|].
  unfold face_up_run in Hd.
  destruct (Z.ltb_spec depth 1); [done|].
  destruct (Z.ltb_spec (Z.of_nat (length (drop (first_faceup pile) pile))) depth); [done|].
  lia.
Qed.

(** ** The session *)

Lemma length_insert_by {A} (key : A -> Z) x l :
  length (insert_by key x l) = S (length l).
Proof. induction l as [|y l IH]; simpl; [done|]. case_match; simpl; by rewrite ?IH. Qed.

Lemma length_sort_by {A} (key : A -> Z) (l : list A) :
  length (sort_by key l) = length l.
Proof.
  induction l as [|y l IH]; simpl; [done|].
  unfold sort_by in *. simpl. by rewrite length_insert_by, IH.
Qed.

Lemma insert_by_perm {A} (key : A -> Z) x l : insert_by key x l ≡ₚ x :: l.
Proof.
  induction l as [|y l IH]; simpl; [done|]. case_match; [done|].
  rewrite IH. apply Permutation_swap.
Qed.

Lemma sort_by_perm {A} (key : A -> Z) (l : list A) : sort_by key l ≡ₚ l.
Proof.
  induction l as [|y l IH]; [done|]. unfold sort_by in *. simpl.
  by rewrite insert_by_perm, IH.
Qed.




(** C7, at the inputs where the code departs from it.  On a table with
    nothing to draw and nothing to move, the draw key and the auto-move key
    each push a snapshot and leave it on the undo stack although the attempt
    changed nothing; only the select-and-place path takes its snapshot
    back. *)
Theorem failed_key_keeps_snapshot :
  let g := Examples.new_game Examples.empty_state in
  handle_key Examples.env0 0 g KeyDraw = Ok (with_undo_stack [state g] g) /\
  handle_key Examples.env0 0 g KeyAuto = Ok (with_undo_stack [state g] g) /\
  select_or_move (with_cursor (ZTableau, 0) (with_sel (Some SelWaste) g))
    = Ok (with_cursor (ZTableau, 0) g).
Proof. repeat split. Qed.

(** The rollback of the select-and-place path: a placement that moves
    nothing leaves the undo stack as it was, as long as the push did not
    evict the oldest snapshot. *)
Lemma clone_card_id c : clone_card c = c.
Proof. by destruct c. Qed.

Lemma clone_id gs : clone gs = gs.
Proof.
  destruct gs as [s w f t m st wn]. unfold clone. simpl.
  assert (forall l : list Card, map clone_card l = l) as Hl.
  { induction l as [|c l IH]; simpl; [done|]. by rewrite clone_card_id, IH. }
  assert (forall L : list (list Card), map (map clone_card) L = L) as HL.
  { induction L as [|l L IH]; simpl; [done|]. by rewrite Hl, IH. }
  by rewrite !Hl, !HL.
Qed.

Lemma foundation_to_tableau_inv gs src idx gs' b :
  foundation_to_tableau gs src idx = Ok (gs', b) ->
  (b = false /\ gs' = gs) \/ (b = true /\ moves gs' = moves gs + 1).
Proof.
  unfold foundation_to_tableau.
  destruct (index (foundations gs) src) as [[nf fpile]| |]; simpl; [|done..].
  destruct (pop fpile) as [[rest card]|]; [|done].
  destruct (index (tableaus gs) idx) as [[nt pile]| |]; simpl; [|done..].
  destruct (can_place_on_tableau _ _); intros [= <- <-]; [by right|by left].
Qed.

Lemma place_inv gs src zone idx gs' b :
  place gs src zone idx = Ok (gs', b) ->
  (b = false /\ gs' = gs) \/ (b = true /\ moves gs' = moves gs + 1).
Proof.
  destruct src, zone; simpl; try (intros [= <- <-]; by left).
  - intros [[??]|[-> (?&?&?&?&?&?&?&->)]]%move_waste_to_foundation_inv; [by left|by right].
  - intros [[??]|[-> (?&?&?&?&?&?&?&->)]]%move_waste_to_tableau_inv; [by left|by right].
  - apply foundation_to_tableau_inv.
  - intros [[??]|[-> (?&?&?&?&?&?&?&?&?&?&->)]]%move_tableau_to_foundation_inv;
      [by left|by right].
  - intros [[??]|[-> H]]%move_tableau_to_tableau_inv; [by left|right].
    destruct H as (?&?&?&?&?&?&?&?&?&?&?&H). simpl in H.
    destruct H as (?&?&?&?&?&->). done.
Qed.

Lemma select_or_move_rollback g src g' :
  sel g = Some src -> (length (undo_stack g) < 200)%nat ->
  select_or_move g = Ok g' ->
  moves (state g') = moves (state g) ->
  undo_stack g' = undo_stack g /\ state g' = state g.
Proof.
  intros Hsel Hlen. unfold select_or_move. destruct (cursor g) as [zone idx].
  rewrite Hsel. unfold push_undo. rewrite length_app. simpl.
  destruct (Nat.ltb_spec 200 (length (undo_stack g) + 1)) as [|_]; [lia|].
  cbn [state with_undo_stack].
  destruct (place (state g) src zone idx) as [[gs moved]| |] eqn:E; simpl; [|done..].
  apply place_inv in E as [[-> ->]|[-> Hm]].
  - rewrite pop_snoc. intros [= <-] _. simpl. by rewrite clone_id.
  - intros [= <-]. simpl. lia.
Qed.

(** A remark on the foundations: [move_waste_to_foundation] puts an ace on
    the first empty pile, whatever its suit, while
    [move_tableau_to_foundation] goes to the pile whose index is the card's
    suit.  The piles still hold one suit each, but with the ace of hearts
    (suit 1) on pile 0 the ace of spades can no longer leave a column. *)
Example ace_of_hearts_takes_pile_0 :
  (foundations <$> (fst <$> (match move_waste_to_foundation Examples.ace_on_waste with
                             | Ok r => Some r | _ => None end)))
  = Some [[mkCard 1 1 true]; []; []; []] /\
  move_tableau_to_foundation
    (with_tableaus [[mkCard 1 0 true]; []; []; []; []; []; []]
       (with_foundations [[mkCard 1 1 true]; []; []; []] Examples.empty_state)) 0
  = Ok (with_tableaus [[mkCard 1 0 true]; []; []; []; []; []; []]
          (with_foundations [[mkCard 1 1 true]; []; []; []] Examples.empty_state), false).
Proof. split; reflexivity. Qed.

(** ** The store: moves touch the live state only *)

Section Frame.
Variable gs : Store.ref.
Variable h0 : Store.Heap.
Variable o0 : Store.StateObj.
Hypothesis live0 : Store.states h0 !! gs = Some o0.

Local Abbreviation kept := (kept_in gs h0 o0).
Local Abbreviation tr := (framed gs h0 o0).
Local Abbreviation own_pile := (owns_pile h0 o0).
Local Abbreviation own_card := (owns_card h0 o0).
Local Abbreviation own_cards := (Forall (owns_card h0 o0)).
Local Abbreviation live_obj := (same_lists o0).
Local Abbreviation any := (fun _ => True).

Lemma kept_start : kept h0.
Proof.
  split; try done.
  - by exists o0.
  - intros r l c Hr Hl Hc. unfold Store.card_refs.
    apply list_elem_of_bind. exists r. split; [|done]. by rewrite Hl.
Qed.

Lemma tr_ret {A} (a : A) (φ : A -> Prop) : φ a -> tr (Store.ret a) φ.
Proof. intros Ha h a' h' Hk [= <- <-]. done. Qed.

Lemma tr_raise {A} e (φ : A -> Prop) : tr (Store.raise e) φ.
Proof. intros h a h' _ H. discriminate H. Qed.

Lemma tr_bind {A B} (m : Store.M A) (k : A -> Store.M B) φ ψ :
  tr m φ -> (forall a, φ a -> tr (k a) ψ) -> tr (Store.bind m k) ψ.
Proof.
  intros Hm Hk h b h' Hkept. unfold Store.bind.
  destruct (m h) as [[a h1]| |] eqn:E; [|done..].
  destruct (Hm h a h1 Hkept E) as [Hk1 Ha]. by apply (Hk a Ha).
Qed.

Lemma tr_weaken {A} (m : Store.M A) (φ ψ : A -> Prop) :
  tr m φ -> (forall a, φ a -> ψ a) -> tr m ψ.
Proof. intros Hm Hi h a h' Hk E. destruct (Hm h a h' Hk E). split; auto. Qed.

Lemma own_stock : own_pile (Store.o_stock o0).
Proof. unfold owns_pile, Store.pile_refs. left. Qed.

Lemma own_waste : own_pile (Store.o_waste o0).
Proof. unfold owns_pile, Store.pile_refs. right. left. Qed.

Lemma tr_get_state : tr (Store.get_state gs) live_obj.
Proof.
  intros h o h' Hk. unfold Store.get_state.
  destruct (kept_live gs h0 o0 h Hk) as (o' & -> & Ho). intros [= <- <-]. done.
Qed.

Lemma tr_get_card c : tr (Store.get_card c) (fun _ => True).
Proof.
  intros h a h' Hk. unfold Store.get_card.
  destruct (Store.cards h !! c); [|done]. by intros [= <- <-].
Qed.

Lemma tr_get_card_opt c : tr (Store.get_card_opt c) (fun _ => True).
Proof.
  destruct c as [c|]; simpl; [|by apply tr_ret].
  eapply tr_bind; [apply tr_get_card|]. intros cd _. by apply tr_ret.
Qed.

Lemma tr_get_pile_any p : tr (Store.get_pile p) (fun _ => True).
Proof.
  intros h l h' Hk. unfold Store.get_pile.
  destruct (Store.piles h !! p) as [l'|] eqn:E; [|done]. by intros [= <- <-].
Qed.

Lemma tr_get_pile p : own_pile p -> tr (Store.get_pile p) own_cards.
Proof.
  intros Hp h l h' Hk. unfold Store.get_pile.
  destruct (Store.piles h !! p) as [l'|] eqn:E; [|done]. intros [= <- <-].
  split; [done|]. apply Forall_forall. intros c Hc. by eapply (kept_own gs h0 o0 h Hk).
Qed.

Lemma tr_set_pile p l : own_pile p -> own_cards l -> tr (Store.set_pile p l) (fun _ => True).
Proof.
  intros Hp Hl h a h' Hk. unfold Store.set_pile.
  destruct (Store.piles h !! p) as [l'|] eqn:E; [|done]. intros [= <- <-].
  split; [|done]. destruct Hk as [K1 K2 K3 K4 K5 K6]. split; simpl; try done.
  - intros r Hr. rewrite list_lookup_insert_ne; [by apply K2|]. by intros ->.
  - intros r l0 c Hr. destruct (decide (r = p)) as [->|Hne].
    + rewrite list_lookup_insert_eq by (by eapply lookup_lt_Some).
      intros [= <-] Hc. rewrite Forall_forall in Hl. by apply Hl.
    + rewrite list_lookup_insert_ne by done. by apply K6.
Qed.

Lemma tr_set_face_up c b : own_card c -> tr (Store.set_face_up c b) (fun _ => True).
Proof.
  intros Hc h a h' Hk. unfold Store.set_face_up.
  destruct (Store.cards h !! c) as [cd|] eqn:E; [|done]. intros [= <- <-].
  split; [|done]. destruct Hk as [K1 K2 K3 K4 K5 K6]. split; simpl; try done.
  intros r Hr. rewrite list_lookup_insert_ne; [by apply K3|]. by intros ->.
Qed.

Lemma tr_incr_moves : tr (Store.incr_moves gs) (fun _ => True).
Proof.
  intros h a h' Hk. unfold Store.incr_moves.
  destruct (Store.states h !! gs) as [o|] eqn:E; [|done]. intros [= <- <-].
  split; [|done]. destruct Hk as [K1 K2 K3 K4 K5 K6]. split; simpl; try done.
  - intros r Hr. rewrite list_lookup_insert_ne by done. by apply K4.
  - destruct K5 as (o' & Ho' & K5). rewrite E in Ho'. injection Ho' as <-.
    exists (Store.with_o_moves (Store.o_moves o + 1) o). split; [|done].
    apply list_lookup_insert_eq. by eapply lookup_lt_Some.
Qed.

Lemma tr_outer_index f i :
  f = Store.o_foundations o0 \/ f = Store.o_tableaus o0 ->
  tr (Store.outer_index f i) own_pile.
Proof.
  intros Hf h p h' Hk. unfold Store.outer_index, Store.bind, Store.get_outer.
  destruct (Store.outers h !! f) as [l|] eqn:E; [|done].
  destruct (index l i) as [[n q]| |] eqn:Ei; [|done..].
  intros [= <- <-]. split; [done|].
  apply index_lookup in Ei. apply list_elem_of_lookup_2 in Ei.
  rewrite (kept_outers gs h0 o0 h Hk) in E.
  unfold owns_pile, Store.pile_refs. do 2 right. apply elem_of_app.
  destruct Hf as [->| ->]; rewrite E; simpl; [by left|by right].
Qed.

Lemma own_cards_top l c : own_cards l -> top l = Some c -> own_card c.
Proof.
  intros Hl [r ->]%top_Some. apply Forall_app in Hl as [_ Hl].
  by apply (Forall_singleton own_card).
Qed.

Lemma tr_pile_top p :
  own_pile p -> tr (Store.pile_top p) (fun t => forall c, t = Some c -> own_card c).
Proof.
  intros Hp. eapply tr_bind; [by apply tr_get_pile|]. intros l Hl.
  apply tr_ret. intros c Hc. by eapply own_cards_top.
Qed.

Lemma tr_pile_pop p : own_pile p -> tr (Store.pile_pop p) own_card.
Proof.
  intros Hp. eapply tr_bind; [by apply tr_get_pile|]. intros l Hl.
  destruct (pop l) as [[rest c]|] eqn:E; [|apply tr_raise].
  apply pop_Some in E as ->. apply Forall_app in Hl as [Hr Hc].
  apply (Forall_singleton own_card) in Hc.
  eapply tr_bind; [by apply tr_set_pile|]. intros _ _. by apply tr_ret.
Qed.

Lemma tr_pile_extend p cs :
  own_pile p -> own_cards cs -> tr (Store.pile_extend p cs) (fun _ => True).
Proof.
  intros Hp Hcs. eapply tr_bind; [by apply tr_get_pile|]. intros l Hl.
  apply tr_set_pile; [done|]. by apply Forall_app.
Qed.

Lemma tr_pile_append p c :
  own_pile p -> own_card c -> tr (Store.pile_append p c) (fun _ => True).
Proof.
  intros Hp Hc. eapply tr_bind; [by apply tr_get_pile|]. intros l Hl.
  apply tr_set_pile; [done|]. apply Forall_app. split; [done|]. by apply Forall_singleton.
Qed.

Lemma tr_pile_del p a b : own_pile p -> tr (Store.pile_del p a b) (fun _ => True).
Proof.
  intros Hp. eapply tr_bind; [by apply tr_get_pile|]. intros l Hl.
  apply tr_set_pile; [done|]. unfold del_slice. apply Forall_app. split.
  - by apply Forall_take.
  - by apply Forall_drop.
Qed.

Lemma tr_target_of p : tr (Store.target_of p) (fun _ => True).
Proof.
  unfold Store.target_of, Store.pile_top.
  eapply tr_bind; [eapply tr_bind; [apply tr_get_pile_any|]|].
  { intros l _. by apply (tr_ret _ (fun _ => True)). }
  intros t _. eapply tr_bind; [apply tr_get_card_opt|]. intros td _.
  destruct td as [cd|]; [destruct (face_up cd)|]; by apply tr_ret.
Qed.

Lemma tr_flip_if_needed p : own_pile p -> tr (Store.flip_if_needed p) (fun _ => True).
Proof.
  intros Hp. unfold Store.flip_if_needed.
  eapply tr_bind; [by apply tr_pile_top|]. intros [c|] Hc; [|by apply tr_ret].
  eapply tr_bind; [apply tr_get_card|]. intros cd _.
  destruct (face_up cd); [by apply tr_ret|]. apply tr_set_face_up. by apply Hc.
Qed.

Lemma tr_first_faceup_from l n : tr (Store.first_faceup_from l n) (fun _ => True).
Proof.
  induction n as [|n IH]; simpl; [by apply tr_ret|].
  destruct (l !! n) as [c|]; [|by apply tr_ret].
  eapply tr_bind; [apply tr_get_card|]. intros cd _.
  destruct (face_up cd); [done|by apply tr_ret].
Qed.

Lemma tr_waste_to_foundation_from card ss :
  own_card card -> tr (Store.waste_to_foundation_from gs card ss) (fun _ : bool => True).
Proof.
  intros Hcard. induction ss as [|s ss IH]; simpl; [by apply tr_ret|].
  eapply tr_bind; [apply tr_get_state|]. intros o (Ho1 & Ho2 & Ho3 & Ho4).
  eapply tr_bind; [apply tr_outer_index; by left|]. intros p Hp.
  eapply tr_bind; [by apply tr_pile_top|]. intros t Ht.
  eapply tr_bind; [apply tr_get_card|]. intros cd _.
  eapply tr_bind; [apply tr_get_card_opt|]. intros td _.
  case_match; [|done].
  eapply tr_bind; [apply tr_pile_pop; rewrite Ho2; apply own_waste|]. intros c Hc.
  eapply tr_bind; [by apply tr_pile_append|]. intros _ _.
  eapply tr_bind; [apply tr_incr_moves|]. intros _ _. by apply tr_ret.
Qed.

Lemma tr_move_waste_to_foundation :
  tr (Store.move_waste_to_foundation gs) (fun _ : bool => True).
Proof.
  unfold Store.move_waste_to_foundation.
  eapply tr_bind; [apply tr_get_state|]. intros o (Ho1 & Ho2 & Ho3 & Ho4).
  eapply tr_bind; [apply tr_pile_top; rewrite Ho2; apply own_waste|]. intros [card|] Ht.
  - apply tr_waste_to_foundation_from. by apply Ht.
  - by apply tr_ret.
Qed.

Lemma tr_move_waste_to_tableau col :
  tr (Store.move_waste_to_tableau gs col) (fun _ : bool => True).
Proof.
  unfold Store.move_waste_to_tableau.
  eapply tr_bind; [apply tr_get_state|]. intros o (Ho1 & Ho2 & Ho3 & Ho4).
  eapply tr_bind; [apply tr_pile_top; rewrite Ho2; apply own_waste|].
  intros [card|] Ht; [|by apply tr_ret].
  eapply tr_bind; [apply tr_outer_index; by right|]. intros p Hp.
  eapply tr_bind; [apply tr_target_of|]. intros target _.
  eapply tr_bind; [apply tr_get_card|]. intros cd _.
  case_match; [|by apply tr_ret].
  eapply tr_bind; [apply tr_pile_pop; rewrite Ho2; apply own_waste|]. intros c Hc.
  eapply tr_bind; [by apply tr_pile_append|]. intros _ _.
  eapply tr_bind; [apply tr_incr_moves|]. intros _ _. by apply tr_ret.
Qed.

Lemma tr_move_tableau_to_foundation col :
  tr (Store.move_tableau_to_foundation gs col) (fun _ : bool => True).
Proof.
  unfold Store.move_tableau_to_foundation.
  eapply tr_bind; [apply tr_get_state|]. intros o (Ho1 & Ho2 & Ho3 & Ho4).
  eapply tr_bind; [apply tr_outer_index; by right|]. intros p Hp.
  eapply tr_bind; [by apply tr_pile_top|]. intros [card|] Ht; [|by apply tr_ret].
  eapply tr_bind; [apply tr_get_card|]. intros cd _.
  case_match; [by apply tr_ret|].
  eapply tr_bind; [apply tr_outer_index; by left|]. intros fp Hfp.
  eapply tr_bind; [by apply tr_pile_top|]. intros ft _.
  eapply tr_bind; [apply tr_get_card_opt|]. intros ftd _.
  case_match; [|by apply tr_ret].
  eapply tr_bind; [by apply tr_pile_pop|]. intros c Hc.
  eapply tr_bind; [by apply tr_pile_append|]. intros _ _.
  eapply tr_bind; [by apply tr_flip_if_needed|]. intros _ _.
  eapply tr_bind; [apply tr_incr_moves|]. intros _ _. by apply tr_ret.
Qed.

Lemma tr_move_tableau_to_tableau src dst depth :
  tr (Store.move_tableau_to_tableau gs src dst depth) (fun _ : bool => True).
Proof.
  unfold Store.move_tableau_to_tableau. case_match; [by apply tr_ret|].
  eapply tr_bind; [apply tr_get_state|]. intros o (Ho1 & Ho2 & Ho3 & Ho4).
  eapply tr_bind; [apply tr_outer_index; by right|]. intros p Hp.
  eapply tr_bind; [by apply tr_get_pile|]. intros pile Hpile.
  destruct pile as [|c0 pile0] eqn:Epile; [by apply tr_ret|]. rewrite <- Epile in *.
  eapply tr_bind; [apply tr_first_faceup_from|]. intros ff _.
  case_match; [by apply tr_ret|]. case_match; [by apply tr_ret|].
  eapply tr_bind; [apply tr_outer_index; by right|]. intros dp Hdp.
  eapply tr_bind; [apply tr_target_of|]. intros target _.
  destruct (take _ _) as [|bottom others] eqn:Etake; [apply tr_raise|].
  eapply tr_bind; [apply tr_get_card|]. intros bd _.
  case_match; [by apply tr_ret|].
  eapply tr_bind.
  { apply tr_pile_extend; [done|]. rewrite <- Etake. by apply Forall_take, Forall_drop. }
  intros _ _. eapply tr_bind; [by apply tr_pile_del|]. intros _ _.
  eapply tr_bind; [apply tr_outer_index; by right|]. intros p' Hp'.
  eapply tr_bind; [by apply tr_flip_if_needed|]. intros _ _.
  eapply tr_bind; [apply tr_incr_moves|]. intros _ _. by apply tr_ret.
Qed.

Lemma tr_draw_loop k : tr (Store.draw_loop k (Store.o_stock o0) (Store.o_waste o0)) any.
Proof.
  induction k as [|k IH]; simpl; [by apply tr_ret|].
  eapply tr_bind; [apply tr_pile_pop, own_stock|]. intros c Hc.
  eapply tr_bind; [by apply tr_set_face_up|]. intros _ _.
  eapply tr_bind; [apply tr_pile_append; [apply own_waste|done]|]. intros _ _. done.
Qed.

Lemma tr_recycle_loop n : tr (Store.recycle_loop n (Store.o_stock o0) (Store.o_waste o0)) any.
Proof.
  induction n as [|n IH]; simpl.
  - eapply tr_bind; [apply tr_get_pile_any|]. intros [|c w] _; [by apply tr_ret|].
    intros h a h' _ H. discriminate H.
  - eapply tr_bind; [apply tr_get_pile_any|]. intros [|c0 w] _; [by apply tr_ret|].
    eapply tr_bind; [apply tr_pile_pop, own_waste|]. intros c Hc.
    eapply tr_bind; [by apply tr_set_face_up|]. intros _ _.
    eapply tr_bind; [apply tr_pile_append; [apply own_stock|done]|]. intros _ _. done.
Qed.

Lemma tr_draw_from_stock dc : tr (Store.draw_from_stock gs dc) (fun _ : bool => True).
Proof.
  unfold Store.draw_from_stock.
  eapply tr_bind; [apply tr_get_state|]. intros o (Ho1 & Ho2 & Ho3 & Ho4).
  rewrite Ho1, Ho2.
  eapply tr_bind; [apply tr_get_pile_any|]. intros [|c s] _.
  - eapply tr_bind; [apply tr_get_pile_any|]. intros [|c w] _; [by apply tr_ret|].
    eapply tr_bind; [apply tr_recycle_loop|]. intros _ _.
    eapply tr_bind; [apply tr_incr_moves|]. intros _ _. by apply tr_ret.
  - eapply tr_bind; [apply tr_draw_loop|]. intros _ _.
    eapply tr_bind; [apply tr_incr_moves|]. intros _ _. by apply tr_ret.
Qed.

Lemma tr_run_move m : tr (Store.run_move m gs) (fun _ : bool => True).
Proof.
  destruct m; simpl.
  - apply tr_draw_from_stock.
  - apply tr_move_waste_to_foundation.
  - apply tr_move_waste_to_tableau.
  - apply tr_move_tableau_to_foundation.
  - apply tr_move_tableau_to_tableau.
Qed.
End Frame.

(** A move on [gs] keeps every object outside [gs]. *)
Lemma run_move_kept m gs h o b h' :
  Store.states h !! gs = Some o ->
  Store.run_move m gs h = Ok (b, h') -> kept_in gs h o h'.
Proof.
  intros Ho E. by destruct (tr_run_move gs h o m h b h' (kept_start gs h o Ho) E).
Qed.

(** ** The store: reading a state back *)

Lemma all_some_ext {A B} (f g : A -> option B) (l : list A) :
  (forall x, x ∈ l -> f x = g x) -> Store.all_some (f <$> l) = Store.all_some (g <$> l).
Proof.
  induction l as [|x l IH]; intros H; csimpl; [done|].
  rewrite (H x) by left. rewrite IH; [done|]. intros y Hy. apply H. by right.
Qed.

Lemma all_some_valid {A B} (f : A -> option B) (l : list A) r x :
  Store.all_some (f <$> l) = Some r -> x ∈ l -> is_Some (f x).
Proof.
  revert r. induction l as [|y l IH]; intros r H Hx; [by apply elem_of_nil in Hx|].
  csimpl in H. destruct (f y) as [b|] eqn:E; [|done].
  destruct (Store.all_some (f <$> l)) as [r'|] eqn:E'; [|done].
  apply elem_of_cons in Hx as [->|Hx]; [by rewrite E|]. by eapply IH.
Qed.

Lemma read_pile_same h h' p :
  Store.piles h' !! p = Store.piles h !! p ->
  (forall l c, Store.piles h !! p = Some l -> c ∈ l ->
     Store.cards h' !! c = Store.cards h !! c) ->
  Store.read_pile h' p = Store.read_pile h p.
Proof.
  intros Hp Hc. unfold Store.read_pile. rewrite Hp.
  destruct (Store.piles h !! p) as [l|] eqn:E; [|done].
  apply all_some_ext. intros c Hin. by eapply Hc.
Qed.

Lemma read_outer_same h h' f :
  Store.outers h' !! f = Store.outers h !! f ->
  (forall l p, Store.outers h !! f = Some l -> p ∈ l ->
     Store.read_pile h' p = Store.read_pile h p) ->
  Store.read_outer h' f = Store.read_outer h f.
Proof.
  intros Hf Hp. unfold Store.read_outer. rewrite Hf.
  destruct (Store.outers h !! f) as [l|] eqn:E; [|done].
  apply all_some_ext. intros p Hin. by eapply Hp.
Qed.

Lemma elem_of_card_refs h o p l c :
  p ∈ Store.pile_refs h o -> Store.piles h !! p = Some l -> c ∈ l ->
  c ∈ Store.card_refs h o.
Proof.
  intros Hp Hl Hc. unfold Store.card_refs. apply list_elem_of_bind.
  exists p. split; [|done]. by rewrite Hl.
Qed.

(** A state that shares nothing with [gs] reads the same after a move on
    [gs]. *)
Lemma read_state_kept gs h o h' s :
  kept_in gs h o h' -> Store.states h !! gs = Some o -> Store.separate h gs s ->
  Store.read_state h' s = Store.read_state h s.
Proof.
  intros [K1 K2 K3 K4 _ _] Ho (Hne & o1 & os & Ho1 & Hos & Sp & Sc & _).
  rewrite Ho in Ho1. injection Ho1 as <-.
  unfold Store.read_state. rewrite K4, Hos by done.
  assert (forall p, p ∈ Store.pile_refs h os ->
            Store.read_pile h' p = Store.read_pile h p) as Hpile.
  { intros p Hp. apply read_pile_same.
    - apply K2. intros Hin. by apply (Sp p Hin).
    - intros l c Hl Hc. apply K3. intros Hin. apply (Sc c Hin).
      by eapply elem_of_card_refs. }
  assert (forall f, f = Store.o_foundations os \/ f = Store.o_tableaus os ->
            Store.read_outer h' f = Store.read_outer h f) as Houter.
  { intros f Hf. apply read_outer_same; [by rewrite K1|].
    intros l p Hl Hp. apply Hpile. unfold Store.pile_refs. do 2 right.
    apply elem_of_app. destruct Hf as [->| ->]; rewrite Hl; simpl; [by left|by right]. }
  rewrite (Hpile (Store.o_stock os)) by (unfold Store.pile_refs; left).
  rewrite (Hpile (Store.o_waste os)) by (unfold Store.pile_refs; right; left).
  rewrite (Houter (Store.o_foundations os)) by (by left).
  rewrite (Houter (Store.o_tableaus os)) by (by right).
  done.
Qed.

(** *** Copies are new objects *)

Lemma ext_refl h : ext h h.
Proof. repeat split; exists []; by rewrite app_nil_r. Qed.

Lemma ext_trans h1 h2 h3 : ext h1 h2 -> ext h2 h3 -> ext h1 h3.
Proof.
  intros ([a1 A1] & [b1 B1] & [c1 C1] & [d1 D1]) ([a2 A2] & [b2 B2] & [c2 C2] & [d2 D2]).
  repeat split.
  - exists (a1 ++ a2). by rewrite A2, A1, app_assoc.
  - exists (b1 ++ b2). by rewrite B2, B1, app_assoc.
  - exists (c1 ++ c2). by rewrite C2, C1, app_assoc.
  - exists (d1 ++ d2). by rewrite D2, D1, app_assoc.
Qed.

Lemma ext_cards h h' c x : ext h h' -> Store.cards h !! c = Some x -> Store.cards h' !! c = Some x.
Proof. intros ([a ->] & _) H. by apply lookup_app_l_Some. Qed.

Lemma ext_piles h h' p x : ext h h' -> Store.piles h !! p = Some x -> Store.piles h' !! p = Some x.
Proof. intros (_ & [a ->] & _) H. by apply lookup_app_l_Some. Qed.

Lemma ext_outers h h' p x :
  ext h h' -> Store.outers h !! p = Some x -> Store.outers h' !! p = Some x.
Proof. intros (_ & _ & [a ->] & _) H. by apply lookup_app_l_Some. Qed.

Lemma ext_states h h' p x :
  ext h h' -> Store.states h !! p = Some x -> Store.states h' !! p = Some x.
Proof. intros (_ & _ & _ & [a ->]) H. by apply lookup_app_l_Some. Qed.

Lemma ext_lengths h h' :
  ext h h' ->
  (length (Store.cards h) <= length (Store.cards h'))%nat /\
  (length (Store.piles h) <= length (Store.piles h'))%nat /\
  (length (Store.outers h) <= length (Store.outers h'))%nat /\
  (length (Store.states h) <= length (Store.states h'))%nat.
Proof.
  intros ([a ->] & [b ->] & [c ->] & [d ->]). rewrite !length_app. lia.
Qed.

Lemma read_pile_ext h h' p v :
  ext h h' -> Store.read_pile h p = Some v -> Store.read_pile h' p = Some v.
Proof.
  intros He H. rewrite <- H. unfold Store.read_pile in *.
  destruct (Store.piles h !! p) as [l|] eqn:E; [|done].
  rewrite (ext_piles _ _ _ _ He E). apply all_some_ext. intros c Hc.
  destruct (all_some_valid _ _ _ _ H Hc) as [x Hx]. rewrite Hx. by eapply ext_cards.
Qed.

Lemma read_outer_ext h h' f v :
  ext h h' -> Store.read_outer h f = Some v -> Store.read_outer h' f = Some v.
Proof.
  intros He H. rewrite <- H. unfold Store.read_outer in *.
  destruct (Store.outers h !! f) as [l|] eqn:E; [|done].
  rewrite (ext_outers _ _ _ _ He E). apply all_some_ext. intros p Hp.
  destruct (all_some_valid _ _ _ _ H Hp) as [x Hx]. rewrite Hx. by eapply read_pile_ext.
Qed.

Lemma read_state_ext h h' s v :
  ext h h' -> Store.read_state h s = Some v -> Store.read_state h' s = Some v.
Proof.
  intros He H. unfold Store.read_state in *.
  destruct (Store.states h !! s) as [o|] eqn:E; [|done].
  rewrite (ext_states _ _ _ _ He E).
  destruct (Store.read_pile h (Store.o_stock o)) as [a|] eqn:E1; [|done].
  destruct (Store.read_pile h (Store.o_waste o)) as [b|] eqn:E2; [|done].
  destruct (Store.read_outer h (Store.o_foundations o)) as [c|] eqn:E3; [|done].
  destruct (Store.read_outer h (Store.o_tableaus o)) as [d|] eqn:E4; [|done].
  by rewrite (read_pile_ext _ _ _ _ He E1), (read_pile_ext _ _ _ _ He E2),
    (read_outer_ext _ _ _ _ He E3), (read_outer_ext _ _ _ _ He E4).
Qed.

Lemma read_fresh_cards (pre v : list Card) :
  Store.all_some ((fun c => (pre ++ v) !! c) <$> seq (length pre) (length v)) = Some v.
Proof.
  revert pre. induction v as [|x v IH]; intros pre; [done|].
  cbn [length seq]. rewrite fmap_cons. cbn [Store.all_some].
  rewrite lookup_app_r, Nat.sub_diag by done. cbn [lookup list_lookup].
  specialize (IH (pre ++ [x])). rewrite <- app_assoc, length_app in IH.
  cbn [length app] in IH. rewrite Nat.add_1_r in IH. by rewrite IH.
Qed.

Lemma bind_Ok {A B} (m : Store.M A) (k : A -> Store.M B) h a h1 :
  m h = Ok (a, h1) -> Store.bind m k h = k a h1.
Proof. intros E. unfold Store.bind. by rewrite E. Qed.

Lemma copy_cards_spec l h cds :
  Store.all_some ((fun c => Store.cards h !! c) <$> l) = Some cds ->
  Store.for_each
    (fun c => Store.bind (Store.get_card c)
                (fun cd => Store.new_card (mkCard (value cd) (suit cd) (face_up cd)))) l h
  = Ok (seq (length (Store.cards h)) (length l),
        Store.mkHeap (Store.cards h ++ cds) (Store.piles h) (Store.outers h) (Store.states h)).
Proof.
  revert h cds. induction l as [|c l IH]; intros h cds H.
  - simpl in H. injection H as <-. simpl. unfold Store.ret. rewrite app_nil_r. by destruct h.
  - csimpl in H. destruct (Store.cards h !! c) as [cd|] eqn:Ec; [|done].
    destruct (Store.all_some _) as [r|] eqn:Er; [|done]. injection H as <-.
    cbn [Store.for_each].
    erewrite bind_Ok.
    2:{ erewrite bind_Ok; [|unfold Store.get_card; rewrite Ec; reflexivity].
        unfold Store.new_card. reflexivity. }
    erewrite bind_Ok.
    2:{ apply IH. rewrite <- Er. apply all_some_ext. intros c' Hc'. cbn [Store.cards].
        destruct (all_some_valid _ _ _ _ Er Hc') as [x Hx]. rewrite Hx.
        by apply lookup_app_l_Some. }
    unfold Store.ret. cbn [Store.cards Store.piles Store.outers Store.states length].
    rewrite length_app. cbn [length]. rewrite Nat.add_1_r, <- app_assoc.
    by destruct cd.
Qed.

Lemma fresh_pile_ext h0 h h' h'' p :
  ext h0 h -> ext h' h'' -> fresh_pile h h' p -> fresh_pile h0 h'' p.
Proof.
  intros H0 H2 (Hp & l & Hl & Hc). pose proof (ext_lengths _ _ H0) as (L1 & L2 & _).
  split; [lia|]. exists l. split; [by eapply ext_piles|].
  eapply Forall_impl; [done|]. simpl. intros; lia.
Qed.

Lemma copy_pile_spec h p v :
  Store.read_pile h p = Some v ->
  exists h',
    Store.copy_pile p h = Ok (length (Store.piles h), h') /\
    ext h h' /\ Store.outers h' = Store.outers h /\ Store.states h' = Store.states h /\
    Store.read_pile h' (length (Store.piles h)) = Some v /\
    fresh_pile h h' (length (Store.piles h)).
Proof.
  intros H. unfold Store.read_pile in H.
  destruct (Store.piles h !! p) as [l|] eqn:E; [|done].
  eexists. split.
  { unfold Store.copy_pile.
    erewrite bind_Ok; [|unfold Store.get_pile; rewrite E; reflexivity].
    erewrite bind_Ok; [|by apply copy_cards_spec].
    unfold Store.new_pile. cbn [Store.cards Store.piles Store.outers Store.states].
    reflexivity. }
  assert (length l = length v) as Hlen.
  { clear E. revert v H. induction l as [|c l IH]; intros v H; csimpl in H.
    - by injection H as <-.
    - destruct (Store.cards h !! c); [|done].
      destruct (Store.all_some _) as [r|] eqn:Er; [|done]. injection H as <-.
      simpl. f_equal. by apply IH. }
  split.
  { repeat split; simpl; eexists; try done; by rewrite app_nil_r. }
  split; [done|]. split; [done|]. split.
  - unfold Store.read_pile. simpl. rewrite lookup_app_r, Nat.sub_diag by done. simpl.
    rewrite Hlen. apply read_fresh_cards.
  - split; [done|]. eexists. split.
    + simpl. by rewrite lookup_app_r, Nat.sub_diag.
    + apply Forall_forall. intros c Hc. apply elem_of_seq in Hc. lia.
Qed.

Lemma copy_piles_spec ps h vs :
  Store.all_some (Store.read_pile h <$> ps) = Some vs ->
  exists ps' h',
    Store.for_each Store.copy_pile ps h = Ok (ps', h') /\
    ext h h' /\ Store.outers h' = Store.outers h /\ Store.states h' = Store.states h /\
    Store.all_some (Store.read_pile h' <$> ps') = Some vs /\
    Forall (fresh_pile h h') ps'.
Proof.
  revert h vs. induction ps as [|p ps IH]; intros h vs H.
  - csimpl in H. injection H as <-. exists [], h. split; [done|].
    split; [apply ext_refl|]. done.
  - csimpl in H. destruct (Store.read_pile h p) as [v|] eqn:Ev; [|done].
    destruct (Store.all_some _) as [r|] eqn:Er; [|done]. injection H as <-.
    destruct (copy_pile_spec h p v Ev) as (h1 & E1 & X1 & O1 & S1 & R1 & F1).
    destruct (IH h1 r) as (ps' & h2 & E2 & X2 & O2 & S2 & R2 & F2).
    { rewrite <- Er. apply all_some_ext. intros q Hq.
      destruct (all_some_valid _ _ _ _ Er Hq) as [x Hx]. rewrite Hx.
      by eapply read_pile_ext. }
    exists (length (Store.piles h) :: ps'), h2.
    split.
    { cbn [Store.for_each]. erewrite bind_Ok; [|done]. erewrite bind_Ok; [|done]. done. }
    split; [by eapply ext_trans|]. split; [congruence|]. split; [congruence|].
    split.
    { csimpl. rewrite (read_pile_ext _ _ _ _ X2 R1), R2. done. }
    constructor.
    + eapply fresh_pile_ext; [apply ext_refl|done|done].
    + eapply Forall_impl; [done|]. intros q Hq.
      eapply fresh_pile_ext; [done|apply ext_refl|done].
Qed.

Lemma copy_outer_spec h f vs :
  Store.read_outer h f = Some vs ->
  exists ps' h',
    Store.copy_outer f h = Ok (length (Store.outers h), h') /\
    ext h h' /\ Store.states h' = Store.states h /\
    Store.outers h' = Store.outers h ++ [ps'] /\
    Store.read_outer h' (length (Store.outers h)) = Some vs /\
    Forall (fresh_pile h h') ps'.
Proof.
  intros H. unfold Store.read_outer in H.
  destruct (Store.outers h !! f) as [ps|] eqn:E; [|done].
  destruct (copy_piles_spec ps h vs H) as (ps' & h1 & E1 & X1 & O1 & S1 & R1 & F1).
  exists ps'. eexists. split.
  { unfold Store.copy_outer.
    erewrite bind_Ok; [|unfold Store.get_outer; rewrite E; reflexivity].
    erewrite bind_Ok; [|done]. unfold Store.new_outer. rewrite O1. reflexivity. }
  assert (ext h1 (Store.mkHeap (Store.cards h1) (Store.piles h1)
                    (Store.outers h ++ [ps']) (Store.states h1))) as Hx.
  { repeat split; simpl; eexists; rewrite <- ?O1; try done; by rewrite app_nil_r. }
  split; [eapply ext_trans; [exact X1|exact Hx]|]. split; [done|]. split; [done|].
  split.
  - unfold Store.read_outer. simpl. rewrite lookup_app_r, Nat.sub_diag by done. simpl.
    rewrite <- R1. apply all_some_ext. intros q Hq.
    by apply read_pile_same.
  - eapply Forall_impl; [done|]. intros q Hq.
    eapply fresh_pile_ext; [apply ext_refl|apply Hx|done].
Qed.

(** The references of a readable state name objects of the store. *)
Lemma read_pile_valid h p v :
  Store.read_pile h p = Some v ->
  exists l, Store.piles h !! p = Some l /\
            Forall (fun c => (c < length (Store.cards h))%nat) l.
Proof.
  unfold Store.read_pile. destruct (Store.piles h !! p) as [l|]; [|done].
  intros H. exists l. split; [done|]. apply Forall_forall. intros c Hc.
  destruct (all_some_valid _ _ _ _ H Hc) as [x Hx]. by eapply lookup_lt_Some.
Qed.

Lemma read_outer_valid h f v :
  Store.read_outer h f = Some v ->
  exists ps, Store.outers h !! f = Some ps /\
             Forall (fun p => exists w, Store.read_pile h p = Some w) ps.
Proof.
  unfold Store.read_outer. destruct (Store.outers h !! f) as [ps|]; [|done].
  intros H. exists ps. split; [done|]. apply Forall_forall. intros p Hp.
  by destruct (all_some_valid _ _ _ _ H Hp) as [x Hx]; exists x.
Qed.

(** [clone] builds a state that reads as the original and is made of new
    objects only; the original is untouched. *)
Lemma clone_spec h gs v :
  Store.read_state h gs = Some v ->
  exists h',
    Store.clone gs h = Ok (length (Store.states h), h') /\
    ext h h' /\
    Store.read_state h' (length (Store.states h)) = Some v /\
    Store.read_state h' gs = Some v /\
    Store.separate h' gs (length (Store.states h)).
Proof.
  intros H. pose proof H as H0. unfold Store.read_state in H.
  destruct (Store.states h !! gs) as [o|] eqn:Eo; [|done].
  destruct (Store.read_pile h (Store.o_stock o)) as [vs|] eqn:E1; [|done].
  destruct (Store.read_pile h (Store.o_waste o)) as [vw|] eqn:E2; [|done].
  destruct (Store.read_outer h (Store.o_foundations o)) as [vf|] eqn:E3; [|done].
  destruct (Store.read_outer h (Store.o_tableaus o)) as [vt|] eqn:E4; [|done].
  injection H as <-.
  destruct (copy_pile_spec h _ vs E1) as (h1 & C1 & X1 & O1 & S1 & R1 & F1).
  destruct (copy_pile_spec h1 (Store.o_waste o) vw) as (h2 & C2 & X2 & O2 & S2 & R2 & F2);
    [by eapply read_pile_ext|].
  destruct (copy_outer_spec h2 (Store.o_foundations o) vf)
    as (pf & h3 & C3 & X3 & S3 & O3 & R3 & F3);
    [eapply read_outer_ext; [|done]; by eapply ext_trans|].
  destruct (copy_outer_spec h3 (Store.o_tableaus o) vt)
    as (pt & h4 & C4 & X4 & S4 & O4 & R4 & F4);
    [eapply read_outer_ext; [|done]; eapply ext_trans; [|done]; by eapply ext_trans|].
  set (o' := Store.mkStateObj (length (Store.piles h)) (length (Store.piles h1))
               (length (Store.outers h2)) (length (Store.outers h3))
               (Store.o_moves o) (Store.o_start_time o) (Store.o_won o)).
  set (h5 := Store.mkHeap (Store.cards h4) (Store.piles h4) (Store.outers h4)
               (Store.states h4 ++ [o'])).
  assert (ext h4 h5) as X5.
  { repeat split; simpl; eexists; try done; by rewrite app_nil_r. }
  assert (ext h h2) as X02 by (by eapply ext_trans).
  assert (ext h h3) as X03 by (by eapply ext_trans).
  assert (ext h h4) as X04 by (by eapply ext_trans).
  assert (ext h h5) as X05 by (by eapply ext_trans).
  assert (Store.states h4 = Store.states h) as S04 by congruence.
  exists h5. split.
  { unfold Store.clone.
    erewrite bind_Ok; [|unfold Store.get_state; rewrite Eo; reflexivity].
    erewrite bind_Ok; [|done]. erewrite bind_Ok; [|done].
    erewrite bind_Ok; [|done]. erewrite bind_Ok; [|done].
    unfold Store.new_state. subst h5. rewrite S04. done. }
  split; [done|].
  assert (Store.states h5 !! length (Store.states h) = Some o') as Eo'.
  { subst h5. simpl. by rewrite S04, lookup_app_r, Nat.sub_diag. }
  split.
  { unfold Store.read_state. rewrite Eo'. subst o'. simpl.
    rewrite (read_pile_ext h1 h5 _ vs), (read_pile_ext h2 h5 _ vw),
      (read_outer_ext h3 h5 _ vf), (read_outer_ext h4 h5 _ vt); try done.
    - by eapply ext_trans.
    - eapply ext_trans; [done|]. by eapply ext_trans.
    - eapply ext_trans; [done|]. eapply ext_trans; [done|]. by eapply ext_trans. }
  split; [by eapply read_state_ext|].
  (* separation *)
  destruct (read_pile_valid _ _ _ E1) as (ls & Els & Vs).
  destruct (read_pile_valid _ _ _ E2) as (lw & Elw & Vw).
  destruct (read_outer_valid _ _ _ E3) as (psf & Ef & Vf).
  destruct (read_outer_valid _ _ _ E4) as (pst & Et & Vt).
  assert (forall p, p ∈ Store.pile_refs h5 o ->
            (p < length (Store.piles h))%nat /\
            exists l, Store.piles h5 !! p = Some l /\
                      Forall (fun c => (c < length (Store.cards h))%nat) l) as Hold.
  { intros p. unfold Store.pile_refs.
    rewrite (ext_outers _ _ _ _ X05 Ef), (ext_outers _ _ _ _ X05 Et). simpl.
    rewrite !elem_of_cons, elem_of_app.
    assert (forall q w, Store.read_pile h q = Some w ->
              (q < length (Store.piles h))%nat /\
              exists l, Store.piles h5 !! q = Some l /\
                        Forall (fun c => (c < length (Store.cards h))%nat) l) as Hq.
    { intros q w Hw. destruct (read_pile_valid _ _ _ Hw) as (l & El & Vl).
      split; [by eapply lookup_lt_Some|]. exists l. split; [by eapply ext_piles|done]. }
    intros [->|[->|[Hin|Hin]]]; [by eapply Hq|by eapply Hq| |].
    - rewrite Forall_forall in Vf. destruct (Vf p Hin) as [w Hw]. by eapply Hq.
    - rewrite Forall_forall in Vt. destruct (Vt p Hin) as [w Hw]. by eapply Hq. }
  assert (forall p, p ∈ Store.pile_refs h5 o' -> fresh_pile h h5 p) as Hnew.
  { intros p. unfold Store.pile_refs. subst o'. cbn [Store.o_stock Store.o_waste
      Store.o_foundations Store.o_tableaus].
    assert (Store.outers h5 !! length (Store.outers h2) = Some pf) as ->.
    { apply (ext_outers h3 h5); [by eapply ext_trans|].
      by rewrite O3, lookup_app_r, Nat.sub_diag. }
    assert (Store.outers h5 !! length (Store.outers h3) = Some pt) as ->.
    { apply (ext_outers h4 h5); [done|]. by rewrite O4, lookup_app_r, Nat.sub_diag. }
    simpl. rewrite !elem_of_cons, elem_of_app.
    assert (ext h3 h5) as X35 by (eapply ext_trans; [exact X4|exact X5]).
    assert (ext h2 h5) as X25 by (eapply ext_trans; [exact X3|exact X35]).
    assert (ext h1 h5) as X15 by (eapply ext_trans; [exact X2|exact X25]).
    intros [->|[->|[Hin|Hin]]].
    - exact (fresh_pile_ext _ _ _ _ _ (ext_refl h) X15 F1).
    - exact (fresh_pile_ext _ _ _ _ _ X1 X25 F2).
    - rewrite Forall_forall in F3. exact (fresh_pile_ext _ _ _ _ _ X02 X35 (F3 p Hin)).
    - rewrite Forall_forall in F4. exact (fresh_pile_ext _ _ _ _ _ X03 X5 (F4 p Hin)). }
  split.
  { apply lookup_lt_Some in Eo. lia. }
  exists o, o'. split; [by eapply ext_states|]. split; [done|].
  split; [|split].
  - intros r Hr Hr'. destruct (Hold r Hr) as [Hlt _]. destruct (Hnew r Hr') as [Hge _]. lia.
  - intros c Hc Hc'. unfold Store.card_refs in Hc, Hc'.
    apply list_elem_of_bind in Hc as (p & Hcp & Hp).
    apply list_elem_of_bind in Hc' as (p' & Hcp' & Hp').
    destruct (Hold p Hp) as (_ & l & El & Vl). destruct (Hnew p' Hp') as (_ & l' & El' & Vl').
    rewrite El in Hcp. rewrite El' in Hcp'. simpl in Hcp, Hcp'.
    rewrite Forall_forall in Vl, Vl'. specialize (Vl c Hcp). specialize (Vl' c Hcp'). lia.
  - intros r. unfold Store.outer_refs. subst o'. simpl.
    rewrite !elem_of_cons, !elem_of_nil.
    apply lookup_lt_Some in Ef, Et.
    pose proof (ext_lengths _ _ X02) as (_ & _ & L2 & _).
    pose proof (ext_lengths _ _ X03) as (_ & _ & L3 & _).
    intros [->|[->|[]]] [Hq|[Hq|[]]]; lia.
Qed.

(** ** Undo *)

(** C6.  Let the live state read as [v].  [push_undo] puts on the undo
    stack a snapshot that reads as [v] and shares no card, pile or state
    object with the live state, which it leaves as it was.  After any of the
    five move operations, with any arguments, has then succeeded on the live
    state, [undo] makes the snapshot the live state, and it still reads as
    [v]: every pile with its face flags, [moves], [start_time] and [won] are
    those from before the move.  Unless the push had to evict the oldest of
    200 snapshots, the undo stack is back to what it was. *)
Theorem undo_restores (h : Store.Heap) (g : Store.GameObj) (v : GameState) (m : Store.Move) :
  Store.read_state h (Store.g_state g) = Some v ->
  exists g1 h1 snapshot,
    Store.push_undo g h = Ok (g1, h1) /\
    Store.g_state g1 = Store.g_state g /\
    top (Store.g_undo_stack g1) = Some snapshot /\
    Store.read_state h1 (Store.g_state g1) = Some v /\
    Store.read_state h1 snapshot = Some v /\
    Store.separate h1 (Store.g_state g1) snapshot /\
    ((length (Store.g_undo_stack g) < 200)%nat ->
       Store.g_undo_stack (Store.undo g1) = Store.g_undo_stack g) /\
    forall h2,
      Store.run_move m (Store.g_state g1) h1 = Ok (true, h2) ->
      Store.g_state (Store.undo g1) = snapshot /\
      Store.read_state h2 (Store.g_state (Store.undo g1)) = Some v.
Proof.
  intros Hv.
  destruct (clone_spec h (Store.g_state g) v Hv) as (h1 & Hc & Hx & Rs & Rl & Sep).
  set (snapshot := length (Store.states h)) in *.
  set (stack := Store.g_undo_stack g ++ [snapshot]).
  set (g1 := Store.mkGameObj (Store.g_state g)
               (if (200 <? length stack)%nat then drop 1 stack else stack)).
  assert (pop (Store.g_undo_stack g1) =
            Some (if (200 <? length stack)%nat then drop 1 (Store.g_undo_stack g)
                  else Store.g_undo_stack g, snapshot)) as Hpop.
  { subst g1 stack. simpl. rewrite length_app. simpl.
    destruct (Nat.ltb_spec 200 (length (Store.g_undo_stack g) + 1)) as [Hlt|Hge].
    - destruct (Store.g_undo_stack g) as [|s0 st] eqn:Est; [simpl in Hlt; lia|].
      simpl. rewrite drop_0. apply pop_snoc.
    - apply pop_snoc. }
  exists g1, h1, snapshot. split.
  { unfold Store.push_undo. erewrite bind_Ok; [|exact Hc]. done. }
  split; [done|]. split; [unfold top; by rewrite Hpop|].
  split; [done|]. split; [done|]. split; [done|]. split.
  { intros Hlen. unfold Store.undo. rewrite Hpop. simpl. subst stack.
    rewrite length_app. simpl.
    destruct (Nat.ltb_spec 200 (length (Store.g_undo_stack g) + 1)); [lia|done]. }
  intros h2 Hm. unfold Store.undo. rewrite Hpop. simpl. split; [done|].
  destruct Sep as (Hne & o & os & Ho & Hos & Hsep).
  rewrite <- Rs. eapply read_state_kept.
  - eapply run_move_kept; [exact Ho|exact Hm].
  - exact Ho.
  - split; [done|]. by exists o, os.
Qed.

Lemma undo_restores_witness :
  exists g1 h1 h2,
    Store.push_undo (Store.mkGameObj 0 []) Examples.loaded_deal = Ok (g1, h1) /\
    Store.run_move (Store.Draw 3) (Store.g_state g1) h1 = Ok (true, h2) /\
    Store.read_state h2 (Store.g_state (Store.undo g1)) = Some Examples.plain_deal.
Proof.
  destruct (undo_restores Examples.loaded_deal (Store.mkGameObj 0 []) Examples.plain_deal
              (Store.Draw 3)) as (g1 & h1 & snap & Hp & _ & _ & _ & _ & _ & _ & Hm).
  - vm_compute. reflexivity.
  - exists g1, h1.
    destruct (Store.run_move (Store.Draw 3) (Store.g_state g1) h1) as [[[|] h2]| |] eqn:E.
    + exists h2. split; [exact Hp|]. split; [reflexivity|]. exact (proj2 (Hm h2 eq_refl)).
    + exfalso. vm_compute in Hp. injection Hp as <- <-. vm_compute in E. discriminate E.
    + exfalso. vm_compute in Hp. injection Hp as <- <-. vm_compute in E. discriminate E.
    + exfalso. vm_compute in Hp. injection Hp as <- <-. vm_compute in E. discriminate E.
Defined.

(** The two versions of the engine agree on the sample tables: a move run
    on the store built from a table reads back as the move on the table. *)
Example store_agrees_with_values :
  Forall (fun t => run_on_loaded t.1 t.2 = move_on_value t.1 t.2) Examples.trials.
Proof. repeat constructor. Qed.
(** * Further properties of the engine *)

(** ** Moving a run: what the code does *)

Lemma index_at {A} (l : list A) (i : Z) (x : A) :
  0 <= i -> l !! Z.to_nat i = Some x -> index l i = Ok (Z.to_nat i, x).
Proof.
  intros Hi Hx. pose proof (lookup_lt_Some _ _ _ Hx) as Hlt.
  destruct (index_in_range l i) as (y & Hy & ->); [lia|]. congruence.
Qed.

Lemma length_face_up_run pile :
  length (face_up_run pile) = (length pile - first_faceup pile)%nat.
Proof. unfold face_up_run. by rewrite length_drop. Qed.

Lemma tableau_to_tableau_cases (gs : GameState) (src dst depth : Z)
    (pile dpile : list Card) :
  0 <= src -> 0 <= dst ->
  tableaus gs !! Z.to_nat src = Some pile ->
  tableaus gs !! Z.to_nat dst = Some dpile ->
  let run := face_up_run pile in
  let d := Z.to_nat depth in
  let legal :=
    src <> dst /\ 1 <= depth <= Z.of_nat (length run) /\
    exists bottom, head run = Some bottom /\
                   can_place_on_tableau bottom (target_of dpile) = true in
  (legal ->
   exists gs',
     move_tableau_to_tableau gs src dst depth = Ok (gs', true) /\
     tableaus gs' !! Z.to_nat dst = Some (dpile ++ take d run) /\
     tableaus gs' !! Z.to_nat src =
       Some (flip_if_needed (take (first_faceup pile) pile ++ drop d run)) /\
     (forall i, i <> Z.to_nat src -> i <> Z.to_nat dst ->
                tableaus gs' !! i = tableaus gs !! i) /\
     stock gs' = stock gs /\ waste gs' = waste gs /\ foundations gs' = foundations gs /\
     moves gs' = moves gs + 1 /\ start_time gs' = start_time gs /\ won gs' = won gs) /\
  (~ legal -> move_tableau_to_tableau gs src dst depth = Ok (gs, false)).
Proof.
  intros Hs Hd Hp Hdp run d legal.
  pose proof (lookup_lt_Some _ _ _ Hp) as Hls.
  pose proof (lookup_lt_Some _ _ _ Hdp) as Hld.
  pose proof (first_faceup_le pile) as Hff.
  pose proof (length_face_up_run pile) as Hrun. fold run in Hrun.
  unfold move_tableau_to_tableau.
  destruct (Z.eqb_spec src dst) as [->|Hne].
  { split; [by intros [? _]|done]. }
  rewrite (index_at _ _ _ Hs Hp). cbn [res_bind].
  destruct (decide (pile = [])) as [->|Hnil].
  { split; [|done]. intros (_ & Hdepth & _). simpl in Hdepth. lia. }
  assert (forall (X : res (GameState * bool)),
            match pile with [] => Ok (gs, false) | _ :: _ => X end = X) as Hm
    by (intros X; by destruct pile).
  rewrite Hm.
  destruct (Nat.leb_spec (length pile) (first_faceup pile)) as [Hge|Hlt].
  { split; [|done]. intros (_ & Hdepth & _). lia. }
  fold (face_up_run pile). fold run.
  destruct (Z.ltb_spec depth 1) as [Hd1|Hd1]; cbn [orb].
  { split; [|done]. intros (_ & Hdepth & _). lia. }
  destruct (Z.ltb_spec (Z.of_nat (length run)) depth) as [Hd2|Hd2].
  { split; [|done]. intros (_ & Hdepth & _). lia. }
  rewrite (index_at _ _ _ Hd Hdp). cbn [res_bind]. fold d.
  destruct run as [|bottom others] eqn:Erun; [simpl in *; lia|].
  assert (exists others', take d (bottom :: others) = bottom :: others') as [others' Ht].
  { destruct d as [|d'] eqn:Ed; [lia|]. simpl. eauto. }
  rewrite Ht.
  destruct (can_place_on_tableau bottom (target_of dpile)) eqn:Ecan; cbn [negb].
  2:{ split; [|done]. intros (_ & _ & b & [= <-] & Hb). congruence. }
  assert (Z.to_nat src <> Z.to_nat dst) as Hnn by lia.
  split.
  2:{ intros Hnot. exfalso. apply Hnot. split; [done|]. split; [lia|]. by exists bottom. }
  intros _. eexists. split; [reflexivity|].
  cbn [tableaus with_moves with_tableaus stock waste foundations moves start_time won].
  split.
  { rewrite !list_lookup_alter_ne by done. by rewrite list_lookup_insert_eq. }
  split.
  { rewrite !list_lookup_alter_eq. rewrite list_lookup_insert_ne by done.
    rewrite Hp. simpl. f_equal. f_equal. unfold del_slice. f_equal.
    rewrite <- Erun. unfold run, face_up_run. by rewrite drop_drop. }
  split; [|done].
  intros i Hi1 Hi2. rewrite !list_lookup_alter_ne by done.
  by rewrite list_lookup_insert_ne.
Qed.

(** X1.  [move_tableau_to_tableau] between two columns given by subscripts
    that are not negative.  The move is made exactly when the columns
    differ, [depth] lies between 1 and the length of the face-up run at the
    tail of the source, and the lowest card of that run fits on the
    destination.  It then takes the [depth] lowest cards of the run (not
    the topmost ones), appends them in order to the destination, leaves the
    face-down cards and the rest of the run on the source with the last
    card turned face up, adds one to [moves] and touches nothing else.  In
    every other case it returns [False] and the state is unchanged. *)
Theorem tableau_to_tableau_moves_lowest (gs : GameState) (src dst depth : Z)
    (pile dpile : list Card) :
  0 <= src -> 0 <= dst ->
  tableaus gs !! Z.to_nat src = Some pile ->
  tableaus gs !! Z.to_nat dst = Some dpile ->
  let run := face_up_run pile in
  let d := Z.to_nat depth in
  let legal :=
    src <> dst /\ 1 <= depth <= Z.of_nat (length run) /\
    exists bottom, head run = Some bottom /\
                   can_place_on_tableau bottom (target_of dpile) = true in
  (legal ->
   exists gs',
     move_tableau_to_tableau gs src dst depth = Ok (gs', true) /\
     tableaus gs' !! Z.to_nat dst = Some (dpile ++ take d run) /\
     tableaus gs' !! Z.to_nat src =
       Some (flip_if_needed (take (first_faceup pile) pile ++ drop d run)) /\
     (forall i, i <> Z.to_nat src -> i <> Z.to_nat dst ->
                tableaus gs' !! i = tableaus gs !! i) /\
     stock gs' = stock gs /\ waste gs' = waste gs /\ foundations gs' = foundations gs /\
     moves gs' = moves gs + 1 /\ start_time gs' = start_time gs /\ won gs' = won gs) /\
  (~ legal -> move_tableau_to_tableau gs src dst depth = Ok (gs, false)).
Proof. apply tableau_to_tableau_cases. Qed.

Lemma tableau_to_tableau_moves_lowest_witness :
  (exists gs',
     move_tableau_to_tableau Examples.buried_run 0 1 2 = Ok (gs', true) /\
     tableaus gs' !! 1%nat = Some [mkCard 6 3 true; mkCard 5 1 true; mkCard 4 0 true] /\
     tableaus gs' !! 0%nat = Some [mkCard 9 0 true]) /\
  move_tableau_to_tableau Examples.buried_run 0 1 3 = Ok (Examples.buried_run, false).
Proof.
  split.
  - destruct (tableau_to_tableau_moves_lowest Examples.buried_run 0 1 2
                [mkCard 9 0 false; mkCard 5 1 true; mkCard 4 0 true] [mkCard 6 3 true])
      as [H _]; [lia|lia|reflexivity|reflexivity|].
    destruct H as (gs' & H1 & H2 & H3 & _).
    { split; [lia|]. split; [vm_compute; split; discriminate|].
      exists (mkCard 5 1 true). split; reflexivity. }
    exists gs'. split; [exact H1|]. split; [exact H2|exact H3].
  - destruct (tableau_to_tableau_moves_lowest Examples.buried_run 0 1 3
                [mkCard 9 0 false; mkCard 5 1 true; mkCard 4 0 true] [mkCard 6 3 true])
      as [_ H]; [lia|lia|reflexivity|reflexivity|].
    apply H. intros (_ & [_ Hd] & _). vm_compute in Hd. by apply Hd.
Defined.

(** ** Where a waste card goes *)

Lemma foundation_check_redundant card t :
  can_place_on_foundation card t
  && match t with None => true | Some t' => suit t' =? suit card end
  = can_place_on_foundation card t.
Proof.
  destruct t as [t|]; simpl; [|by rewrite andb_true_r].
  destruct (Z.eqb_spec (suit card) (suit t)) as [->|]; simpl; [|done].
  by rewrite Z.eqb_refl, andb_true_r.
Qed.

Lemma waste_to_foundation_cases (gs : GameState) (rest : list Card) (card : Card) :
  length (foundations gs) = 4%nat ->
  waste gs = rest ++ [card] ->
  let fits := fun pile => can_place_on_foundation card (top pile) in
  (forall s pile,
     foundations gs !! s = Some pile -> fits pile = true ->
     (forall s' pile', (s' < s)%nat -> foundations gs !! s' = Some pile' ->
                       fits pile' = false) ->
     move_waste_to_foundation gs =
       Ok (with_moves (moves gs + 1)
             (with_waste rest
                (with_foundations (<[s := pile ++ [card]]> (foundations gs)) gs)), true)) /\
  (Forall (fun pile => fits pile = false) (foundations gs) ->
   move_waste_to_foundation gs = Ok (gs, false)).
Proof.
  intros Hlen Hw fits. unfold move_waste_to_foundation. rewrite Hw, pop_snoc.
  destruct (foundations gs) as [|p0 [|p1 [|p2 [|p3 [|]]]]] eqn:Ef; try done.
  cbn [waste_to_foundation_from]. rewrite Ef.
  change (index [p0; p1; p2; p3] 0) with (Ok (A := nat * list Card) (0%nat, p0)).
  change (index [p0; p1; p2; p3] 1) with (Ok (A := nat * list Card) (1%nat, p1)).
  change (index [p0; p1; p2; p3] 2) with (Ok (A := nat * list Card) (2%nat, p2)).
  change (index [p0; p1; p2; p3] 3) with (Ok (A := nat * list Card) (3%nat, p3)).
  cbn [res_bind]. rewrite !foundation_check_redundant.
  fold (fits p0) (fits p1) (fits p2) (fits p3). split.
  - intros s pile Hs Hfit Hfirst.
    destruct s as [|[|[|[|s]]]]; simplify_eq/=.
    + by rewrite Hfit.
    + rewrite (Hfirst 0%nat p0) by (lia || done). by rewrite Hfit.
    + rewrite (Hfirst 0%nat p0), (Hfirst 1%nat p1) by (lia || done). by rewrite Hfit.
    + rewrite (Hfirst 0%nat p0), (Hfirst 1%nat p1), (Hfirst 2%nat p2) by (lia || done).
      by rewrite Hfit.
  - intros Hall. repeat (apply Forall_cons in Hall as [-> Hall]). done.
Qed.

(** X2.  [move_waste_to_foundation] with four foundation piles and a waste
    that ends in [card].  The card goes to the first pile, in the order 0 to
    3, whose top accepts it: an ace to the first empty pile, whatever its
    suit, any other card to the pile that ends in the card one lower of its
    suit; [moves] goes up by one.  If no pile accepts the card the call
    returns [False] and the state is unchanged. *)
Theorem waste_to_foundation_first_fit (gs : GameState) (rest : list Card) (card : Card) :
  length (foundations gs) = 4%nat ->
  waste gs = rest ++ [card] ->
  let fits := fun pile => can_place_on_foundation card (top pile) in
  (forall s pile,
     foundations gs !! s = Some pile -> fits pile = true ->
     (forall s' pile', (s' < s)%nat -> foundations gs !! s' = Some pile' ->
                       fits pile' = false) ->
     move_waste_to_foundation gs =
       Ok (with_moves (moves gs + 1)
             (with_waste rest
                (with_foundations (<[s := pile ++ [card]]> (foundations gs)) gs)), true)) /\
  (Forall (fun pile => fits pile = false) (foundations gs) ->
   move_waste_to_foundation gs = Ok (gs, false)).
Proof. apply waste_to_foundation_cases. Qed.

Lemma waste_to_foundation_first_fit_witness :
  move_waste_to_foundation Examples.ace_on_waste =
    Ok (with_moves 1
          (with_waste [mkCard 13 0 true]
             (with_foundations [[mkCard 1 1 true]; []; []; []] Examples.ace_on_waste)), true) /\
  move_waste_to_foundation
    (with_waste [mkCard 13 0 true] Examples.ace_on_waste)
  = Ok (with_waste [mkCard 13 0 true] Examples.ace_on_waste, false).
Proof.
  split.
  - destruct (waste_to_foundation_first_fit Examples.ace_on_waste
                [mkCard 13 0 true] (mkCard 1 1 true)) as [H _]; [reflexivity..|].
    apply (H 0%nat []); [reflexivity..|]. intros s' pile' Hlt. lia.
  - destruct (waste_to_foundation_first_fit
                (with_waste [mkCard 13 0 true] Examples.ace_on_waste)
                [] (mkCard 13 0 true)) as [_ H]; [reflexivity..|].
    apply H. repeat constructor.
Defined.

(** ** Draw counts and column subscripts outside the expected range *)

(** X3.  With a non-empty stock and a draw count of zero or less,
    [draw_from_stock] moves no card and still returns [True] with [moves]
    one higher: the loop body never runs, the counting does. *)
Theorem draw_of_nothing_is_counted (gs : GameState) (draw_count : Z) :
  stock gs <> [] -> draw_count <= 0 ->
  draw_from_stock gs draw_count = Ok (with_moves (moves gs + 1) gs, true).
Proof.
  intros Hs Hdc. unfold draw_from_stock. destruct (stock gs) as [|c s] eqn:E; [done|].
  replace (Z.to_nat (Z.min draw_count (Z.of_nat (length (c :: s))))) with 0%nat by lia.
  simpl. rewrite <- E. by destruct gs.
Qed.

Lemma draw_of_nothing_is_counted_witness :
  draw_from_stock Examples.plain_deal (-1) =
    Ok (with_moves (moves Examples.plain_deal + 1) Examples.plain_deal, true).
Proof. apply draw_of_nothing_is_counted; [discriminate|lia]. Defined.

Lemma index_out_of_range {A} (l : list A) (i : Z) :
  i < - Z.of_nat (length l) \/ Z.of_nat (length l) <= i -> index l i = Raise IndexError.
Proof.
  intros H. unfold index, py_norm.
  destruct (Z.leb_spec 0 i).
  - destruct (Z.ltb_spec i (Z.of_nat (length l))); [lia|done].
  - destruct (Z.leb_spec 0 (Z.of_nat (length l) + i)); [lia|done].
Qed.

Lemma index_negative {A} (l : list A) (i : Z) :
  - Z.of_nat (length l) <= i < 0 -> index l i = index l (Z.of_nat (length l) + i).
Proof.
  intros H. unfold index, py_norm.
  destruct (Z.leb_spec 0 i); [lia|].
  destruct (Z.leb_spec 0 (Z.of_nat (length l) + i)); [|lia].
  destruct (Z.ltb_spec (Z.of_nat (length l) + i) (Z.of_nat (length l))); [done|lia].
Qed.

(** X4.  Column subscripts of the two moves that take one column, on a
    table of seven columns.  A subscript below -7 or above 6 raises
    [IndexError] in [move_tableau_to_foundation], and in
    [move_waste_to_tableau] once the waste holds a card; with an empty waste
    that call returns [False] before it looks at the column.  A subscript
    from -7 to -1 counts from the right: it acts as the subscript plus 7. *)
Theorem column_subscript_bounds (gs : GameState) (col : Z) :
  length (tableaus gs) = 7%nat ->
  (col < -7 \/ 7 <= col ->
   move_tableau_to_foundation gs col = Raise IndexError /\
   (waste gs <> [] -> move_waste_to_tableau gs col = Raise IndexError) /\
   (waste gs = [] -> move_waste_to_tableau gs col = Ok (gs, false))) /\
  (-7 <= col < 0 ->
   move_tableau_to_foundation gs col = move_tableau_to_foundation gs (col + 7) /\
   move_waste_to_tableau gs col = move_waste_to_tableau gs (col + 7)).
Proof.
  intros Hlen. split.
  - intros Hcol.
    assert (index (tableaus gs) col = Raise IndexError) as Hi
      by (apply index_out_of_range; lia).
    unfold move_tableau_to_foundation, move_waste_to_tableau. rewrite Hi.
    split; [done|]. split.
    + intros Hw. destruct (pop (waste gs)) as [[rest card]|] eqn:E; [done|].
      by apply pop_None in E.
    + by intros ->.
  - intros Hcol.
    assert (index (tableaus gs) col = index (tableaus gs) (col + 7)) as Hi.
    { rewrite index_negative by lia. f_equal. lia. }
    unfold move_tableau_to_foundation, move_waste_to_tableau. by rewrite Hi.
Qed.

Lemma column_subscript_bounds_witness :
  move_tableau_to_foundation Examples.four_aces 7 = Raise IndexError /\
  move_tableau_to_foundation Examples.four_aces (-7)
    = move_tableau_to_foundation Examples.four_aces 0.
Proof.
  destruct (column_subscript_bounds Examples.four_aces 7 eq_refl) as [H1 _].
  destruct (column_subscript_bounds Examples.four_aces (-7) eq_refl) as [_ H2].
  split.
  - apply H1. lia.
  - apply H2. lia.
Defined.

(** ** What a win is *)

Lemma length_concat_sum {A} (L : list (list A)) :
  length (concat L) = sum_list (length <$> L).
Proof. induction L as [|l L IH]; simpl; [done|]. by rewrite length_app, IH. Qed.

Lemma concat_nil_Forall {A} (L : list (list A)) :
  concat L = [] <-> Forall (fun p => p = []) L.
Proof.
  induction L as [|l L IH]; simpl; [by split|]. split.
  - intros [-> H]%app_eq_nil. constructor; [done|]. by apply IH.
  - intros [-> H]%Forall_cons. by apply IH.
Qed.

Lemma length_all_cards gs :
  length (all_cards gs) =
  (length (stock gs) + length (waste gs) + on_foundations gs
   + length (concat (tableaus gs)))%nat.
Proof.
  unfold all_cards, on_foundations. rewrite !length_app, length_concat_sum. lia.
Qed.

Lemma full_deck_length gs : full_deck gs -> length (all_cards gs) = 52%nat.
Proof.
  intros H. apply Permutation_length in H. by rewrite !length_fmap in H.
Qed.

Lemma ordered_deck_ranks :
  Forall (fun x : Z * Z => 1 <= x.1 <= 13 /\ 0 <= x.2 < 4) (ident <$> ordered_deck).
Proof. refine (bool_decide_unpack _ _). vm_compute. exact I. Qed.

Lemma full_deck_ranks gs c :
  full_deck gs -> c ∈ all_cards gs -> 1 <= value c <= 13 /\ 0 <= suit c < 4.
Proof.
  intros Hd Hc.
  assert (ident c ∈ ident <$> ordered_deck) as Hin.
  { unfold full_deck in Hd. rewrite <- Hd. by apply list_elem_of_fmap_2. }
  pose proof ordered_deck_ranks as H. rewrite Forall_forall in H. by apply H in Hin.
Qed.

Lemma elem_of_all_cards_foundation gs pile c :
  pile ∈ foundations gs -> c ∈ pile -> c ∈ all_cards gs.
Proof.
  intros Hp Hc. unfold all_cards. rewrite !elem_of_app. right. right. left.
  by apply (elem_of_concat _ _ pile).
Qed.

Lemma foundation_pile_short gs pile :
  full_deck gs -> pile ∈ foundations gs -> foundation_pile_ok pile ->
  (length pile <= 13)%nat.
Proof.
  intros Hd Hp [_ Hv].
  destruct pile as [|c0 pile0] using rev_ind; [simpl; lia|]. clear IHpile0.
  assert (1 <= value c0 <= 13) as Hr.
  { eapply full_deck_ranks; [done|]. eapply elem_of_all_cards_foundation; [done|].
    apply elem_of_app. right. by apply list_elem_of_singleton. }
  assert ((value <$> pile0 ++ [c0]) !! length pile0 = Some (value c0)) as Hl.
  { rewrite fmap_app. rewrite lookup_app_r by (rewrite length_fmap; lia).
    rewrite length_fmap, Nat.sub_diag. done. }
  rewrite Hv in Hl. apply lookup_seqZ in Hl as [Hl _].
  rewrite length_app in *. simpl in *. lia.
Qed.

(** X5.  On a table that holds the 52 cards in well-formed piles,
    [check_win] reports a win exactly when the stock, the waste and all
    seven columns are empty; each foundation pile then holds the thirteen
    ranks, ace to king, of one suit. *)
Theorem win_means_every_suit_complete (gs : GameState) :
  table_ok gs ->
  (snd (check_win gs) = true <->
   stock gs = [] /\ waste gs = [] /\ Forall (fun p => p = []) (tableaus gs)) /\
  (snd (check_win gs) = true ->
   Forall (fun pile => value <$> pile = seqZ 1 13 /\
                       exists u, Forall (fun c => suit c = u) pile) (foundations gs)).
Proof.
  intros Hok. pose proof (ok_deck _ Hok) as Hd.
  pose proof (full_deck_length _ Hd) as Hlen. rewrite length_all_cards in Hlen.
  assert (snd (check_win gs) = true <-> on_foundations gs = 52%nat) as Hw.
  { unfold check_win. fold (on_foundations gs).
    destruct (Nat.eqb_spec (on_foundations gs) 52); simpl; split; (done || lia). }
  split.
  - rewrite Hw. rewrite <- concat_nil_Forall. split.
    + intros H52. split_and!; apply length_zero_iff_nil; lia.
    + intros (Hs & Hwaste & Ht). rewrite Hs, Hwaste, Ht in Hlen. simpl in Hlen. lia.
  - intros H52%Hw.
    pose proof (ok_foundations _ Hok) as Hf. pose proof (ok_four _ Hok) as H4.
    assert (Forall (fun pile => (length pile <= 13)%nat) (foundations gs)) as Hshort.
    { apply Forall_forall. intros pile Hp. eapply foundation_pile_short; [done..|].
      rewrite Forall_forall in Hf. by apply Hf. }
    unfold on_foundations in H52.
    destruct (foundations gs) as [|p0 [|p1 [|p2 [|p3 [|]]]]]; try done.
    simpl in H52.
    repeat (apply Forall_cons in Hshort as [? Hshort]).
    assert (forall p, p ∈ [p0; p1; p2; p3] -> length p = 13%nat) as H13.
    { intros p Hp. simpl in *.
      repeat (apply elem_of_cons in Hp as [->|Hp]); [lia..|by apply elem_of_nil in Hp]. }
    apply Forall_forall. intros pile Hp.
    rewrite Forall_forall in Hf. destruct (Hf _ Hp) as [Hu Hv].
    rewrite (H13 _ Hp) in Hv. done.
Qed.

Lemma win_means_every_suit_complete_witness :
  (snd (check_win Examples.plain_deal) = true <->
   stock Examples.plain_deal = [] /\ waste Examples.plain_deal = [] /\
   Forall (fun p => p = []) (tableaus Examples.plain_deal)) /\
  (snd (check_win Examples.plain_deal) = true ->
   Forall (fun pile => value <$> pile = seqZ 1 13 /\
                       exists u, Forall (fun c => suit c = u) pile)
     (foundations Examples.plain_deal)).
Proof.
  apply win_means_every_suit_complete.
  destruct (deal_from_ok ordered_deck (float_of_Z 0)) as (gs & Hgs & Hok); [done|].
  unfold Examples.plain_deal. by rewrite Hgs.
Defined.

(** * The session *)

(** ** The table stays in order under every key *)

Lemma draw_from_stock_foundations gs dc gs' b :
  draw_from_stock gs dc = Ok (gs', b) -> foundations gs' = foundations gs.
Proof.
  unfold draw_from_stock. destruct (stock gs) as [|c s].
  - destruct (waste gs) as [|c w]; [by intros [= <- _]|].
    destruct (recycle_loop _ _ _). by intros [= <- _].
  - destruct (draw_loop _ _ _) as [[s' w']| |]; simpl; [|done..]. by intros [= <- _].
Qed.

Lemma move_step_face_up gs gs' :
  move_step gs gs' -> table_ok gs -> foundations_face_up gs -> foundations_face_up gs'.
Proof.
  unfold foundations_face_up. intros Hstep Hok Hf. destruct Hstep as [dc b H|b H|col b H|col b H|src dst depth b H].
  - by rewrite (draw_from_stock_foundations _ _ _ _ H).
  - apply move_waste_to_foundation_inv in H
      as [[_ ->]|[_ (rest & card & n & pile & Ew & Hn & Hp & ->)]]; [done|].
    simpl. apply Forall_insert; [done|]. apply Forall_app. split.
    + by eapply (Forall_lookup_1 _ _ _ _ Hf).
    + apply Forall_singleton. pose proof (ok_waste _ Hok) as Hw.
      rewrite Ew, Forall_app, Forall_singleton in Hw. by destruct Hw.
  - apply move_waste_to_tableau_inv in H
      as [[_ ->]|[_ (rest & card & n & pile & Ew & Hn & Hp & ->)]]; done.
  - apply move_tableau_to_foundation_inv in H
      as [[_ ->]|[_ (n & rest & card & s & fpile & Hn & Hup & _ & Hs & _ & ->)]]; [done|].
    simpl. apply Forall_insert; [done|]. apply Forall_app. split.
    + by eapply (Forall_lookup_1 _ _ _ _ Hf).
    + by apply Forall_singleton.
  - apply move_tableau_to_tableau_inv in H as [[_ ->]|[_ H]]; [done|].
    destruct H as (ns & nd & pile & dpile & bottom & others & _ & _ & _ & _ & _ & H).
    simpl in H. by destruct H as (_ & _ & _ & _ & _ & ->).
Qed.

Lemma move_step_play_ok gs gs' : move_step gs gs' -> play_ok gs -> play_ok gs'.
Proof.
  intros Hstep [Hok Hf]. split; [by eapply move_step_ok|by eapply move_step_face_up].
Qed.

Lemma reachable_play_ok gs0 gs : play_ok gs0 -> reachable_from gs0 gs -> play_ok gs.
Proof. intros H0. induction 1; [done|]. by eapply move_step_play_ok. Qed.

Lemma reachable_trans gs0 gs1 gs2 :
  reachable_from gs0 gs1 -> reachable_from gs1 gs2 -> reachable_from gs0 gs2.
Proof. intros H1. induction 1; [done|]. by eapply reach_step. Qed.

Lemma table_ok_well_formed gs : table_ok gs -> well_formed gs.
Proof.
  intros Hok. split; [by apply ok_four|]. split; [by apply ok_seven|].
  apply Forall_forall. intros pile Hp. apply Forall_forall. intros c Hc.
  eapply full_deck_ranks; [by apply ok_deck|].
  unfold all_cards. rewrite !elem_of_app. do 3 right.
  by apply (elem_of_concat _ _ pile).
Qed.

(** The sweep is a sequence of move operations. *)
Lemma sweep_columns_reach cols gs moved count gs' moved' count' :
  sweep_columns cols gs moved count = Ok (gs', moved', count') -> reachable_from gs gs'.
Proof.
  revert gs moved count. induction cols as [|col cols IH]; intros gs moved count; simpl.
  - intros [= <- _ _]. apply reach_start.
  - destruct (move_tableau_to_foundation gs col) as [[gs1 b]| |] eqn:E; simpl; [|done..].
    intros H. eapply reachable_trans.
    + eapply reach_step; [apply reach_start|]. by eapply step_tableau_to_foundation.
    + destruct b; by eapply IH.
Qed.

Lemma auto_move_pass_reach gs count gs' moved' count' :
  auto_move_pass gs count = Ok (gs', moved', count') -> reachable_from gs gs'.
Proof.
  unfold auto_move_pass.
  destruct (move_waste_to_foundation gs) as [[gs1 b]| |] eqn:E; cbn [res_bind]; [|done..].
  intros H. eapply reachable_trans.
  - eapply reach_step; [apply reach_start|]. by eapply step_waste_to_foundation.
  - destruct b; by eapply sweep_columns_reach.
Qed.

Lemma auto_move_loop_reach fuel gs count gs' count' :
  auto_move_loop fuel gs count = Ok (gs', count') -> reachable_from gs gs'.
Proof.
  revert gs count. induction fuel as [|fuel IH]; intros gs count; simpl; [done|].
  destruct (auto_move_pass gs count) as [[[gs1 moved] count1]| |] eqn:E; simpl; [|done..].
  intros H. eapply reachable_trans; [by eapply auto_move_pass_reach|].
  destruct moved; [by eapply IH|]. injection H as <- _. apply reach_start.
Qed.

Lemma move_step_stock gs gs' :
  move_step gs gs' ->
  start_time gs' = start_time gs /\ won gs' = won gs.
Proof.
  intros [dc b H|b H|col b H|col b H|src dst depth b H].
  - unfold draw_from_stock in H. destruct (stock gs) as [|c s].
    + destruct (waste gs) as [|c w]; [by injection H as <-|].
      destruct (recycle_loop _ _ _). by injection H as <-.
    + destruct (draw_loop _ _ _) as [[s' w']| |]; simpl in H; [|done..]. by injection H as <-.
  - apply move_waste_to_foundation_inv in H
      as [[_ ->]|[_ (rest & card & n & pile & Ew & Hn & Hp & ->)]]; done.
  - apply move_waste_to_tableau_inv in H
      as [[_ ->]|[_ (rest & card & n & pile & Ew & Hn & Hp & ->)]]; done.
  - apply move_tableau_to_foundation_inv in H
      as [[_ ->]|[_ (n & rest & card & s & fpile & Hn & Hup & _ & Hs & _ & ->)]]; done.
  - apply move_tableau_to_tableau_inv in H as [[_ ->]|[_ H]]; [done|].
    destruct H as (ns & nd & pile & dpile & bottom & others & _ & _ & _ & _ & _ & H).
    simpl in H. by destruct H as (_ & _ & _ & _ & _ & ->).
Qed.

Lemma reachable_won gs0 gs :
  reachable_from gs0 gs -> start_time gs = start_time gs0 /\ won gs = won gs0.
Proof.
  induction 1 as [|gs gs' _ [IH1 IH2] Hstep]; [done|].
  apply move_step_stock in Hstep as [-> ->]. done.
Qed.

(** ** The undo stack *)

Lemma drop_1_snoc {A} (l : list A) (x : A) :
  l <> [] -> drop 1 (l ++ [x]) = drop 1 l ++ [x].
Proof. by destruct l. Qed.

Lemma push_undo_stack g :
  (length (undo_stack g) <= 200)%nat ->
  undo_stack (push_undo g) =
    (if decide (length (undo_stack g) = 200%nat) then drop 1 (undo_stack g)
     else undo_stack g) ++ [state g] /\
  state (push_undo g) = state g /\ settings (push_undo g) = settings g /\
  sel (push_undo g) = sel g /\ cursor (push_undo g) = cursor g /\
  board (push_undo g) = board g.
Proof.
  intros Hb. unfold push_undo. rewrite clone_id, length_app. simpl.
  split; [|done].
  destruct (Nat.ltb_spec 200 (length (undo_stack g) + 1)) as [H|H];
    destruct (decide (length (undo_stack g) = 200%nat)) as [E|E]; try lia; [|done].
  apply drop_1_snoc. intros E'. by rewrite E' in E.
Qed.

(** X6.  [push_undo] on a stack of at most 200 snapshots.  The new
    snapshot, equal to the live state, goes on top; a stack that already
    holds 200 loses its oldest snapshot, so the stack never holds more than
    200; the live state is not touched, and [undo] right after brings back
    the state and, unless the oldest snapshot was dropped, the stack. *)
Theorem push_undo_bounded (g : Game) :
  (length (undo_stack g) <= 200)%nat ->
  let g1 := push_undo g in
  state g1 = state g /\
  undo_stack g1 =
    (if decide (length (undo_stack g) = 200%nat) then drop 1 (undo_stack g)
     else undo_stack g) ++ [state g] /\
  length (undo_stack g1) = (200 `min` S (length (undo_stack g)))%nat /\
  state (undo g1) = state g /\
  undo_stack (undo g1) =
    (if decide (length (undo_stack g) = 200%nat) then drop 1 (undo_stack g)
     else undo_stack g).
Proof.
  intros Hb g1. destruct (push_undo_stack g Hb) as (Hs & Hst & _).
  fold g1 in Hs, Hst. split; [done|]. split; [done|]. split.
  - rewrite Hs, length_app. cbn [length].
    destruct (decide (length (undo_stack g) = 200%nat)); [rewrite length_drop|]; lia.
  - unfold undo. rewrite Hs, pop_snoc. done.
Qed.

Lemma push_undo_bounded_witness :
  let g := Examples.new_game Examples.plain_deal in
  state (undo (push_undo g)) = state g /\ undo_stack (undo (push_undo g)) = [].
Proof.
  intros g. destruct (push_undo_bounded g) as (_ & _ & _ & H1 & H2); [simpl; lia|].
  split; [exact H1|exact H2].
Defined.

(** ** One key *)

Lemma cursor_cases c :
  c ∈ order ->
  c = (ZStock, 0) \/ c = (ZWaste, 0) \/
  (exists i, c = (ZFoundation, i) /\ 0 <= i < 4) \/
  (exists i, c = (ZTableau, i) /\ 0 <= i < 7).
Proof.
  unfold order. intros H.
  repeat (apply elem_of_cons in H as [->|H]);
    first [ by left
          | by (right; left)
          | by (right; right; left; eexists; split; [done|lia])
          | by (right; right; right; eexists; split; [done|lia])
          | by apply elem_of_nil in H ].
Qed.

Lemma cycle_cursor_in_order dx g :
  cursor g ∈ order -> dx = 1 \/ dx = -1 ->
  exists c, cycle_cursor 0 dx g = Ok (with_cursor c g) /\ c ∈ order.
Proof.
  intros H Hdx. unfold cycle_cursor. destruct (cursor g) as [z i] eqn:Ec. unfold order in H.
  repeat (apply elem_of_cons in H as [[= -> ->]|H]); [..|by apply elem_of_nil in H];
    destruct Hdx as [-> | ->]; (eexists; split; [reflexivity|]);
    unfold order; repeat constructor.
Qed.

Lemma play_ok_clone gs : play_ok (clone gs) <-> play_ok gs.
Proof. by rewrite clone_id. Qed.

Lemma move_outcome gs (r : res (GameState * bool)) :
  counted_or_noop gs r ->
  (forall gs' b, r = Ok (gs', b) -> move_step gs gs') ->
  play_ok gs ->
  exists gs' b, r = Ok (gs', b) /\ play_ok gs' /\ (b = false -> gs' = gs).
Proof.
  intros Hn Hstep Hok. destruct r as [[gs' b]| |]; [|done..].
  exists gs', b. split; [done|]. split; [eapply move_step_play_ok; eauto|].
  intros ->. done.
Qed.

Lemma seqZ_snoc (m : Z) (n : nat) :
  seqZ m (Z.of_nat (S n)) = seqZ m (Z.of_nat n) ++ [m + Z.of_nat n].
Proof.
  replace (Z.of_nat (S n)) with (Z.of_nat n + 1) by lia.
  rewrite seqZ_app by lia. done.
Qed.

Lemma foundation_pile_ok_pop rest card :
  foundation_pile_ok (rest ++ [card]) -> foundation_pile_ok rest.
Proof.
  intros [[u Hu] Hv]. apply Forall_app in Hu as [Hu _]. split; [by exists u|].
  rewrite fmap_app, length_app in Hv. simpl in Hv.
  replace (length rest + 1)%nat with (S (length rest)) in Hv by lia.
  rewrite seqZ_snoc in Hv. apply app_inj_1 in Hv as [Hv _]; [done|].
  rewrite length_fmap, length_seqZ. lia.
Qed.

Lemma foundation_to_tableau_full gs src idx gs' b :
  foundation_to_tableau gs src idx = Ok (gs', b) ->
  (b = false /\ gs' = gs) \/
  (b = true /\ exists nf rest card nt pile,
     foundations gs !! nf = Some (rest ++ [card]) /\
     tableaus gs !! nt = Some pile /\
     can_place_on_tableau card (target_of pile) = true /\
     gs' = with_moves (moves gs + 1)
             (with_foundations (<[nf := rest]> (foundations gs))
                (with_tableaus (<[nt := pile ++ [card]]> (tableaus gs)) gs))).
Proof.
  unfold foundation_to_tableau.
  destruct (index (foundations gs) src) as [[nf fpile]| |] eqn:Ef; simpl; [|done..].
  destruct (pop fpile) as [[rest card]|] eqn:Ep; [|done].
  destruct (index (tableaus gs) idx) as [[nt pile]| |] eqn:Et; simpl; [|done..].
  destruct (can_place_on_tableau _ _) eqn:Ec; intros [= <- <-]; [right|by left].
  split; [done|]. exists nf, rest, card, nt, pile.
  apply pop_Some in Ep as ->. apply index_lookup in Ef, Et. done.
Qed.

(** The placement from a foundation back to a column keeps the table in
    order. *)
Lemma foundation_to_tableau_play_ok gs src idx gs' b :
  foundation_to_tableau gs src idx = Ok (gs', b) -> play_ok gs -> play_ok gs'.
Proof.
  intros H [Hok Hup].
  apply foundation_to_tableau_full in H
    as [[_ ->]|[_ (nf & rest & card & nt & pile & Hf & Ht & Hc & ->)]]; [done|].
  destruct Hok as [Hdeck Hw Htab Hfound H4 H7].
  pose proof (Forall_lookup_1 _ _ _ _ Hup Hf) as Hfaces.
  apply Forall_app in Hfaces as [Hrest Hcard].
  split; [split|]; simpl; try done.
  - unfold full_deck in *. rewrite <- Hdeck. apply cnt_all. intros x.
    rewrite !cnt_all_cards. simpl.
    pose proof (cnt_concat_insert x _ _ _ rest Hf).
    pose proof (cnt_concat_insert x _ _ _ (pile ++ [card]) Ht).
    rewrite !cnt_app in *. lia.
  - apply Forall_insert; [done|].
    apply (tableau_shape_place pile [card] card); try done.
    by eapply (Forall_lookup_1 _ _ _ _ Htab).
  - apply Forall_insert; [done|]. apply (foundation_pile_ok_pop rest card).
    by eapply (Forall_lookup_1 _ _ _ _ Hfound).
  - by rewrite length_insert.
  - by rewrite length_insert.
  - unfold foundations_face_up. simpl. by apply Forall_insert.
Qed.

Lemma place_play_ok gs src zone idx :
  play_ok gs -> sel_ok (Some src) -> (zone, idx) ∈ order ->
  (exists gs' b, place gs src zone idx = Ok (gs', b) /\ play_ok gs' /\
                 (b = false -> gs' = gs)) \/
  (place gs src zone idx = Raise IndexError /\
   exists i, src = SelFoundation i /\ zone = ZTableau /\
             foundations gs !! Z.to_nat i = Some []).
Proof.
  intros Hok Hsel Hcur. pose proof Hok as [Htab Hup].
  pose proof (table_ok_well_formed _ Htab) as Hwf.
  pose proof (ok_four _ Htab) as H4. pose proof (ok_seven _ Htab) as H7.
  assert (exists gs' b, Ok (gs, false) = Ok (gs', b) /\ play_ok gs' /\ (b = false -> gs' = gs))
    as Hnoop by (by exists gs, false).
  apply cursor_cases in Hcur
    as [[= -> ->]|[[= -> ->]|[(i & [= -> ->] & Hi)|(i & [= -> ->] & Hi)]]];
    destruct src as [|j|col depth]; simpl in *; try (by left).
  - left. apply move_outcome; [by apply move_waste_to_foundation_noop| |done].
    intros gs' b E. by eapply step_waste_to_foundation.
  - left. apply move_outcome; [by apply move_tableau_to_foundation_noop| |done].
    intros gs' b E. by eapply step_tableau_to_foundation.
  - left. apply move_outcome; [apply move_waste_to_tableau_noop; lia| |done].
    intros gs' b E. by eapply step_waste_to_tableau.
  - destruct (index_in_range (foundations gs) j) as (fpile & Hf & Ef); [lia|].
    destruct (index_in_range (tableaus gs) i) as (pile & Hp & Ep); [lia|].
    destruct (foundation_to_tableau gs j i) as [[gs' b]|e|] eqn:E.
    + left. exists gs', b. split; [done|].
      split; [by eapply foundation_to_tableau_play_ok|].
      intros ->. by apply foundation_to_tableau_inv in E as [[_ ->]|[? _]].
    + right. unfold foundation_to_tableau in E. rewrite Ef in E. simpl in E.
      destruct (pop fpile) as [[rest card]|] eqn:Epop.
      * rewrite Ep in E. simpl in E. by destruct (can_place_on_tableau _ _).
      * injection E as <-. split; [done|]. exists j. apply pop_None in Epop as ->. done.
    + exfalso. unfold foundation_to_tableau in E. rewrite Ef in E. simpl in E.
      destruct (pop fpile) as [[rest card]|]; [|done].
      rewrite Ep in E. simpl in E. by destruct (can_place_on_tableau _ _).
  - left. apply move_outcome; [apply move_tableau_to_tableau_noop; lia| |done].
    intros gs' b E. by eapply step_tableau_to_tableau.
Qed.

Lemma pop_push_undo g :
  (length (undo_stack g) <= 200)%nat ->
  pop (undo_stack (push_undo g)) =
    Some (if decide (length (undo_stack g) = 200%nat) then drop 1 (undo_stack g)
          else undo_stack g, state g).
Proof.
  intros Hb. destruct (push_undo_stack g Hb) as (-> & _). by rewrite pop_snoc.
Qed.

Lemma deal_from_foundations deck now gs :
  deal_from deck now = Ok gs -> foundations gs = replicate 4 [].
Proof.
  unfold deal_from. destruct (deal_columns _ _ _) as [[deck1 tabs]| |]; simpl; [|done..].
  by intros [= <-].
Qed.

Lemma deal_from_play_ok deck now :
  deck ≡ₚ ordered_deck ->
  exists gs, deal_from deck now = Ok gs /\ play_ok gs /\ start_time gs = now.
Proof.
  intros Hdeck. destruct (deal_from_ok deck now Hdeck) as (gs & E & Hgs).
  exists gs. split; [done|]. split.
  - split; [done|]. unfold foundations_face_up. rewrite (deal_from_foundations _ _ _ E).
    repeat constructor.
  - unfold deal_from in E.
    destruct (deal_columns _ _ _) as [[deck1 tabs]| |]; simpl in E; [|done..].
    by injection E as <-.
Qed.

Lemma plain_deal_play_ok : play_ok Examples.plain_deal.
Proof.
  destruct (deal_from_play_ok ordered_deck (float_of_Z 0)) as (gs & Hgs & Hok & _); [done|].
  unfold Examples.plain_deal. by rewrite Hgs.
Qed.

(** ** The cursor *)

Lemma index_of_order i c : order !! i = Some c -> index_of c order = Ok i.
Proof.
  intros H. do 13 (destruct i as [|i]; [by injection H as <-|]). done.
Qed.

Lemma index_of_absent c l : c ∉ l -> index_of c l = Raise ValueError.
Proof.
  induction l as [|y l IH]; [done|]. intros [Hne Hl]%not_elem_of_cons. simpl.
  destruct c as [z i], y as [z' i']. simpl.
  destruct (zone_eqb z z') eqn:Ez; simpl.
  - destruct (Z.eqb_spec i i') as [->|]; [|by rewrite IH].
    destruct z, z'; try done.
  - by rewrite IH.
Qed.

Lemma with_cursor_id g : with_cursor (cursor g) g = g.
Proof. by destruct g. Qed.

Lemma with_cursor_twice c c' g : with_cursor c (with_cursor c' g) = with_cursor c g.
Proof. done. Qed.

Lemma cycle_cursor_step dy dx g i :
  order !! i = Some (cursor g) ->
  exists c,
    order !! Z.to_nat ((Z.of_nat i + dx) mod 13) = Some c /\
    cycle_cursor dy dx g = Ok (with_cursor c g).
Proof.
  intros Hi. unfold cycle_cursor. rewrite (index_of_order _ _ Hi). cbn [res_bind].
  rewrite Z.mul_0_r, Z.add_0_r.
  change (Z.of_nat (length order)) with 13.
  pose proof (Z.mod_pos_bound (Z.of_nat i + dx) 13 ltac:(lia)) as Hj.
  destruct (index_in_range order ((Z.of_nat i + dx) mod 13)) as (c & Hc & ->); [done|].
  by exists c.
Qed.

(** X11.  [cycle_cursor] on a cursor that is the [i]-th of the 13 places
    (stock, waste, four foundations, seven columns).  The cursor moves [dx]
    places to the right, wrapping around at both ends, [dy] is ignored, and
    moving back by [dx] returns to the place it came from.  A cursor that
    is none of the 13 places raises [ValueError]. *)
Theorem cursor_wraps_around (g : Game) (dy dx : Z) :
  (forall i, order !! i = Some (cursor g) ->
     exists c,
       order !! Z.to_nat ((Z.of_nat i + dx) mod 13) = Some c /\
       cycle_cursor dy dx g = Ok (with_cursor c g) /\
       cycle_cursor dy (- dx) (with_cursor c g) = Ok g) /\
  (cursor g ∉ order -> cycle_cursor dy dx g = Raise ValueError).
Proof.
  split.
  - intros i Hi. pose proof (lookup_lt_Some _ _ _ Hi) as Hlt.
    change (length order) with 13%nat in Hlt.
    destruct (cycle_cursor_step dy dx g i Hi) as (c & Hc & E).
    exists c. split; [done|]. split; [done|].
    pose proof (Z.mod_pos_bound (Z.of_nat i + dx) 13 ltac:(lia)) as Hj.
    destruct (cycle_cursor_step dy (- dx) (with_cursor c g)
                (Z.to_nat ((Z.of_nat i + dx) mod 13)) Hc) as (c' & Hc' & ->).
    rewrite Z2Nat.id in Hc' by lia.
    replace (((Z.of_nat i + dx) mod 13 + - dx) mod 13) with (Z.of_nat i) in Hc'.
    + rewrite Nat2Z.id, Hi in Hc'. injection Hc' as <-.
      by rewrite with_cursor_twice, with_cursor_id.
    + rewrite Zplus_mod_idemp_l.
      replace (Z.of_nat i + dx + - dx) with (Z.of_nat i) by lia.
      rewrite Z.mod_small; lia.
  - intros H. unfold cycle_cursor. by rewrite index_of_absent.
Qed.

Lemma cursor_wraps_around_witness :
  let g := with_cursor (ZTableau, 6) (Examples.new_game Examples.plain_deal) in
  cycle_cursor 0 1 g = Ok (with_cursor (ZStock, 0) g) /\
  cycle_cursor 0 1 (with_cursor (ZTableau, 7) g) = Raise ValueError.
Proof.
  intros g. split.
  - destruct (cursor_wraps_around g 0 1) as [H _].
    destruct (H 12%nat eq_refl) as (c & Hc & E & _).
    injection Hc as <-. exact E.
  - destruct (cursor_wraps_around (with_cursor (ZTableau, 7) g) 0 1) as [_ H].
    apply H. simpl. unfold order. intros Hin.
    repeat (apply elem_of_cons in Hin as [Hin|Hin]; [discriminate Hin|]).
    by apply elem_of_nil in Hin.
Defined.

(** ** Placements that fail *)

(** X12.  Enter with a selection, on an undo stack of at most 200
    snapshots.  A placement that succeeds leaves the snapshot of the state
    before it on the stack.  A placement that fails takes its snapshot
    back: the state is as before and so is the undo stack, unless the push
    had to drop the oldest of 200 snapshots, which is then lost.  In both
    cases the selection is cleared. *)
Theorem failed_placement_is_rolled_back (g : Game) (src : Selection) (zone : Zone)
    (idx : Z) (gs' : GameState) (moved : bool) :
  sel g = Some src -> cursor g = (zone, idx) ->
  (length (undo_stack g) <= 200)%nat ->
  place (state g) src zone idx = Ok (gs', moved) ->
  let kept := if decide (length (undo_stack g) = 200%nat) then drop 1 (undo_stack g)
              else undo_stack g in
  select_or_move g =
    Ok (if moved
        then with_sel None (with_state gs' (with_undo_stack (kept ++ [state g]) g))
        else with_sel None (with_undo_stack kept g)).
Proof.
  intros Hsel Hcur Hb Hplace kept. unfold select_or_move. rewrite Hcur, Hsel.
  destruct (push_undo_stack g Hb) as (E1 & E2 & _). rewrite E2, Hplace. cbn [res_bind].
  destruct moved.
  - f_equal. unfold push_undo in *. destruct g. simpl in *. by rewrite E1.
  - apply place_inv in Hplace as [[_ ->]|[? _]]; [|done].
    change (undo_stack (with_state (state g) (push_undo g))) with (undo_stack (push_undo g)).
    rewrite pop_push_undo by done. done.
Qed.

Lemma failed_placement_is_rolled_back_witness :
  let g := with_cursor (ZTableau, 0) (with_sel (Some SelWaste)
             (Examples.new_game Examples.plain_deal_drawn)) in
  select_or_move g = Ok (with_sel None g).
Proof.
  intros g.
  rewrite (failed_placement_is_rolled_back g SelWaste ZTableau 0 (state g) false);
    [reflexivity|reflexivity|reflexivity|simpl; lia|reflexivity].
Defined.

(** ** The depth of a selection *)

(** X13.  [adjust_depth] on a selected column, and the move that follows.
    The depth becomes [depth + delta] cut to the range from 1 to the length
    of the face-up run of the column (1 if there is no run), which is the
    range [move_tableau_to_tableau] accepts.  The move to another column
    then succeeds exactly when the lowest card of the run fits there: the
    depth decides how many cards go, never whether the move is made. *)
Theorem depth_stays_in_run (g : Game) (delta col depth : Z) (pile : list Card) :
  sel g = Some (SelTableau col depth) -> 0 <= col ->
  tableaus (state g) !! Z.to_nat col = Some pile ->
  let run := face_up_run pile in
  exists d,
    adjust_depth delta g = Ok (with_sel (Some (SelTableau col d)) g) /\
    d = Z.max 1 (Z.min (Z.of_nat (length run)) (depth + delta)) /\
    1 <= d /\ (run <> [] -> d <= Z.of_nat (length run)) /\
    forall dst dpile,
      0 <= dst -> dst <> col ->
      tableaus (state g) !! Z.to_nat dst = Some dpile ->
      exists gs',
        move_tableau_to_tableau (state g) col dst d =
          Ok (gs', match head run with
                   | Some bottom => can_place_on_tableau bottom (target_of dpile)
                   | None => false
                   end).
Proof.
  intros Hsel Hcol Hp run. unfold adjust_depth. rewrite Hsel.
  rewrite (index_at _ _ _ Hcol Hp). cbn [res_bind].
  pose proof (length_face_up_run pile) as Hlen. fold run in Hlen. rewrite <- Hlen.
  eexists. split; [reflexivity|]. split; [reflexivity|].
  split; [lia|]. split.
  { intros Hne. destruct run; [done|]. simpl. lia. }
  intros dst dpile Hdst Hne Hdp.
  destruct (tableau_to_tableau_cases (state g) col dst
              (Z.max 1 (Z.min (Z.of_nat (length run)) (depth + delta)))
              pile dpile Hcol Hdst Hp Hdp) as [Hyes Hno].
  fold run in Hyes, Hno.
  destruct run as [|bottom others] eqn:Erun; simpl.
  - exists (state g). apply Hno. intros (_ & Hd & _). simpl in Hd. lia.
  - destruct (can_place_on_tableau bottom (target_of dpile)) eqn:Ecan.
    + destruct Hyes as (gs' & E & _); [|by exists gs'].
      split; [done|]. split; [simpl length; lia|]. by exists bottom.
    + exists (state g). apply Hno. intros (_ & _ & b & [= <-] & Hb). congruence.
Qed.

Lemma depth_stays_in_run_witness :
  let g := with_sel (Some (SelTableau 0 1)) (Examples.new_game Examples.buried_run) in
  adjust_depth 5 g = Ok (with_sel (Some (SelTableau 0 2)) g) /\
  exists gs', move_tableau_to_tableau (state g) 0 1 2 = Ok (gs', true).
Proof.
  intros g.
  destruct (depth_stays_in_run g 5 0 1 [mkCard 9 0 false; mkCard 5 1 true; mkCard 4 0 true])
    as (d & E & -> & _ & _ & H); [reflexivity|lia|reflexivity|].
  split; [exact E|].
  destruct (H 1 [mkCard 6 3 true]) as (gs' & E'); [lia|lia|reflexivity|].
  exists gs'. exact E'.
Defined.

(** ** Hints *)

Lemma succeeds_waste_to_tableau gs col w pile :
  0 <= col -> top (waste gs) = Some w ->
  tableaus gs !! Z.to_nat col = Some pile ->
  succeeds (move_waste_to_tableau gs col) <->
  can_place_on_tableau w (target_of pile) = true.
Proof.
  intros Hcol Hw Hp.
  assert (exists gs1, move_waste_to_tableau gs col =
            if can_place_on_tableau w (target_of pile) then Ok (gs1, true)
            else Ok (gs, false)) as [gs1 E].
  { unfold move_waste_to_tableau. apply top_Some in Hw as [rest Hw].
    rewrite Hw, pop_snoc, (index_at _ _ _ Hcol Hp). cbn [res_bind].
    eexists. by destruct (can_place_on_tableau w (target_of pile)). }
  unfold succeeds. rewrite E. destruct (can_place_on_tableau w (target_of pile)).
  - split; [done|]. intros _. by eexists.
  - split; [by intros [gs' [= ]]|done].
Qed.

Lemma succeeds_waste_to_tableau_empty gs col :
  top (waste gs) = None -> ~ succeeds (move_waste_to_tableau gs col).
Proof.
  intros Hw%top_None. unfold succeeds, move_waste_to_tableau. rewrite Hw. simpl.
  by intros [gs' [= ]].
Qed.

Lemma succeeds_tableau_to_foundation gs col pile :
  0 <= col -> tableaus gs !! Z.to_nat col = Some pile ->
  Forall (fun c => 0 <= suit c < Z.of_nat (length (foundations gs))) pile ->
  succeeds (move_tableau_to_foundation gs col) <->
  exists t fpile,
    top pile = Some t /\ face_up t = true /\
    foundations gs !! Z.to_nat (suit t) = Some fpile /\
    can_place_on_foundation t (top fpile) = true.
Proof.
  intros Hcol Hp Hs.
  assert (forall gs', move_tableau_to_foundation gs col = Ok (gs', true) <->
            match pop pile with
            | Some (rest, t) =>
                face_up t = true /\
                exists fpile, foundations gs !! Z.to_nat (suit t) = Some fpile /\
                  can_place_on_foundation t (top fpile) = true /\
                  gs' = with_moves (moves gs + 1)
                          (with_tableaus (<[Z.to_nat col := flip_if_needed rest]> (tableaus gs))
                             (with_foundations
                                (<[Z.to_nat (suit t) := fpile ++ [t]]> (foundations gs)) gs))
            | None => False
            end) as E.
  { intros gs'. unfold move_tableau_to_foundation.
    rewrite (index_at _ _ _ Hcol Hp). cbn [res_bind].
    destruct (pop pile) as [[rest t]|] eqn:Epop; [|done].
    apply pop_Some in Epop as ->.
    apply Forall_app in Hs as [_ Ht]. rewrite Forall_singleton in Ht.
    destruct (index_in_range (foundations gs) (suit t) Ht) as (fpile & Hf & ->).
    cbn [res_bind]. destruct (face_up t); cbn [negb]; [|by split; [|intros [? _]]].
    destruct (can_place_on_foundation t (top fpile)) eqn:Ecan.
    - split.
      + intros [= <-]. split; [done|]. by exists fpile.
      + intros (_ & fp & Hf' & _ & ->). by simplify_eq.
    - split; [done|]. intros (_ & fp & Hf' & Hc & _). congruence. }
  unfold succeeds. split.
  - intros [gs' H%E]. destruct (pop pile) as [[rest t]|] eqn:Epop; [|done].
    destruct H as (Hup & fpile & Hf & Hc & _). exists t, fpile.
    apply pop_Some in Epop as ->. by rewrite top_snoc.
  - intros (t & fpile & Ht & Hup & Hf & Hc). apply top_Some in Ht as [rest ->].
    eexists. apply E. rewrite pop_snoc. split; [done|]. by exists fpile.
Qed.

Lemma hint_waste_columns_spec gs w cols tips :
  Forall (fun col => 0 <= col < Z.of_nat (length (tableaus gs))) cols ->
  exists more,
    hint_waste_columns gs w cols tips = Ok (tips ++ more) /\
    forall z i, (z, i) ∈ more <->
      z = ZTableau /\ i ∈ cols /\
      exists pile, tableaus gs !! Z.to_nat i = Some pile /\
                   can_place_on_tableau w (target_of pile) = true.
Proof.
  intros Hcols. revert tips. induction Hcols as [|col cols Hcol _ IH]; intros tips.
  - exists []. rewrite app_nil_r. split; [done|]. intros z i. split.
    + by intros ?%elem_of_nil.
    + by intros (_ & ?%elem_of_nil & _).
  - simpl. destruct (index_in_range (tableaus gs) col Hcol) as (pile & Hp & ->).
    cbn [res_bind]. destruct (can_place_on_tableau w (target_of pile)) eqn:Ecan.
    + destruct (IH (tips ++ [(ZTableau, col)])) as (more & -> & Hmore).
      exists ((ZTableau, col) :: more). rewrite <- app_assoc. split; [done|].
      intros z i. rewrite elem_of_cons, Hmore, elem_of_cons. split.
      * intros [[= -> ->]|(-> & Hi & Hx)]; [|by auto]. split; [done|]. split; [by left|].
        by exists pile.
      * intros (-> & [->|Hi] & Hx); [by left|right; auto].
    + destruct (IH tips) as (more & -> & Hmore). exists more. split; [done|].
      intros z i. rewrite Hmore, elem_of_cons. split.
      * intros (-> & Hi & Hx). auto.
      * intros (-> & [->|Hi] & Hx); [|auto].
        destruct Hx as (pile' & Hp' & Hc). congruence.
Qed.

Lemma hint_tableau_columns_spec gs cols tips :
  Forall (fun col => 0 <= col < Z.of_nat (length (tableaus gs))) cols ->
  Forall (Forall (fun c => 0 <= suit c < Z.of_nat (length (foundations gs)))) (tableaus gs) ->
  exists more,
    hint_tableau_columns gs cols tips = Ok (tips ++ more) /\
    forall z s, (z, s) ∈ more <->
      z = ZFoundation /\
      exists col pile t fpile,
        col ∈ cols /\ tableaus gs !! Z.to_nat col = Some pile /\
        top pile = Some t /\ face_up t = true /\ suit t = s /\
        foundations gs !! Z.to_nat s = Some fpile /\
        can_place_on_foundation t (top fpile) = true.
Proof.
  intros Hcols Hsuits. revert tips. induction Hcols as [|col cols Hcol _ IH]; intros tips.
  - exists []. rewrite app_nil_r. split; [done|]. intros z s. split.
    + by intros ?%elem_of_nil.
    + by intros (_ & ? & ? & ? & ? & ?%elem_of_nil & _).
  - simpl. destruct (index_in_range (tableaus gs) col Hcol) as (pile & Hp & ->).
    cbn [res_bind].
    assert (forall more : list (Zone * Z),
      (forall z s, (z, s) ∈ more <->
         z = ZFoundation /\
         exists col' pile' t fpile,
           col' ∈ cols /\ tableaus gs !! Z.to_nat col' = Some pile' /\
           top pile' = Some t /\ face_up t = true /\ suit t = s /\
           foundations gs !! Z.to_nat s = Some fpile /\
           can_place_on_foundation t (top fpile) = true) ->
      ~ (exists t fpile, top pile = Some t /\ face_up t = true /\
           foundations gs !! Z.to_nat (suit t) = Some fpile /\
           can_place_on_foundation t (top fpile) = true) ->
      forall z s, (z, s) ∈ more <->
         z = ZFoundation /\
         exists col' pile' t fpile,
           col' ∈ col :: cols /\ tableaus gs !! Z.to_nat col' = Some pile' /\
           top pile' = Some t /\ face_up t = true /\ suit t = s /\
           foundations gs !! Z.to_nat s = Some fpile /\
           can_place_on_foundation t (top fpile) = true) as Hskip.
    { intros more Hmore Hnot z s. rewrite Hmore. split.
      - intros (-> & c' & p' & t & fp & Hin & Hrest). split; [done|].
        exists c', p', t, fp. split; [by right|done].
      - intros (-> & c' & p' & t & fp & [->|Hin]%elem_of_cons & Hp' & Ht & Hup & <- & Hf & Hc).
        + exfalso. apply Hnot. exists t, fp. by simplify_eq.
        + split; [done|]. by exists c', p', t, fp. }
    destruct (top pile) as [t|] eqn:Etop.
    2:{ destruct (IH tips) as (more & -> & Hmore). exists more. split; [done|].
        apply Hskip; [done|]. by intros (? & ? & ? & _). }
    destruct (face_up t) eqn:Eup.
    2:{ destruct (IH tips) as (more & -> & Hmore). exists more. split; [done|].
        apply Hskip; [done|]. intros (? & ? & [= <-] & ? & _). congruence. }
    assert (0 <= suit t < Z.of_nat (length (foundations gs))) as Ht.
    { apply top_Some in Etop as [rest ->].
      apply (Forall_lookup_1 _ _ _ _ Hsuits) in Hp.
      apply Forall_app in Hp as [_ Hp]. by rewrite Forall_singleton in Hp. }
    destruct (index_in_range (foundations gs) (suit t) Ht) as (fpile & Hf & ->).
    cbn [res_bind]. destruct (can_place_on_foundation t (top fpile)) eqn:Ecan.
    + destruct (IH (tips ++ [(ZFoundation, suit t)])) as (more & -> & Hmore).
      exists ((ZFoundation, suit t) :: more). rewrite <- app_assoc. split; [done|].
      intros z s. rewrite elem_of_cons, Hmore. split.
      * intros [[= -> ->]|(-> & c' & p' & t' & fp & Hin & Hrest)]; (split; [done|]).
        -- exists col, pile, t, fpile. split; [by left|done].
        -- exists c', p', t', fp. split; [by right|done].
      * intros (-> & c' & p' & t' & fp & [->|Hin]%elem_of_cons & Hp' & Ht' & Hup & <- & Hf' & Hc).
        -- left. by simplify_eq.
        -- right. split; [done|]. by exists c', p', t', fp.
    + destruct (IH tips) as (more & -> & Hmore). exists more. split; [done|].
      apply Hskip; [done|]. intros (? & ? & [= <-] & _ & Hf' & Hc). congruence.
Qed.

Lemma elem_of_columns col : col ∈ [0; 1; 2; 3; 4; 5; 6] <-> 0 <= col < 7.
Proof.
  split.
  - intros H. repeat (apply elem_of_cons in H as [->|H]; [lia|]). by apply elem_of_nil in H.
  - intros H.
    assert (col = 0 \/ col = 1 \/ col = 2 \/ col = 3 \/ col = 4 \/ col = 5 \/ col = 6)
      as Hc by lia.
    repeat (destruct Hc as [->|Hc]; [repeat constructor|]). subst. repeat constructor.
Qed.

Lemma waste_to_foundation_from_succeeds gs card rest ss s pile :
  Forall (fun s => 0 <= s < Z.of_nat (length (foundations gs))) ss ->
  s ∈ ss -> foundations gs !! Z.to_nat s = Some pile ->
  can_place_on_foundation card (top pile) = true ->
  succeeds (waste_to_foundation_from gs card rest ss).
Proof.
  intros Hss Hs Hp Hc. induction Hss as [|s0 ss Hs0 _ IH]; [by apply elem_of_nil in Hs|].
  simpl. destruct (index_in_range (foundations gs) s0 Hs0) as (p0 & Hp0 & ->).
  cbn [res_bind]. rewrite foundation_check_redundant.
  destruct (can_place_on_foundation card (top p0)) eqn:E0; [by eexists|].
  apply IH. apply elem_of_cons in Hs as [->|Hs]; [|done]. congruence.
Qed.

(** X14.  [hint] on a table that holds the 52 cards in well-formed piles.
    The tips name foundations and columns only, and every tip is a move
    that works: a column is named exactly when [move_waste_to_tableau] to
    it succeeds, and a foundation is named only if
    [move_waste_to_foundation] or some [move_tableau_to_foundation]
    succeeds.  Every column whose top card can go to its foundation yields
    a tip.  The message says that there are no obvious moves exactly when
    there is no tip; with hints switched off the targets stay as they
    were. *)
Theorem hints_are_moves (gs : GameState) (ui : Hints) :
  table_ok gs ->
  exists tips msg,
    hint_tips gs = Ok tips /\
    hint true gs ui = Ok (mkHints msg tips) /\
    (msg = no_moves_msg <-> tips = []) /\
    hint false gs ui = Ok (mkHints "Hints are disabled in Settings." (hint_targets ui)) /\
    (forall z i, (z, i) ∈ tips -> z = ZFoundation \/ z = ZTableau) /\
    (forall col, (ZTableau, col) ∈ tips <->
                 0 <= col < 7 /\ succeeds (move_waste_to_tableau gs col)) /\
    (forall s, (ZFoundation, s) ∈ tips ->
               succeeds (move_waste_to_foundation gs) \/
               exists col, 0 <= col < 7 /\ succeeds (move_tableau_to_foundation gs col)) /\
    (forall col, 0 <= col < 7 -> succeeds (move_tableau_to_foundation gs col) ->
                 exists s, (ZFoundation, s) ∈ tips).
Proof.
  intros Hok. pose proof (table_ok_well_formed _ Hok) as (H4 & H7 & Hsuits).
  assert (Forall (fun col => 0 <= col < Z.of_nat (length (tableaus gs))) [0; 1; 2; 3; 4; 5; 6])
    as Hcols by (rewrite H7; repeat constructor; lia).
  assert (Forall (Forall (fun c => 0 <= suit c < Z.of_nat (length (foundations gs))))
            (tableaus gs)) as Hsuits' by (by rewrite H4).
  assert (exists tips0 more1,
    match top (waste gs) with
    | Some w =>
        let! (_, fpile) := index (foundations gs) (suit w) in
        hint_waste_columns gs w [0; 1; 2; 3; 4; 5; 6]
          (if can_place_on_foundation w (top fpile) then [(ZFoundation, suit w)] else [])
    | None => Ok []
    end = Ok (tips0 ++ more1) /\
    (forall z i, (z, i) ∈ tips0 -> z = ZFoundation /\ succeeds (move_waste_to_foundation gs)) /\
    (forall z col, (z, col) ∈ more1 <->
       z = ZTableau /\ 0 <= col < 7 /\ succeeds (move_waste_to_tableau gs col)))
    as (tips0 & more1 & E1 & Htips0 & Hmore1).
  { destruct (top (waste gs)) as [w|] eqn:Ew.
    - assert (0 <= suit w < 4) as Hw.
      { eapply full_deck_ranks; [by apply ok_deck|]. apply top_Some in Ew as [rest Ew].
        unfold all_cards. rewrite Ew, !elem_of_app. right. left. right.
        by apply list_elem_of_singleton. }
      destruct (index_in_range (foundations gs) (suit w)) as (fpile & Hf & ->); [lia|].
      cbn [res_bind].
      destruct (hint_waste_columns_spec gs w [0; 1; 2; 3; 4; 5; 6]
                  (if can_place_on_foundation w (top fpile)
                   then [(ZFoundation, suit w)] else []) Hcols) as (more & -> & Hmore).
      eexists _, more. split; [done|]. split.
      + destruct (can_place_on_foundation w (top fpile)) eqn:Ec;
          [|by intros z i ?%elem_of_nil].
        intros z i [= -> ->]%list_elem_of_singleton. split; [done|].
        unfold move_waste_to_foundation. apply top_Some in Ew as [rest Ew].
        rewrite Ew, pop_snoc.
        apply (waste_to_foundation_from_succeeds _ _ _ _ (suit w) fpile); try done.
        * rewrite H4. repeat constructor; lia.
        * assert (suit w = 0 \/ suit w = 1 \/ suit w = 2 \/ suit w = 3) as Hc by lia.
          repeat (destruct Hc as [->|Hc]; [repeat constructor|]). rewrite Hc.
          repeat constructor.
      + intros z col. rewrite Hmore, elem_of_columns. split.
        * intros (-> & Hcol & pile & Hp & Hc). split; [done|]. split; [done|].
          by apply (succeeds_waste_to_tableau gs col w pile); [lia|..].
        * intros (-> & Hcol & Hs). split; [done|]. split; [done|].
          destruct (lookup_lt_is_Some_2 (tableaus gs) (Z.to_nat col)) as [pile Hp]; [lia|].
          exists pile. split; [done|].
          by apply (succeeds_waste_to_tableau gs col w pile); [lia|..].
    - exists [], []. split; [done|]. split; [by intros z i ?%elem_of_nil|].
      intros z col. split; [by intros ?%elem_of_nil|].
      intros (_ & _ & Hs). by apply succeeds_waste_to_tableau_empty in Hs. }
  destruct (hint_tableau_columns_spec gs [0; 1; 2; 3; 4; 5; 6] (tips0 ++ more1) Hcols Hsuits')
    as (more2 & E2 & Hmore2).
  assert (hint_tips gs = Ok ((tips0 ++ more1) ++ more2)) as Etips.
  { unfold hint_tips. rewrite E1. cbn [res_bind]. exact E2. }
  assert (forall z s, (z, s) ∈ more2 <->
            z = ZFoundation /\
            exists col t, 0 <= col < 7 /\ suit t = s /\
              succeeds (move_tableau_to_foundation gs col) /\
              exists pile, tableaus gs !! Z.to_nat col = Some pile /\ top pile = Some t)
    as Hmore2'.
  { intros z s. rewrite Hmore2. split.
    - intros (-> & col & pile & t & fpile & Hcol%elem_of_columns & Hp & Ht & Hup & <- & Hf & Hc).
      split; [done|]. exists col, t. split; [done|]. split; [done|]. split; [|by exists pile].
      apply (succeeds_tableau_to_foundation gs col pile); [lia|done| |by exists t, fpile].
      by apply (Forall_lookup_1 _ _ _ _ Hsuits' Hp).
    - intros (-> & col & t & Hcol & <- & Hs & pile & Hp & Ht). split; [done|].
      destruct (proj1 (succeeds_tableau_to_foundation gs col pile (proj1 Hcol) Hp
                         (Forall_lookup_1 _ _ _ _ Hsuits' Hp)) Hs)
        as (t' & fpile & Ht' & Hup & Hf & Hc).
      exists col, pile, t, fpile. rewrite elem_of_columns. by simplify_eq. }
  eexists _, _. split; [exact Etips|]. split.
  { unfold hint. cbn [negb]. rewrite Etips. cbn [res_bind]. reflexivity. }
  split.
  { destruct ((tips0 ++ more1) ++ more2) as [|x l]; [done|]. split; [|done].
    unfold no_moves_msg. intros H. simpl in H. discriminate H. }
  split; [done|]. split.
  { intros z i. rewrite !elem_of_app.
    intros [[H%Htips0|H%Hmore1]|H%Hmore2']; [left|right|left]; by destruct H. }
  split.
  { intros col. rewrite !elem_of_app. split.
    - intros [[H%Htips0|H%Hmore1]|H%Hmore2']; [by destruct H| |by destruct H].
      by destruct H as (_ & ? & ?).
    - intros [Hc Hs]. left. right. by apply Hmore1. }
  split.
  { intros s. rewrite !elem_of_app.
    intros [[H%Htips0|H%Hmore1]|H%Hmore2']; [left; by destruct H|by destruct H|right].
    destruct H as (_ & col & t & Hcol & _ & Hs & _). by exists col. }
  intros col Hcol Hs.
  destruct (lookup_lt_is_Some_2 (tableaus gs) (Z.to_nat col)) as [pile Hp]; [lia|].
  destruct (proj1 (succeeds_tableau_to_foundation gs col pile (proj1 Hcol) Hp
                     (Forall_lookup_1 _ _ _ _ Hsuits' Hp)) Hs) as (t & fpile & Ht & _).
  exists (suit t). rewrite !elem_of_app. right. apply Hmore2'. split; [done|].
  exists col, t. split; [done|]. split; [done|]. split; [done|]. by exists pile.
Qed.

Lemma hints_are_moves_witness :
  exists tips msg,
    hint true Examples.plain_deal_drawn (mkHints "" []) = Ok (mkHints msg tips) /\
    (forall col, (ZTableau, col) ∈ tips <->
       0 <= col < 7 /\ succeeds (move_waste_to_tableau Examples.plain_deal_drawn col)).
Proof.
  destruct (hints_are_moves Examples.plain_deal_drawn (mkHints "" []))
    as (tips & msg & _ & E & _ & _ & _ & H & _).
  - apply (draw_from_stock_ok Examples.plain_deal 3 _ true);
      [vm_compute; reflexivity|apply plain_deal_play_ok].
  - exists tips, msg. split; [exact E|exact H].
Defined.

(** * Settings *)

(** ** The stored settings *)

Lemma dict_get_app k (d e : Dict) :
  dict_get k (d ++ e) = match dict_get k d with Some v => Some v | None => dict_get k e end.
Proof.
  induction d as [|[k' v] d IH]; simpl; [done|]. by destruct (String.eqb k k').
Qed.

Lemma merge_defaults_get (defaults data : Dict) k :
  dict_get k (merge_defaults defaults data) =
    match dict_get k data with Some v => Some v | None => dict_get k defaults end.
Proof.
  unfold merge_defaults. revert data.
  induction defaults as [|[k' v'] defaults IH]; intros data; simpl.
  - by destruct (dict_get k data).
  - rewrite IH. unfold setdefault.
    destruct (dict_get k' data) as [x|] eqn:E'.
    + destruct (dict_get k data) as [y|] eqn:E; [done|].
      destruct (String.eqb_spec k k') as [->|]; [congruence|done].
    + rewrite dict_get_app. destruct (dict_get k data) as [y|]; [done|]. simpl.
      by destruct (String.eqb k k').
Qed.

Lemma merge_defaults_prefix (defaults data : Dict) :
  exists added,
    merge_defaults defaults data = data ++ added /\
    forall kv, kv ∈ added -> kv ∈ defaults /\ dict_get kv.1 data = None.
Proof.
  unfold merge_defaults. revert data.
  induction defaults as [|[k' v'] defaults IH]; intros data; simpl.
  - exists []. rewrite app_nil_r. split; [done|]. by intros kv ?%elem_of_nil.
  - destruct (IH (setdefault k' v' data)) as (added & E & Ha). rewrite E. clear E.
    unfold setdefault in *. destruct (dict_get k' data) as [x|] eqn:E'.
    + exists added. split; [done|].
      intros kv Hkv. destruct (Ha kv Hkv). split; [by right|done].
    + exists ((k', v') :: added). rewrite <- app_assoc. split; [done|].
      intros kv [->|Hkv]%elem_of_cons; [split; [by left|done]|].
      destruct (Ha kv Hkv) as [H1 H2]. split; [by right|].
      rewrite dict_get_app in H2. by destruct (dict_get kv.1 data).
Qed.

(** X15.  [load_settings], for whatever the file holds.  Every key of
    [DEFAULT_SETTINGS] is present in the result.  If the file holds an
    object, its entries come first, unchanged and in their order, and each
    default whose key is missing follows: under every key the result holds
    the value of the file if there is one, the default otherwise; values
    are not checked.  In every other case (no file, invalid JSON, a value
    that is not an object) the result is [DEFAULT_SETTINGS].
    [load_leaderboard] completes its file in the same way with two empty
    rankings. *)
Theorem load_settings_has_every_key (file : option JSON) :
  (forall k v, dict_get k DEFAULT_SETTINGS = Some v ->
               exists v', dict_get k (load_settings file) = Some v') /\
  (forall data, file = Some (JObject data) ->
     (exists added,
        load_settings file = data ++ added /\
        forall kv, kv ∈ added -> kv ∈ DEFAULT_SETTINGS /\ dict_get kv.1 data = None) /\
     forall k, dict_get k (load_settings file) =
               match dict_get k data with
               | Some v => Some v
               | None => dict_get k DEFAULT_SETTINGS
               end) /\
  ((forall data, file <> Some (JObject data)) -> load_settings file = DEFAULT_SETTINGS) /\
  (forall k,
     dict_get k (load_leaderboard file) =
       match match file with
             | Some (JObject data) => dict_get k data
             | _ => None
             end with
       | Some v => Some v
       | None => dict_get k [("best_times", JArray []); ("fewest_moves", JArray [])]%string
       end).
Proof.
  split; [|split; [|split]].
  - intros k v Hk. destruct file as [[| | | | | |data]|]; cbn [load_settings];
      try (by exists v).
    rewrite merge_defaults_get, Hk. destruct (dict_get k data); eauto.
  - intros data ->. cbn [load_settings]. split; [apply merge_defaults_prefix|].
    intros k. apply merge_defaults_get.
  - intros H. destruct file as [[| | | | | |data]|]; cbn [load_settings]; try done.
    by destruct (H data).
  - intros k. destruct file as [[| | | | | |data]|]; cbn [load_leaderboard]; try done.
    apply merge_defaults_get.
Qed.

Lemma load_settings_has_every_key_witness :
  let file := Some (JObject [("theme", JString "pink"); ("volume", JInt 7)]%string) in
  dict_get "theme" (load_settings file) = Some (JString "pink") /\
  dict_get "draw_count" (load_settings file) = Some (JInt 3) /\
  load_settings (Some (JArray [])) = DEFAULT_SETTINGS.
Proof.
  intros file. destruct (load_settings_has_every_key file) as (_ & H & _ & _).
  destruct (H _ eq_refl) as [_ Hget]. split; [|split].
  - rewrite Hget. reflexivity.
  - rewrite Hget. reflexivity.
  - apply load_settings_has_every_key. intros data. discriminate.
Defined.

(** ** The settings screen *)

Lemma theme_index_valid t :
  t ∈ themes -> exists i, str_index t themes = Ok i /\ themes !! i = Some t.
Proof.
  unfold themes. intros H.
  repeat (apply elem_of_cons in H as [->|H]); [..|by apply elem_of_nil in H];
    eexists; split; reflexivity.
Qed.

Lemma next_theme_valid t step :
  t ∈ themes -> exists t', next_theme (JString t) step = Ok (JString t') /\ t' ∈ themes.
Proof.
  intros Ht. destruct (theme_index_valid t Ht) as (i & Hi & _).
  unfold next_theme. cbn [theme_index]. rewrite Hi. cbn [res_bind].
  change (Z.of_nat (length themes)) with 4.
  pose proof (Z.mod_pos_bound (Z.of_nat i + step) 4 ltac:(lia)) as Hj.
  destruct (index_in_range themes ((Z.of_nat i + step) mod 4)) as (t' & Ht' & ->); [done|].
  cbn [res_bind]. exists t'. split; [done|]. by eapply list_elem_of_lookup_2.
Qed.

Lemma flip_valid (left_ : bool) sel s :
  settings_valid s ->
  exists s', (if left_ then flip_left sel s else flip_right sel s) = Ok s' /\
             settings_valid s'.
Proof.
  intros (Hd & Ha & Hh & (t & Ht & Hin) & Hs & Hn).
  destruct (next_theme_valid t (-1) Hin) as (tl & El & Hl).
  destruct (next_theme_valid t 1 Hin) as (tr & Er & Hr).
  unfold flip_left, flip_right. rewrite Ht, El, Er.
  destruct left_; repeat case_match; cbn [res_bind]; eexists; (split; [reflexivity|]);
    unfold settings_valid, toggle; simpl; rewrite ?Ht; eauto 10.
Qed.

Lemma settings_loop_valid keys sel changed s :
  settings_valid s ->
  exists s' r, settings_loop keys sel changed s = Ok (s', r) /\ settings_valid s'.
Proof.
  revert sel changed s. induction keys as [|k keys IH]; intros sel changed s Hs; simpl.
  - by exists s, None.
  - destruct k; try apply IH; try done.
    + by exists s, (Some changed).
    + destruct (flip_valid true sel s Hs) as (s1 & -> & Hs1). cbn [res_bind]. by apply IH.
    + destruct (flip_valid false sel s Hs) as (s1 & -> & Hs1). cbn [res_bind]. by apply IH.
Qed.

Lemma settings_loop_changed keys sel s s' c :
  settings_loop keys sel true s = Ok (s', Some c) -> c = true.
Proof.
  revert sel s. induction keys as [|k keys IH]; intros sel s; simpl; [done|].
  destruct k; try apply IH.
  - by intros [= _ <-].
  - destruct (flip_left sel s); cbn [res_bind]; [apply IH|done..].
  - destruct (flip_right sel s); cbn [res_bind]; [apply IH|done..].
Qed.

Lemma settings_loop_unchanged keys sel s s' :
  settings_loop keys sel false s = Ok (s', Some false) -> s' = s.
Proof.
  revert sel. induction keys as [|k keys IH]; intros sel; simpl; [done|].
  destruct k; try apply IH.
  - by intros [= <-].
  - destruct (flip_left sel s); cbn [res_bind]; [|done..].
    by intros ?%settings_loop_changed.
  - destruct (flip_right sel s); cbn [res_bind]; [|done..].
    by intros ?%settings_loop_changed.
Qed.

Lemma settings_loop_down (row : nat) keys changed s :
  (row < 6)%nat ->
  settings_loop (replicate row SDown ++ keys) 0 changed s
  = settings_loop keys (Z.of_nat row) changed s.
Proof.
  intros Hrow.
  assert (forall n sel, (Z.to_nat sel + n < 6)%nat -> 0 <= sel ->
            settings_loop (replicate n SDown ++ keys) sel changed s
            = settings_loop keys (sel + Z.of_nat n) changed s) as H.
  { induction n as [|n IH]; intros sel Hn Hsel; simpl.
    - by rewrite Z.add_0_r.
    - rewrite Z.mod_small by lia. rewrite IH by lia. f_equal. lia. }
  rewrite H by (simpl; lia). done.
Qed.

Lemma flip_round_trip (row : nat) s :
  settings_valid s -> (row < 6)%nat ->
  exists s1, flip_left (Z.of_nat row) s = Ok s1 /\ flip_right (Z.of_nat row) s1 = Ok s.
Proof.
  intros (Hd & [a Ha] & [h Hh] & (t & Ht & Hin) & [c Hc] & [n Hn]) Hrow.
  destruct s as [d a' h' t' c' n']. simpl in *. subst.
  destruct row as [|[|[|[|[|[|row]]]]]]; [..|lia]; unfold flip_left, flip_right; simpl.
  - destruct Hd as [-> | ->]; by eexists.
  - eexists. split; [done|]. unfold toggle. simpl. by rewrite negb_involutive.
  - eexists. split; [done|]. unfold toggle. simpl. by rewrite negb_involutive.
  - unfold themes in Hin.
    repeat (apply elem_of_cons in Hin as [->|Hin]); [..|by apply elem_of_nil in Hin];
      by eexists.
  - eexists. split; [done|]. unfold toggle. simpl. by rewrite negb_involutive.
  - eexists. split; [done|]. unfold toggle. simpl. by rewrite negb_involutive.
Qed.

(** X16.  [show_settings] on the keys typed.  A theme that is not one of
    the four names raises [ValueError] before a key is read.  Settings the
    screen could have written itself (draw count 1 or 3, booleans, a known
    theme) stay so under any keys, and nothing is raised.  A call that
    returns [False] has left every setting as it was; the converse fails:
    Left and then Right on any row restores every setting, and the call
    still returns [True]. *)
Theorem settings_screen (s : SettingsDict) (keys : list SKey) :
  (theme_index (sd_theme s) = Raise ValueError -> show_settings keys s = Raise ValueError) /\
  (settings_valid s ->
   exists s' r, show_settings keys s = Ok (s', r) /\ settings_valid s') /\
  (forall s', show_settings keys s = Ok (s', Some false) -> s' = s) /\
  (settings_valid s -> forall row : nat, (row < 6)%nat ->
   show_settings (replicate row SDown ++ [SLeft; SRight; SQuit]) s = Ok (s, Some true)).
Proof.
  split; [|split; [|split]].
  - intros H. unfold show_settings. by rewrite H.
  - intros Hs. pose proof Hs as (_ & _ & _ & (t & Ht & Hin) & _).
    destruct (theme_index_valid t Hin) as (i & Hi & _).
    unfold show_settings. rewrite Ht. cbn [theme_index]. rewrite Hi. cbn [res_bind].
    by apply settings_loop_valid.
  - intros s'. unfold show_settings.
    destruct (theme_index (sd_theme s)); cbn [res_bind]; [|done..].
    apply settings_loop_unchanged.
  - intros Hs row Hrow. pose proof Hs as (_ & _ & _ & (t & Ht & Hin) & _).
    destruct (theme_index_valid t Hin) as (i & Hi & _).
    unfold show_settings. rewrite Ht. cbn [theme_index]. rewrite Hi. cbn [res_bind].
    rewrite settings_loop_down by done.
    destruct (flip_round_trip row s Hs Hrow) as (s1 & E1 & E2).
    cbn [settings_loop]. rewrite E1. cbn [res_bind]. rewrite E2. done.
Qed.

Lemma settings_screen_witness :
  let s := mkSettingsDict (JInt 3) (JBool true) (JBool true) (JString "classic")
             (JBool false) (JBool false) in
  show_settings [SDown; SDown; SDown; SLeft; SRight; SQuit] s = Ok (s, Some true) /\
  show_settings [SLeft]
    (mkSettingsDict (JInt 3) (JBool true) (JBool true) (JString "pink")
       (JBool false) (JBool false)) = Raise ValueError.
Proof.
  intros s. split.
  - destruct (settings_screen s []) as (_ & _ & _ & H).
    apply (H ltac:(unfold settings_valid, themes; simpl;
                   split_and!; [by right|by eexists..|
                                eexists; split; [done|repeat constructor]|
                                by eexists|by eexists])
             3%nat ltac:(lia)).
  - by apply settings_screen.
Defined.

(** * The store: a snapshot outlives any number of moves *)

Lemma tr_run_moves gs h0 o0 ms :
  framed gs h0 o0 (run_moves ms gs) (fun _ => True).
Proof.
  induction ms as [|m ms IH]; simpl.
  - by apply tr_ret.
  - eapply tr_bind; [apply tr_run_move|]. intros _ _. apply IH.
Qed.

(** X17.  On the store of objects: after [push_undo], any number of move
    operations on the live state, each with any arguments and whether it
    succeeds or not, write only to objects of the live state.  The snapshot
    taken by [push_undo] therefore still reads as the state before the
    moves, and [undo] brings that state back: a key that draws and then
    lets the auto-move sweep run is undone as a whole. *)
Theorem snapshot_survives_moves (h : Store.Heap) (g : Store.GameObj) (v : GameState)
    (ms : list Store.Move) :
  Store.read_state h (Store.g_state g) = Some v ->
  exists g1 h1 snapshot,
    Store.push_undo g h = Ok (g1, h1) /\
    top (Store.g_undo_stack g1) = Some snapshot /\
    Store.read_state h1 snapshot = Some v /\
    forall h2,
      run_moves ms (Store.g_state g1) h1 = Ok (tt, h2) ->
      (forall o, Store.states h1 !! Store.g_state g1 = Some o ->
         (forall r, r ∉ Store.pile_refs h1 o -> Store.piles h2 !! r = Store.piles h1 !! r) /\
         (forall r, r ∉ Store.card_refs h1 o -> Store.cards h2 !! r = Store.cards h1 !! r)) /\
      Store.g_state (Store.undo g1) = snapshot /\
      Store.read_state h2 (Store.g_state (Store.undo g1)) = Some v.
Proof.
  intros Hv.
  destruct (clone_spec h (Store.g_state g) v Hv) as (h1 & Hc & Hx & Rs & Rl & Sep).
  set (snapshot := length (Store.states h)) in *.
  set (stack := Store.g_undo_stack g ++ [snapshot]).
  set (g1 := Store.mkGameObj (Store.g_state g)
               (if (200 <? length stack)%nat then drop 1 stack else stack)).
  assert (pop (Store.g_undo_stack g1) =
            Some (if (200 <? length stack)%nat then drop 1 (Store.g_undo_stack g)
                  else Store.g_undo_stack g, snapshot)) as Hpop.
  { subst g1 stack. simpl. rewrite length_app. simpl.
    destruct (Nat.ltb_spec 200 (length (Store.g_undo_stack g) + 1)) as [Hlt|Hge].
    - destruct (Store.g_undo_stack g) as [|s0 st] eqn:Est; [simpl in Hlt; lia|].
      simpl. rewrite drop_0. apply pop_snoc.
    - apply pop_snoc. }
  exists g1, h1, snapshot. split.
  { unfold Store.push_undo. erewrite bind_Ok; [|exact Hc]. done. }
  split; [unfold top; by rewrite Hpop|]. split; [done|].
  intros h2 Hm.
  destruct Sep as (Hne & o & os & Ho & Hos & Hsep).
  destruct (tr_run_moves (Store.g_state g) h1 o ms h1 tt h2
              (kept_start _ _ _ Ho) Hm) as [Hkept _].
  split.
  { intros o' Ho'. simpl in Ho'. rewrite Ho in Ho'. injection Ho' as <-. split.
    - apply (kept_piles _ _ _ _ Hkept).
    - apply (kept_cards _ _ _ _ Hkept). }
  unfold Store.undo. rewrite Hpop. simpl. split; [done|].
  rewrite <- Rs. eapply read_state_kept; [exact Hkept|exact Ho|].
  split; [done|]. by exists o, os.
Qed.

Lemma snapshot_survives_moves_witness :
  exists g1 h1 h2,
    Store.push_undo (Store.mkGameObj 0 []) Examples.loaded_deal = Ok (g1, h1) /\
    run_moves [Store.Draw 3; Store.WasteToFoundation; Store.TableauToTableau 6 0 1;
               Store.Draw 3] (Store.g_state g1) h1 = Ok (tt, h2) /\
    Store.read_state h2 (Store.g_state (Store.undo g1)) = Some Examples.plain_deal.
Proof.
  destruct (snapshot_survives_moves Examples.loaded_deal (Store.mkGameObj 0 [])
              Examples.plain_deal
              [Store.Draw 3; Store.WasteToFoundation; Store.TableauToTableau 6 0 1;
               Store.Draw 3]) as (g1 & h1 & snap & Hp & _ & _ & Hm).
  - vm_compute. reflexivity.
  - exists g1, h1.
    destruct (run_moves _ (Store.g_state g1) h1) as [[[] h2]| |] eqn:E.
    + exists h2. split; [exact Hp|]. split; [reflexivity|]. exact (proj2 (proj2 (Hm h2 eq_refl))).
    + exfalso. vm_compute in Hp. injection Hp as <- <-. vm_compute in E. discriminate E.
    + exfalso. vm_compute in Hp. injection Hp as <- <-. vm_compute in E. discriminate E.
Defined.

(** * The deal and the sweep once more *)

(** X18.  Where the cards of the shuffled deck go.  [deal_new_game] pops
    from the end of the deck, column after column: the card at position
    [i] of column [col] is the one that lies [col (col + 1) / 2 + i]
    places from the end of the deck, face up if it is the last of its
    column and as it was otherwise.  The first 24 cards of the deck, in
    their order, are the stock. *)
Theorem deal_takes_cards_from_the_end (deck : list Card) (now : float) :
  length deck = 52%nat ->
  exists gs,
    deal_from deck now = Ok gs /\
    stock gs = take 24 deck /\
    forall col i c, (i <= col < 7)%nat ->
      deck !! (51 - (col * (col + 1) / 2 + i))%nat = Some c ->
      tableaus gs !! col ≫= (fun pile => pile !! i)
        = Some (if (i =? col)%nat then set_face true c else c).
Proof.
  intros Hlen.
  do 52 (destruct deck as [|? deck]; [discriminate Hlen|]).
  destruct deck; [|discriminate Hlen]. clear Hlen.
  eexists. split; [cbv; reflexivity|]. split; [reflexivity|].
  intros col i x [Hi Hcol].
  destruct col as [|[|[|[|[|[|[|col]]]]]]]; [..|lia];
    (destruct i as [|[|[|[|[|[|[|i]]]]]]]; try lia);
    cbn; by intros [= <-].
Qed.

Lemma deal_takes_cards_from_the_end_witness :
  exists gs,
    deal_from ordered_deck (float_of_Z 0) = Ok gs /\
    stock gs = take 24 ordered_deck /\
    tableaus gs !! 1%nat ≫= (fun pile => pile !! 1%nat) = Some (mkCard 11 3 true).
Proof.
  destruct (deal_takes_cards_from_the_end ordered_deck (float_of_Z 0) eq_refl) as (gs & E & Hs & Ht).
  exists gs. split; [exact E|]. split; [exact Hs|].
  apply (Ht 1%nat 1%nat (mkCard 11 3 false)); [lia|reflexivity].
Defined.

Lemma sweep_columns_stock cols gs moved count gs' moved' count' :
  sweep_columns cols gs moved count = Ok (gs', moved', count') ->
  stock gs' = stock gs /\ (length (waste gs') <= length (waste gs))%nat.
Proof.
  revert gs moved count. induction cols as [|col cols IH]; intros gs moved count; simpl.
  - by intros [= <- _ _].
  - destruct (move_tableau_to_foundation gs col) as [[gs1 b]| |] eqn:E; simpl; [|done..].
    assert (stock gs1 = stock gs /\ waste gs1 = waste gs) as [Hs Hw].
    { apply move_tableau_to_foundation_inv in E
        as [[_ ->]|[_ (n & rest & card & s & fpile & _ & _ & _ & _ & _ & ->)]]; done. }
    intros H. assert (stock gs' = stock gs1 /\ (length (waste gs') <= length (waste gs1))%nat)
      as [-> Hl] by (destruct b; by eapply IH).
    rewrite Hw in Hl. done.
Qed.

Lemma auto_move_loop_stock fuel gs count gs' count' :
  auto_move_loop fuel gs count = Ok (gs', count') ->
  stock gs' = stock gs /\ (length (waste gs') <= length (waste gs))%nat.
Proof.
  revert gs count. induction fuel as [|fuel IH]; intros gs count; simpl; [done|].
  unfold auto_move_pass.
  destruct (move_waste_to_foundation gs) as [[gs1 b]| |] eqn:E; cbn [res_bind]; [|done..].
  assert (stock gs1 = stock gs /\ (length (waste gs1) <= length (waste gs))%nat) as [Hs Hw].
  { apply move_waste_to_foundation_inv in E
      as [[_ ->]|[_ (rest & card & n & pile & Ew & _ & _ & ->)]]; [done|].
    simpl. rewrite Ew, length_app. simpl. split; [done|lia]. }
  assert (forall m c,
            (let! (gs3, moved3, count3) := sweep_columns [0; 1; 2; 3; 4; 5; 6] gs1 m c in
             if moved3 then auto_move_loop fuel gs3 count3 else Ok (gs3, count3))
            = Ok (gs', count') ->
            stock gs' = stock gs1 /\ (length (waste gs') <= length (waste gs1))%nat) as Hcont.
  { intros m c.
    destruct (sweep_columns _ gs1 m c) as [[[gs2 moved] count2]| |] eqn:E2;
      cbn [res_bind]; [|done..].
    apply sweep_columns_stock in E2 as [Hs2 Hw2].
    destruct moved.
    - intros [-> Hl]%IH. split; [done|lia].
    - intros [= <- _]. done. }
  intros H. assert (stock gs' = stock gs1 /\ (length (waste gs') <= length (waste gs1))%nat)
    as [-> Hl] by (destruct b; by eapply Hcont).
  split; [done|lia].
Qed.

(** X19.  [auto_move_safe] on a table that holds the 52 cards in
    well-formed piles.  The call returns and leaves such a table: the same
    52 cards, the foundations and the columns well formed.  The sweep is a
    sequence of move operations that never touches the stock, never adds
    to the waste and leaves [start_time] and [won] alone; the count it
    returns is the number of cards the foundations have gained. *)
Theorem auto_move_keeps_the_table (gs : GameState) :
  table_ok gs ->
  exists gs' n,
    auto_move_safe gs = Ok (gs', n) /\
    table_ok gs' /\ reachable_from gs gs' /\
    ident <$> all_cards gs' ≡ₚ ident <$> all_cards gs /\
    stock gs' = stock gs /\ (length (waste gs') <= length (waste gs))%nat /\
    start_time gs' = start_time gs /\ won gs' = won gs /\
    Z.of_nat (on_foundations gs') = Z.of_nat (on_foundations gs) + n /\
    0 <= n <= 52.
Proof.
  intros Hok. pose proof (table_ok_well_formed _ Hok) as Hwf.
  destruct (auto_move_loop_spec (S (movable gs)) gs 0 Hwf) as (gs' & n & E & Hs & _); [lia|].
  unfold auto_move_safe. rewrite E. exists gs', (0 + n). split; [done|].
  pose proof (auto_move_loop_reach _ _ _ _ _ E) as Hr.
  pose proof (reachable_ok _ _ Hok Hr) as Hok'.
  destruct (auto_move_loop_stock _ _ _ _ _ E) as [Hst Hw].
  destruct (reachable_won _ _ Hr) as [Ht Hwon].
  destruct Hs as (_ & Hn & _ & _ & Hf & _).
  split; [done|]. split; [done|]. split.
  { pose proof (ok_deck _ Hok) as H1. pose proof (ok_deck _ Hok') as H2.
    unfold full_deck in *. by rewrite H1, H2. }
  split; [done|]. split; [done|]. split; [done|]. split; [done|]. split; [lia|].
  pose proof (full_deck_length _ (ok_deck _ Hok')) as Hlen.
  rewrite length_all_cards in Hlen. lia.
Qed.

Lemma auto_move_keeps_the_table_witness :
  exists gs' n,
    auto_move_safe Examples.plain_deal = Ok (gs', n) /\
    table_ok gs' /\ stock gs' = stock Examples.plain_deal.
Proof.
  destruct (auto_move_keeps_the_table Examples.plain_deal (proj1 plain_deal_play_ok))
    as (gs' & n & E & Hok & _ & _ & Hs & _).
  by exists gs', n.
Defined.

(** * Card labels *)

Lemma labels_of_the_deck (ascii_only : bool) :
  exists ls,
    mapM (fun c => match card_text c ascii_only with Ok t => Some t | _ => None end)
      ordered_deck = Some ls /\
    NoDup ls /\
    Forall2 (fun c t => length t = if value c =? 10 then 5%nat else 4%nat) ordered_deck ls.
Proof.
  destruct ascii_only.
  - eexists. split; [vm_compute; reflexivity|]. split.
    + refine (bool_decide_unpack _ _). vm_compute. exact I.
    + repeat constructor.
  - eexists. split; [vm_compute; reflexivity|]. split.
    + refine (bool_decide_unpack _ _). vm_compute. exact I.
    + repeat constructor.
Qed.

Lemma card_text_face c b ascii_only :
  card_text (set_face b c) ascii_only = card_text c ascii_only.
Proof. done. Qed.

Lemma mapM_lookup {A B} (f : A -> option B) (l : list A) (k : list B) i x :
  mapM f l = Some k -> l !! i = Some x -> exists y, f x = Some y /\ k !! i = Some y.
Proof.
  intros H%mapM_Some Hx. destruct (Forall2_lookup_l _ _ _ _ _ H Hx) as (y & Hy & Hf).
  by exists y.
Qed.

Lemma index_raises {A} (l : list A) i e : index l i = Raise e -> e = IndexError.
Proof. unfold index. repeat case_match; by intros [= <-]. Qed.

(** X20.  The text [_draw_card] writes for a card, with ASCII or Unicode
    suits.  For every card of a table that holds the 52 cards the text is
    the label in square brackets, four characters wide, five for a ten; it
    does not depend on the face flag, and two cards of different rank or
    suit never get the same text.  A rank above 13 or a suit above 3 raises
    [IndexError]. *)
Theorem card_texts_are_distinct (gs : GameState) (ascii_only : bool) :
  full_deck gs ->
  (forall c, c ∈ all_cards gs ->
     exists t, card_text c ascii_only = Ok t /\
               length t = if value c =? 10 then 5%nat else 4%nat) /\
  (forall c d, c ∈ all_cards gs -> d ∈ all_cards gs ->
     card_text c ascii_only = card_text d ascii_only -> ident c = ident d) /\
  (forall c, 13 < value c \/ 3 < suit c -> card_text c ascii_only = Raise IndexError).
Proof.
  intros Hd. destruct (labels_of_the_deck ascii_only) as (ls & Hls & Hnd & Hlen).
  assert (forall c, c ∈ all_cards gs ->
            exists i c0 t, ordered_deck !! i = Some c0 /\ ident c0 = ident c /\
                           ls !! i = Some t /\ card_text c ascii_only = Ok t /\
                           length t = if value c =? 10 then 5%nat else 4%nat) as Hall.
  { intros c Hc.
    assert (ident c ∈ ident <$> ordered_deck) as Hin.
    { unfold full_deck in Hd. rewrite <- Hd. by apply list_elem_of_fmap_2. }
    apply list_elem_of_fmap in Hin as (c0 & Hid & Hc0).
    apply list_elem_of_lookup in Hc0 as [i Hi].
    destruct (mapM_lookup _ _ _ _ _ Hls Hi) as (t & Ht & Hti).
    exists i, c0, t. split; [done|]. split; [done|]. split; [done|].
    assert (card_text c ascii_only = card_text c0 ascii_only) as ->.
    { unfold card_text, label, suit_char. injection Hid as -> ->. done. }
    destruct (card_text c0 ascii_only) as [t'| |]; [|done..]. injection Ht as ->.
    split; [done|].
    pose proof (Forall2_lookup_lr _ _ _ _ _ _ Hlen Hi Hti) as Hl. simpl in Hl.
    injection Hid as -> _. done. }
  split; [|split].
  - intros c Hc. destruct (Hall c Hc) as (i & c0 & t & _ & _ & _ & Ht & Hl). by exists t.
  - intros c d Hc Hdd Heq.
    destruct (Hall c Hc) as (i & c0 & t & Hi & <- & Hti & Ht & _).
    destruct (Hall d Hdd) as (j & d0 & u & Hj & <- & Huj & Hu & _).
    rewrite Ht, Hu in Heq. injection Heq as <-.
    assert (i = j) as <- by (eapply NoDup_lookup; eauto). congruence.
  - intros c Hc. unfold card_text, label, suit_char.
    destruct Hc as [Hv|Hs].
    + rewrite index_out_of_range; [done|]. right. simpl. lia.
    + destruct (index VALUES (value c)) as [[n v]| |] eqn:E; cbn [res_bind];
        [|by apply index_raises in E as ->|by apply index_not_fuel in E].
      rewrite index_out_of_range; [done|]. right. destruct ascii_only; simpl; lia.
Qed.

Lemma card_texts_are_distinct_witness :
  card_text (mkCard 10 1 true) false = Ok [91; 49; 48; 9829; 93] /\
  card_text (mkCard 14 1 true) false = Raise IndexError.
Proof.
  destruct (card_texts_are_distinct Examples.plain_deal false) as (H1 & _ & H3).
  - destruct (deal_from_ok ordered_deck (float_of_Z 0)) as (gs & Hgs & Hok); [done|].
    unfold Examples.plain_deal. rewrite Hgs. by apply ok_deck.
  - split; [reflexivity|]. apply H3. left. simpl. lia.
Defined.

(** * The session *)

(** ** Clock differences *)

Section Rounding.
Variables prec emax : Z.

Lemma shr_1_nonneg mrs :
  0 <= SpecFloat.shr_m mrs -> 0 <= SpecFloat.shr_m (SpecFloat.shr_1 mrs).
Proof. destruct mrs as [[|[p|p|]|p] r s]; simpl; lia. Qed.

Lemma iter_pos_inv {A} (f : A -> A) (P : A -> Prop) n x :
  (forall y, P y -> P (f y)) -> P x -> P (SpecFloat.iter_pos f n x).
Proof.
  intros Hf. revert x. induction n as [n IH|n IH|]; intros x Hx; simpl; auto.
Qed.

Lemma shr_fexp_nonneg m e l :
  0 <= m -> 0 <= SpecFloat.shr_m (SpecFloat.shr_fexp prec emax m e l).1.
Proof.
  intros Hm. unfold SpecFloat.shr_fexp, SpecFloat.shr.
  assert (0 <= SpecFloat.shr_m (SpecFloat.shr_record_of_loc m l)) as H0.
  { by destruct l as [|[]]. }
  destruct (_ - e) as [|p|p]; simpl; try done.
  apply (iter_pos_inv _ (fun mrs => 0 <= SpecFloat.shr_m mrs)); [apply shr_1_nonneg|done].
Qed.

Lemma round_nearest_even_nonneg m l : 0 <= m -> 0 <= SpecFloat.round_nearest_even m l.
Proof. intros Hm. destruct l as [|[]]; simpl; try done; [destruct (Z.even m)|]; lia. Qed.

Lemma binary_round_aux_finite s m e l :
  0 <= m -> SpecFloat.binary_round_aux prec emax s m e l <> SpecFloat.S754_nan.
Proof.
  intros Hm. unfold SpecFloat.binary_round_aux.
  pose proof (shr_fexp_nonneg m e l Hm) as H1.
  destruct (SpecFloat.shr_fexp prec emax m e l) as [mrs' e']. simpl in H1.
  pose proof (shr_fexp_nonneg _ e' SpecFloat.loc_Exact
                (round_nearest_even_nonneg _ (SpecFloat.loc_of_shr_record mrs') H1)) as H2.
  destruct (SpecFloat.shr_fexp prec emax _ e' SpecFloat.loc_Exact) as [mrs'' e''].
  simpl in H2. destruct (SpecFloat.shr_m mrs'') as [|p|p]; [done| |lia].
  by destruct (_ <=? _).
Qed.

Lemma binary_normalize_finite m e sz :
  SpecFloat.binary_normalize prec emax m e sz <> SpecFloat.S754_nan.
Proof.
  destruct m as [|p|p]; simpl; [done|..]; unfold SpecFloat.binary_round;
    destruct (SpecFloat.shl_align _ _ _) as [mz ez]; by apply binary_round_aux_finite.
Qed.
End Rounding.

(** The difference of two numbers is a number or an infinity. *)
Lemma float_sub_finite x y :
  finite x -> finite y -> float_sub x y <> SpecFloat.S754_nan.
Proof.
  destruct x as [sx|sx| |sx mx ex], y as [sy|sy| |sy my ey]; try done; intros _ _.
  - by destruct sx, sy.
  - apply binary_normalize_finite.
Qed.

(** So [int] of it returns or raises [OverflowError]. *)
Lemma py_int_float_sub x y :
  finite x -> finite y ->
  (exists z, py_int (float_sub x y) = Ok z) \/ py_int (float_sub x y) = Raise OverflowError.
Proof.
  intros Hx Hy. pose proof (float_sub_finite x y Hx Hy) as H.
  destruct (float_sub x y); simpl; [left; eauto|by right|done|left; eauto].
Qed.

Lemma env0_clock_finite n r : finite (clock Examples.env0 n r).
Proof.
  simpl. assert (Forall (fun k => finite (float_of_Z (Z.of_nat k))) (seq 0 1001)) as H.
  { apply Forall_forall. intros k Hk. apply elem_of_seq in Hk.
    assert (forallb (fun k => match float_of_Z (Z.of_nat k) with
                              | SpecFloat.S754_zero _ | SpecFloat.S754_finite _ _ _ => true
                              | _ => false
                              end) (seq 0 1001) = true) as Hb by (vm_compute; reflexivity).
    rewrite forallb_forall in Hb. specialize (Hb k).
    unfold finite. destruct (float_of_Z (Z.of_nat k)); try done;
      (exfalso; apply Bool.diff_false_true, Hb, in_seq; lia). }
  rewrite Forall_forall in H. apply H, elem_of_seq. lia.
Qed.

(** The difference is rounded to a float before [int] truncates it.  In
    floats 7.1 - 0.1 is 7.0, although the two floats lie less than 7
    apart; and 1.0 - 2^-60 is 1.0. *)
Example float_difference_is_rounded :
  py_int (float_sub (SpecFloat.S754_finite false 7993889338582630 (-50))
            (SpecFloat.S754_finite false 7205759403792794 (-56))) = Ok 7 /\
  py_int (float_sub (float_of_Z 1) (SpecFloat.S754_finite false 4503599627370496 (-112)))
    = Ok 1 /\
  py_int (float_sub (SpecFloat.S754_finite false 5066549580791808 (-51))
            (SpecFloat.S754_finite false 4503599627370496 (-52))) = Ok 1 /\
  py_int (float_sub (float_of_Z 0) (SpecFloat.S754_finite false 5066549580791808 (-51)))
    = Ok (-2) /\
  py_int (float_sub (SpecFloat.S754_infinity false) (float_of_Z 0)) = Raise OverflowError /\
  py_int (float_sub (SpecFloat.S754_infinity false) (SpecFloat.S754_infinity false))
    = Raise ValueError.
Proof. vm_compute. repeat split. Qed.

(** ** One key *)

Lemma auto_move_safe_play_ok gs :
  play_ok gs ->
  exists gs' n, auto_move_safe gs = Ok (gs', n) /\ play_ok gs' /\ reachable_from gs gs'.
Proof.
  intros Hok. pose proof (table_ok_well_formed _ (proj1 Hok)) as Hwf.
  destruct (auto_move_loop_spec (S (movable gs)) gs 0 Hwf) as (gs' & n & E & _); [lia|].
  unfold auto_move_safe. rewrite E. exists gs', (0 + n). split; [done|].
  pose proof (auto_move_loop_reach _ _ _ _ _ E) as Hr.
  split; [by eapply reachable_play_ok|done].
Qed.

Lemma session_ok_push g : session_ok g -> session_ok (push_undo g).
Proof.
  intros [Hst Hstack Hb Hc Hs Hset Ht Hts].
  destruct (push_undo_stack g Hb) as (E1 & E2 & E5 & E3 & E4 & _).
  split; rewrite ?E1, ?E2, ?E3, ?E4, ?E5; try done.
  - apply Forall_app. split; [|by apply Forall_singleton].
    destruct (decide _); [by apply Forall_drop|done].
  - rewrite length_app. cbn [length].
    destruct (decide _); [rewrite length_drop|]; lia.
  - apply Forall_app. split; [|by apply Forall_singleton].
    destruct (decide _); [by apply Forall_drop|done].
Qed.

Lemma session_ok_undo g : session_ok g -> session_ok (undo g).
Proof.
  intros [Hst Hstack Hb Hc Hs Hset Ht Hts]. unfold undo.
  destruct (pop (undo_stack g)) as [[rest snapshot]|] eqn:E; [|done].
  apply pop_Some in E. rewrite E in Hstack, Hb, Hts.
  apply Forall_app in Hstack as [Hrest Hsnap]. rewrite Forall_singleton in Hsnap.
  apply Forall_app in Hts as [Htrest Htsnap]. rewrite Forall_singleton in Htsnap.
  rewrite length_app in Hb. split; simpl; try done. lia.
Qed.

Lemma session_ok_state gs g :
  session_ok g -> play_ok gs -> start_time gs = start_time (state g) ->
  session_ok (with_state gs g).
Proof. intros [Hst Hstack Hb Hc Hs Hset Ht Hts] Hgs E. split; simpl; try done. by rewrite E. Qed.

Lemma run_auto_move_ok g :
  session_ok g -> exists g', run_auto_move g = Ok g' /\ session_ok g'.
Proof.
  intros Hok. destruct (auto_move_safe_play_ok _ (so_state _ Hok)) as (gs' & n & E & Hgs & Hr).
  unfold run_auto_move. rewrite E. simpl. eexists. split; [done|].
  apply session_ok_state; [done..|]. by apply reachable_won in Hr as [? _].
Qed.

(** With settings as the screen writes them, the draw count is an
    integer. *)
Lemma draw_with_int gs k : draw_with gs (JInt k) = draw_from_stock gs k.
Proof. unfold draw_with, draw_from_stock. by destruct (stock gs). Qed.

Lemma draw_with_valid gs s :
  settings_valid s -> exists k, draw_with gs (sd_draw_count s) = draw_from_stock gs k.
Proof. intros ([-> | ->] & _); eexists; apply draw_with_int. Qed.

Lemma draw_session g :
  session_ok g ->
  exists gs b,
    draw_with (state (push_undo g)) (sd_draw_count (settings (push_undo g))) = Ok (gs, b) /\
    session_ok (with_state gs (push_undo g)) /\ won gs = won (state g).
Proof.
  intros Hok. pose proof (session_ok_push _ Hok) as Hok1.
  destruct (push_undo_stack g (so_bound _ Hok)) as (_ & E2 & _).
  destruct (draw_with_valid (state (push_undo g)) _ (so_settings _ Hok1)) as (k & ->).
  pose proof (draw_from_stock_noop (state (push_undo g)) k) as Hn.
  destruct (draw_from_stock _ _) as [[gs b]| |] eqn:E; [|done..].
  pose proof (step_draw _ _ _ _ E) as Hstep.
  pose proof (move_step_stock _ _ Hstep) as [Ht Hw].
  exists gs, b. split; [done|]. split; [|by rewrite Hw, E2].
  apply session_ok_state; [done| |done].
  eapply move_step_play_ok; [done|]. by apply so_state.
Qed.

Lemma place_stock gs src zone idx gs' b :
  place gs src zone idx = Ok (gs', b) ->
  start_time gs' = start_time gs /\ won gs' = won gs.
Proof.
  destruct src, zone; simpl; try (by intros [= <- _]).
  - intros H. by apply (move_step_stock gs gs'), (step_waste_to_foundation _ _ b).
  - intros H. by apply (move_step_stock gs gs'), (step_waste_to_tableau _ _ idx b).
  - intros [[_ ->]|[_ (nf & rest & card & nt & pile & _ & _ & _ & ->)]]
      %foundation_to_tableau_full; done.
  - intros H. by apply (move_step_stock gs gs'), (step_tableau_to_foundation _ _ col b).
  - intros H. by apply (move_step_stock gs gs'), (step_tableau_to_tableau _ _ col idx depth b).
Qed.

(** What Enter does. *)
Lemma select_or_move_session g :
  session_ok g ->
  (exists g', select_or_move g = Ok g' /\ session_ok g' /\ won (state g') = won (state g)) \/
  (select_or_move g = Raise IndexError /\ stale_selection g).
Proof.
  intros Hok. pose proof Hok as [Hst Hstack Hb Hc Hs Hset Ht Hts].
  pose proof (proj1 Hst) as Htab.
  pose proof (ok_four _ Htab) as H4. pose proof (ok_seven _ Htab) as H7.
  unfold select_or_move. destruct (cursor g) as [zone idx] eqn:Ecur.
  destruct (sel g) as [src|] eqn:Esel.
  - (* place to destination *)
    pose proof (session_ok_push _ Hok) as Hok1.
    destruct (push_undo_stack g Hb) as (E1 & E2 & E5 & E3 & E4 & _).
    rewrite E2.
    destruct (place_play_ok (state g) src zone idx Hst Hs Hc)
      as [(gs' & b & Hp & Hgs & Hb')|[-> (i & -> & -> & Hi)]].
    + left. rewrite Hp. apply place_stock in Hp as [Hpt Hpw].
      cbn [res_bind]. eexists. split; [reflexivity|].
      destruct b.
      * split; [|done].
        assert (session_ok (with_state gs' (push_undo g))) as [? ? ? ? ? ? ? ?].
        { apply session_ok_state; [done..|]. by rewrite E2. }
        by split.
      * cbn [undo_stack with_state]. rewrite pop_push_undo by done.
        split; [|done].
        pose proof Hok1 as [_ Hstack1 Hb1 _ _ _ _ Hts1]. rewrite E1 in Hstack1, Hb1, Hts1.
        apply Forall_app in Hstack1 as [Hrest _]. apply Forall_app in Hts1 as [Htrest _].
        rewrite length_app in Hb1.
        split; simpl; rewrite ?E4, ?E5; try done; [lia|by rewrite Ecur].
    + right. split; [done|]. exists i. by rewrite Esel, Ecur.
  - (* select origin *)
    left. pose proof Hc as Hc'. apply cursor_cases in Hc
      as [[= -> ->]|[[= -> ->]|[(i & [= -> ->] & Hi)|(i & [= -> ->] & Hi)]]].
    + destruct (draw_session g Hok) as (gs & b & -> & Hok2 & Hw).
      cbn [res_bind]. eexists. split; [reflexivity|]. done.
    + destruct (waste (state g)); eexists; (split; [reflexivity|]); [done|].
      split; [|done]. by (split; simpl; rewrite ?Ecur).
    + destruct (index_in_range (foundations (state g)) i) as (pile & _ & ->); [lia|].
      cbn [res_bind]. destruct pile; eexists; (split; [reflexivity|]); [done|].
      split; [|done]. by (split; simpl; rewrite ?Ecur).
    + destruct (index_in_range (tableaus (state g)) i) as (pile & _ & ->); [lia|].
      cbn [res_bind]. destruct (existsb face_up pile); eexists; (split; [reflexivity|]);
        [|done]. split; [|done]. by (split; simpl; rewrite ?Ecur).
Qed.

Lemma stale_selection_raises g :
  session_ok g -> stale_selection g -> select_or_move g = Raise IndexError.
Proof.
  intros Hok (i & Hsel & Hz & Hf). pose proof Hok as [Hst Hstack Hb Hc Hs Hset Ht Hts].
  rewrite Hsel in Hs. simpl in Hs.
  unfold select_or_move. destruct (cursor g) as [zone idx]. simpl in Hz. subst zone.
  rewrite Hsel. destruct (push_undo_stack g Hb) as (_ & -> & _).
  cbn [place]. unfold foundation_to_tableau.
  rewrite (index_at _ _ _ (proj1 Hs) Hf). done.
Qed.

(** On a table in order [hint] returns. *)
Lemma hint_total b gs ui : table_ok gs -> exists h, hint b gs ui = Ok h.
Proof.
  intros Hok. unfold hint. destruct b; cbn [negb]; [|by eexists].
  pose proof (table_ok_well_formed _ Hok) as (H4 & H7 & Hsuits).
  assert (Forall (fun col => 0 <= col < Z.of_nat (length (tableaus gs))) [0; 1; 2; 3; 4; 5; 6])
    as Hcols by (rewrite H7; repeat constructor; lia).
  assert (Forall (Forall (fun c => 0 <= suit c < Z.of_nat (length (foundations gs))))
            (tableaus gs)) as Hsuits' by (by rewrite H4).
  unfold hint_tips.
  assert (exists tips0,
    match top (waste gs) with
    | Some w =>
        let! (_, fpile) := index (foundations gs) (suit w) in
        hint_waste_columns gs w [0; 1; 2; 3; 4; 5; 6]
          (if can_place_on_foundation w (top fpile) then [(ZFoundation, suit w)] else [])
    | None => Ok []
    end = Ok tips0) as (tips0 & ->).
  { destruct (top (waste gs)) as [w|] eqn:Ew; [|by eexists].
    assert (0 <= suit w < 4) as Hw.
    { eapply full_deck_ranks; [by apply ok_deck|]. apply top_Some in Ew as [rest Ew].
      unfold all_cards. rewrite Ew, !elem_of_app. right. left. right.
      by apply list_elem_of_singleton. }
    destruct (index_in_range (foundations gs) (suit w)) as (fpile & Hf & ->); [lia|].
    cbn [res_bind].
    destruct (hint_waste_columns_spec gs w [0; 1; 2; 3; 4; 5; 6]
                (if can_place_on_foundation w (top fpile)
                 then [(ZFoundation, suit w)] else []) Hcols) as (more & -> & _).
    by eexists. }
  cbn [res_bind].
  destruct (hint_tableau_columns_spec gs [0; 1; 2; 3; 4; 5; 6] tips0 Hcols Hsuits')
    as (more2 & -> & _).
  cbn [res_bind]. by eexists.
Qed.

(** With settings as the screen writes them the settings screen opens,
    and leaves them so. *)
Lemma show_settings_valid keys s :
  settings_valid s -> exists s' r, show_settings keys s = Ok (s', r) /\ settings_valid s'.
Proof.
  intros Hs. pose proof Hs as (_ & _ & _ & (t & Ht & Hin) & _).
  destruct (theme_index_valid t Hin) as (i & Hi & _).
  unfold show_settings. rewrite Ht. cbn [theme_index]. rewrite Hi. cbn [res_bind].
  by apply settings_loop_valid.
Qed.

Section Key.
Variable env : Env.
Hypothesis clock_finite : forall n r, finite (clock env n r).
Hypothesis shuffle_perm : forall n, shuffled env n ≡ₚ ordered_deck.

Lemma handle_key_cases (n : nat) (g : Game) (k : Key) :
  session_ok g ->
  (k = KeyEnter /\ stale_selection g -> handle_key env n g k = Raise IndexError) /\
  (~ (k = KeyEnter /\ stale_selection g) ->
   exists g', handle_key env n g k = Ok g' /\ session_ok g' /\
              (k <> KeyNew -> k <> KeyUndo -> won (state g') = won (state g))).
Proof.
  intros Hok. split.
  { intros [-> Hstale]. simpl. by rewrite stale_selection_raises. }
  intros Hnot. pose proof Hok as [Hst Hstack Hb Hc Hs Hset Ht Hts].
  destruct k; cbn [handle_key].
  - by exists g.
  - destruct (cycle_cursor_in_order (-1) g Hc) as (c & -> & Hin); [by right|].
    eexists. split; [done|]. split; [by split|done].
  - destruct (cycle_cursor_in_order 1 g Hc) as (c & -> & Hin); [by left|].
    eexists. split; [done|]. split; [by split|done].
  - unfold adjust_depth. destruct (sel g) as [[|i|col depth]|] eqn:Esel; try by exists g.
    simpl in Hs. pose proof (ok_seven _ (proj1 Hst)) as H7.
    destruct (index_in_range (tableaus (state g)) col) as (pile & _ & ->); [lia|].
    simpl. eexists. split; [done|]. split; [by split|done].
  - unfold adjust_depth. destruct (sel g) as [[|i|col depth]|] eqn:Esel; try by exists g.
    simpl in Hs. pose proof (ok_seven _ (proj1 Hst)) as H7.
    destruct (index_in_range (tableaus (state g)) col) as (pile & _ & ->); [lia|].
    simpl. eexists. split; [done|]. split; [by split|done].
  - destruct (select_or_move_session g Hok) as [(g1 & -> & Hok1 & Hw1)|[_ Hstale]];
      [|by destruct Hnot].
    cbn [res_bind]. destruct (py_truthy _); [|by exists g1].
    destruct (run_auto_move_ok g1 Hok1) as (g2 & E & Hok2).
    exists g2. split; [done|]. split; [done|]. intros _ _.
    unfold run_auto_move in E.
    destruct (auto_move_safe (state g1)) as [[gs cnt]| |] eqn:Ea; cbn [res_bind] in E; [|done..].
    injection E as <-. simpl. rewrite <- Hw1. unfold auto_move_safe in Ea.
    by apply auto_move_loop_reach, reachable_won in Ea as [_ ?].
  - destruct (draw_session g Hok) as (gs & b & -> & Hok2 & Hw).
    cbn [res_bind]. destruct (py_truthy _); [|by eexists].
    destruct (run_auto_move_ok _ Hok2) as (g2 & E & Hok3).
    exists g2. split; [done|]. split; [done|]. intros _ _.
    unfold run_auto_move in E. cbn [state with_state] in E.
    destruct (auto_move_safe gs) as [[gs' cnt]| |] eqn:Ea; cbn [res_bind] in E; [|done..].
    injection E as <-. simpl. rewrite <- Hw. unfold auto_move_safe in Ea.
    by apply auto_move_loop_reach, reachable_won in Ea as [_ ?].
  - eexists. split; [done|]. split; [by apply session_ok_undo|done].
  - destruct (hint_total (py_truthy (sd_show_hints (settings g))) (state g) (hints g)
                (proj1 Hst)) as (h & ->).
    cbn [res_bind]. eexists. split; [done|]. split; [by split|done].
  - pose proof (session_ok_push _ Hok) as Hok1.
    destruct (push_undo_stack g Hb) as (_ & E2 & _).
    destruct (run_auto_move_ok _ Hok1) as (g2 & E & Hok3).
    exists g2. split; [done|]. split; [done|]. intros _ _.
    unfold run_auto_move in E.
    destruct (auto_move_safe _) as [[gs' cnt]| |] eqn:Ea; cbn [res_bind] in E; [|done..].
    injection E as <-. simpl. rewrite <- E2. unfold auto_move_safe in Ea.
    by apply auto_move_loop_reach, reachable_won in Ea as [_ ?].
  - destruct (show_settings_valid (typed ++ [SQuit]) _ Hset) as (s' & r & -> & Hs').
    cbn [res_bind]. destruct r as [[|]|]; eexists; (split; [done|]); (split; [|done]);
      split; simpl; try done.
    unfold order. repeat constructor.
  - destruct (deal_from_play_ok (shuffled env n) (clock env n AtDeal) (shuffle_perm n))
      as (gs & E & Hgs & Hnow).
    rewrite E. cbn [res_bind]. eexists. split; [done|].
    split; [|done]. split; simpl; [done|constructor|lia|done..| |constructor].
    rewrite Hnow. apply clock_finite.
  - by exists g.
  - by exists g.
Qed.

Lemma stale_selection_dec g : stale_selection g \/ ~ stale_selection g.
Proof.
  unfold stale_selection.
  destruct (sel g) as [[|i|col depth]|]; try (right; by intros (? & ? & _)).
  destruct (cursor g) as [[] idx]; try (right; by intros (? & _ & ? & _)).
  destruct (foundations (state g) !! Z.to_nat i) as [[|c pile]|] eqn:E.
  - left. by exists i.
  - right. intros (? & [= <-] & _ & ?). congruence.
  - right. intros (? & [= <-] & _ & ?). congruence.
Qed.

Lemma handle_key_session (n : nat) (g : Game) (k : Key) :
  session_ok g ->
  match handle_key env n g k with
  | Ok g' => session_ok g' /\ (k <> KeyNew -> k <> KeyUndo -> won (state g') = won (state g))
  | Raise e => e = IndexError /\ k = KeyEnter /\ stale_selection g
  | OutOfFuel => False
  end.
Proof.
  intros Hok. destruct (handle_key_cases n g k Hok) as [H1 H2].
  destruct (stale_selection_dec g) as [Hs|Hs].
  - assert (k = KeyEnter \/ k <> KeyEnter) as [->|Hk]
      by (destruct k; (by left) || (by right)).
    { by rewrite H1. }
    destruct H2 as (g' & -> & Hg'); [by intros [? _]|done].
  - destruct H2 as (g' & -> & Hg'); [by intros [_ ?]|done].
Qed.
End Key.


Lemma default_settings_valid : settings_valid Examples.default_settings.
Proof.
  unfold settings_valid, Examples.default_settings, themes. simpl.
  split_and!; [by right|by eexists..|eexists; split; [done|repeat constructor]|
               by eexists|by eexists].
Qed.

Lemma new_game_session_ok gs :
  play_ok gs -> finite (start_time gs) -> session_ok (Examples.new_game gs).
Proof.
  intros H Ht. split; simpl; [done|constructor|lia| |done|apply default_settings_valid|done|
                              constructor].
  unfold order. repeat constructor.
Qed.

Lemma plain_deal_finite : finite (start_time Examples.plain_deal).
Proof. by vm_compute. Qed.


(** ** The main loop *)

Lemma play_ok_won b gs : play_ok gs -> play_ok (with_won b gs).
Proof. intros [[? ? ? ? ? ?] ?]. by split; [split|]. Qed.

Section Loop.
Variable env : Env.
Hypothesis clock_finite : forall n r, finite (clock env n r).
Hypothesis shuffle_perm : forall n, shuffled env n ≡ₚ ordered_deck.

(** Drawing a frame: a won table fails on [self._win_time]; otherwise the
    seconds played are taken from the clock. *)
Lemma ui_draw_cases n gs :
  finite (start_time gs) ->
  match ui_draw env n gs with
  | Ok _ => won gs = false
  | Raise e => (e = AttributeError /\ won gs = true) \/ (e = OverflowError /\ won gs = false)
  | OutOfFuel => False
  end.
Proof.
  intros Ht. unfold ui_draw. destruct (won gs); [by left|].
  destruct (py_int_float_sub (clock env n AtDraw) (start_time gs)) as [[z ->]| ->];
    [apply clock_finite|done|done|by right].
Qed.

Lemma frame_check_session n g :
  session_ok g ->
  match frame_check env n g with
  | Ok g' =>
      session_ok g' /\ foundations (state g') = foundations (state g) /\
      (won (state g') = true <-> on_foundations (state g) = 52%nat \/ won (state g) = true)
  | Raise e => e = OverflowError
  | OutOfFuel => False
  end.
Proof.
  intros [Hst Hstack Hb Hc Hs Hset Ht Hts]. unfold frame_check, check_win.
  fold (on_foundations (state g)).
  destruct (Nat.eqb_spec (on_foundations (state g)) 52) as [E|E].
  - unfold save_score_if_win, elapsed. cbn [state with_state with_won won start_time].
    destruct (py_int_float_sub (clock env n AtSave) (start_time (state g))) as [[z ->]| ->];
      [apply clock_finite|done| |done].
    cbn [res_bind]. split; [|split; [done|by split; [left|]]].
    split; simpl; try done. by apply play_ok_won.
  - split; [by split|]. split; [done|]. simpl. split; [by right|]. intros [?|?]; done.
Qed.

Lemma game_loop_cases keys n g :
  session_ok g ->
  match game_loop env n g keys with
  | Ok g' => session_ok g'
  | Raise e => e = AttributeError \/ e = IndexError \/ e = OverflowError
  | OutOfFuel => False
  end.
Proof.
  revert n g. induction keys as [|k keys IH]; intros n g Hok.
  - cbn [game_loop]. pose proof (ui_draw_cases n (state g) (so_time _ Hok)) as Hd.
    destruct (ui_draw env n (state g)) as [[]|e|]; cbn [res_bind]; [| |done].
    + pose proof (frame_check_session n g Hok) as Hf.
      destruct (frame_check env n g) as [g1|e|]; cbn [res_bind]; [by destruct Hf| |done].
      by right; right.
    + destruct Hd as [[-> _]|[-> _]]; [by left|by right; right].
  - cbn [game_loop]. pose proof (ui_draw_cases n (state g) (so_time _ Hok)) as Hd.
    destruct (ui_draw env n (state g)) as [[]|e|]; cbn [res_bind]; [| |done].
    2:{ destruct Hd as [[-> _]|[-> _]]; [by left|by right; right]. }
    pose proof (frame_check_session n g Hok) as Hf.
    destruct (frame_check env n g) as [g1|e|]; cbn [res_bind]; [| |done].
    2:{ by right; right. }
    destruct Hf as [Hok1 _].
    pose proof (handle_key_session env clock_finite shuffle_perm n g1 k Hok1) as Hk.
    assert (match (let! g2 := handle_key env n g1 k in game_loop env (S n) g2 keys) with
            | Ok g' => session_ok g'
            | Raise e => e = AttributeError \/ e = IndexError \/ e = OverflowError
            | OutOfFuel => False
            end) as Hrest.
    { destruct (handle_key env n g1 k) as [g2|e|]; [| |done].
      - cbn [res_bind]. apply IH. by destruct Hk.
      - destruct Hk as [-> _]. by right; left. }
    by destruct k.
Qed.
End Loop.


(** ** After a win *)

Lemma full_foundations gs :
  table_ok gs -> on_foundations gs = 52%nat ->
  Forall (fun pile => length pile = 13%nat) (foundations gs).
Proof.
  intros Hok H52. pose proof (ok_deck _ Hok) as Hd.
  pose proof (ok_foundations _ Hok) as Hf. pose proof (ok_four _ Hok) as H4.
  assert (Forall (fun pile => (length pile <= 13)%nat) (foundations gs)) as Hshort.
  { apply Forall_forall. intros pile Hp. eapply foundation_pile_short; [done..|].
    rewrite Forall_forall in Hf. by apply Hf. }
  unfold on_foundations in H52.
  destruct (foundations gs) as [|p0 [|p1 [|p2 [|p3 [|]]]]]; try done.
  repeat (apply Forall_cons in Hshort as [? Hshort]). simpl in *.
  repeat constructor; lia.
Qed.

Lemma game_loop_won env n g keys :
  won (state g) = true -> game_loop env n g keys = Raise AttributeError.
Proof. intros H. destruct keys; simpl; unfold ui_draw; by rewrite H. Qed.




(** Both failures occur in play.  The deal of the unshuffled deck plays
    itself out: eight draws of three with auto-move on put every card on
    the foundations, and the frame after the win fails. *)
Example unshuffled_deal_wins_and_fails :
  game_loop Examples.env0 0 (Examples.new_game Examples.plain_deal)
    (replicate 8 KeyDraw ++ [KeyOther]) = Raise AttributeError.
Proof. vm_compute. reflexivity. Qed.

(** With auto-move off: draw until the ace of spades is on the waste, put
    it on the first foundation, select that foundation, undo, go to the
    first column and press Enter. *)
Example undo_leaves_selection_behind :
  game_loop Examples.env0 0
    (with_settings
       (mkSettingsDict (JInt 3) (JBool false) (JBool true) (JString "classic") (JBool false)
          (JBool false))
       (Examples.new_game Examples.plain_deal))
    (replicate 8 KeyDraw
     ++ [KeyRight; KeyEnter; KeyRight; KeyEnter; KeyEnter; KeyUndo;
         KeyRight; KeyRight; KeyRight; KeyRight; KeyEnter])
  = Raise IndexError.
Proof. vm_compute. reflexivity. Qed.

(** Settings that the settings screen does not write reach the game as the
    file has them.  With the theme "pink" the settings key stops the loop;
    with the draw count "3", a string, the draw key does. *)
Example unknown_theme_stops_the_loop :
  game_loop Examples.env0 0
    (with_settings
       (mkSettingsDict (JInt 3) (JBool true) (JBool true) (JString "pink") (JBool false)
          (JBool false))
       (Examples.new_game Examples.plain_deal))
    [KeyDraw; KeySettings []] = Raise ValueError.
Proof. vm_compute. reflexivity. Qed.

Example text_draw_count_stops_the_loop :
  game_loop Examples.env0 0
    (with_settings
       (mkSettingsDict (JString "3") (JBool true) (JBool true) (JString "classic")
          (JBool false) (JBool false))
       (Examples.new_game Examples.plain_deal))
    [KeyRight; KeyDraw] = Raise TypeError.
Proof. vm_compute. reflexivity. Qed.

(** ** The rankings *)

Section Sorting.
Context {A : Type} (key : A -> Z).
Implicit Types (l : list A) (x : A).

Lemma insert_by_Forall (P : A -> Prop) x l :
  P x -> Forall P l -> Forall P (insert_by key x l).
Proof.
  intros Hx. induction 1 as [|y l Hy Hl IH]; simpl; [by constructor|].
  case_match; repeat constructor; done.
Qed.

Lemma insert_by_sorted x l : sorted_by key l -> sorted_by key (insert_by key x l).
Proof.
  induction l as [|y l IH]; simpl; [done|]. intros [Hy Hl].
  destruct (Z.leb_spec (key x) (key y)) as [Hle|Hlt]; simpl.
  - split; [|done]. constructor; [done|].
    eapply Forall_impl; [done|]. simpl. intros z Hz. lia.
  - split; [|by apply IH]. apply insert_by_Forall; [lia|done].
Qed.

Lemma sort_by_sorted l : sorted_by key (sort_by key l).
Proof. induction l as [|x l IH]; simpl; [done|]. by apply insert_by_sorted. Qed.

Lemma sorted_by_app l1 l2 :
  sorted_by key (l1 ++ l2) <->
  sorted_by key l1 /\ sorted_by key l2 /\
  Forall (fun x => Forall (fun y => key x <= key y) l2) l1.
Proof.
  induction l1 as [|x l1 IH]; simpl.
  - split; [by intros ?|by intros (_ & ? & _)].
  - rewrite Forall_app, IH, Forall_cons. tauto.
Qed.

Lemma sorted_by_take n l : sorted_by key l -> sorted_by key (take n l).
Proof.
  intros H. rewrite <- (take_drop n l) in H. by apply sorted_by_app in H as [? _].
Qed.

(** A sorted list is left as it is. *)
Lemma sort_by_sorted_id l : sorted_by key l -> sort_by key l = l.
Proof.
  induction l as [|x l IH]; [done|]. intros [Hx Hl]. unfold sort_by in *. simpl.
  rewrite IH by done. destruct l as [|y l]; [done|]. simpl.
  apply Forall_cons in Hx as [Hxy _].
  destruct (Z.leb_spec (key x) (key y)); [done|lia].
Qed.

(** Entries with the same key stay in the order they had. *)
Lemma insert_by_stable (k : Z) x l :
  filter (fun y => key y = k) (insert_by key x l) = filter (fun y => key y = k) (x :: l).
Proof.
  induction l as [|y l IH]; [done|]. simpl.
  destruct (Z.leb_spec (key x) (key y)) as [Hle|Hlt]; [done|].
  rewrite (filter_cons _ y), IH, !filter_cons.
  destruct (decide (key y = k)), (decide (key x = k)); (done || lia).
Qed.

Lemma sort_by_stable (k : Z) l :
  filter (fun y => key y = k) (sort_by key l) = filter (fun y => key y = k) l.
Proof.
  induction l as [|x l IH]; [done|]. unfold sort_by in *. simpl.
  by rewrite insert_by_stable, !filter_cons, IH.
Qed.
End Sorting.

Lemma filter_take_prefix {A} (P : A -> Prop) `{forall x, Decision (P x)} n (l : list A) :
  filter P (take n l) `prefix_of` filter P l.
Proof. exists (filter P (drop n l)). by rewrite <- filter_app, take_drop. Qed.

(** The ranking that [save_score_if_win] computes. *)
Lemma take_sort_ranked (key : Entry -> Z) (old : list Entry) (entry : Entry) :
  ranked key old entry (take 20 (sort_by key (old ++ [entry]))).
Proof.
  pose proof (sort_by_sorted key (old ++ [entry])) as Hs.
  split; [by apply sorted_by_take|].
  split; [rewrite length_take, length_sort_by, length_app; cbn [length]; lia|].
  split.
  { exists (drop 20 (sort_by key (old ++ [entry]))).
    split; [rewrite take_drop; apply sort_by_perm|].
    intros x y Hx Hy. rewrite <- (take_drop 20 (sort_by key (old ++ [entry]))) in Hs.
    apply sorted_by_app in Hs as (_ & _ & Hs).
    rewrite Forall_forall in Hs. specialize (Hs x Hx).
    rewrite Forall_forall in Hs. by apply Hs. }
  split.
  { intros k. rewrite <- (sort_by_stable key k (old ++ [entry])).
    apply filter_take_prefix. }
  intros Hlen Hsorted Hall. rewrite sort_by_sorted_id.
  - rewrite take_app_length'; done.
  - apply sorted_by_app. split; [done|]. split; [by split|].
    eapply Forall_impl; [done|]. simpl. intros x Hx. by constructor.
Qed.


